(** * CryptoFarm scoring core: classifier, priority scorer, discovery and
      opportunity aggregation

    A shallow embedding of [cryptofarm/config.py],
    [cryptofarm/data_processor/data_classifier.py] and
    [cryptofarm/data_processor/opportunity_analyzer.py].

    Conventions of the embedding.
    - A Python [str] is a list of characters ([text]); only the ASCII
      behaviour of [str.lower], [\s], [\w] and [re.IGNORECASE] is modelled.
    - Python floats are idealised: the classifier, whose arithmetic is
      rational, computes in [Q]; the analyzer, which calls [math.exp],
      computes in [R].
    - The SQLite store is an explicit [database] value; [execute_query]
      and [select] answer the empty list when the store cannot be reached,
      as the [except] branches of [db_utils.py] do. *)

From Stdlib Require Import String Ascii Bool Arith ZArith QArith Qminmax Reals Psatz
  List Sorted Permutation.
Import ListNotations.

Close Scope R_scope.
Close Scope Q_scope.
Open Scope nat_scope.

Set Implicit Arguments.

(* ================================================================== *)
(** ** Text primitives (Python [str] methods used by the code) *)
(* ================================================================== *)

Module Text.

Definition text := list ascii.

Definition txt (s : string) : text := list_ascii_of_string s.

Definition code (c : ascii) : nat := nat_of_ascii c.

Definition is_upper (c : ascii) : bool := (65 <=? code c) && (code c <=? 90).
Definition is_lower (c : ascii) : bool := (97 <=? code c) && (code c <=? 122).
Definition is_digit (c : ascii) : bool := (48 <=? code c) && (code c <=? 57).

(** [str.isspace] on ASCII: TAB, LF, VT, FF, CR, FS, GS, RS, US, SPACE. *)
Definition is_space (c : ascii) : bool :=
  ((9 <=? code c) && (code c <=? 13)) ||
  ((28 <=? code c) && (code c <=? 32)).

(** [\w] on ASCII. *)
Definition is_word (c : ascii) : bool :=
  is_upper c || is_lower c || is_digit c || (code c =? 95).

Definition to_lower (c : ascii) : ascii :=
  if is_upper c then ascii_of_nat (code c + 32) else c.

Definition to_upper (c : ascii) : ascii :=
  if is_lower c then ascii_of_nat (code c - 32) else c.

(** [s.lower()] *)
Definition lower (s : text) : text := map to_lower s.

(** [s.replace(a, b)] for one-character [a] and [b]. *)
Definition replace_char (a b : ascii) (s : text) : text :=
  map (fun c => if Ascii.eqb c a then b else c) s.

(** [s.startswith(p)] *)
Fixpoint starts_with (p s : text) : bool :=
  match p, s with
  | [], _ => true
  | _ :: _, [] => false
  | a :: p', c :: s' => Ascii.eqb a c && starts_with p' s'
  end.

(** [p in s] *)
Fixpoint contains (p s : text) : bool :=
  starts_with p s ||
  match s with
  | [] => false
  | _ :: s' => contains p s'
  end.

(** [s.count(p)]: non-overlapping occurrences, scanned left to right.
    [skip] is the number of characters of the last occurrence still to
    be stepped over. *)
Fixpoint count_from (skip : nat) (p s : text) : nat :=
  match s with
  | [] => 0
  | _ :: s' =>
      match skip with
      | S k => count_from k p s'
      | O => if starts_with p s
             then S (count_from (length p - 1) p s')
             else count_from 0 p s'
      end
  end.

Definition count (p s : text) : nat :=
  match p with
  | [] => S (length s)
  | _ :: _ => count_from 0 p s
  end.

Definition text_eqb (a b : text) : bool :=
  if list_eq_dec ascii_dec a b then true else false.

(** [s.strip()] *)
Fixpoint lstrip (s : text) : text :=
  match s with
  | [] => []
  | c :: s' => if is_space c then lstrip s' else s
  end.

Definition rstrip (s : text) : text := rev (lstrip (rev s)).

Definition strip (s : text) : text := rstrip (lstrip s).

(** [x in l] for a list of labels. *)
Definition mem (x : string) (l : list string) : bool :=
  existsb (String.eqb x) l.

(** Text made of ASCII characters only: where [str.lower] and
    [re.IGNORECASE] are as modelled here. *)
Definition is_ascii (c : ascii) : bool := code c <? 128.

Definition ascii_text (s : text) : Prop := forallb is_ascii s = true.

End Text.

Import Text.

(* ================================================================== *)
(** ** The opportunity analyzer ([opportunity_analyzer.py]) *)
(* ================================================================== *)

Module Analyzer.

Local Open Scope R_scope.

(** A TEXT column written with [json.dumps]: what [if col] and
    [json.loads(col)] make of it. *)
Inductive json_column :=
| JNull                          (* NULL or the empty string: falsy *)
| JMalformed                     (* [json.loads] raises *)
| JList (items : list string).   (* a JSON array of strings *)

Record analyzed_row := {
  ad_raw_data_id : Z;
  ad_project_id : Z;
  ad_categories : json_column;
  ad_priority_score : R;
  ad_context : json_column;
  ad_analysis_timestamp : Z      (* seconds on the clock of [now] *)
}.

Record raw_row := {
  rd_id : Z;
  rd_content : option text
}.

Record project_row := {
  pr_id : Z;
  pr_name : string
}.

Record database := {
  db_reachable : bool;
  db_projects : list project_row;
  db_analyzed_data : list analyzed_row;
  db_raw_data : list raw_row
}.

Definition Rleb (x y : R) : bool := if Rle_dec x y then true else false.
Definition Rltb (x y : R) : bool := if Rlt_dec x y then true else false.

Inductive level := low | medium | high.

Inductive opportunity :=
| unknown | airdrop | testnet | whitelist | staking | farming
| token_launch | community_tasks.

Definition opportunity_eqb (a b : opportunity) : bool :=
  match a, b with
  | unknown, unknown | airdrop, airdrop | testnet, testnet
  | whitelist, whitelist | staking, staking | farming, farming
  | token_launch, token_launch | community_tasks, community_tasks => true
  | _, _ => false
  end.

Record category_info := {
  cat_keywords : list text;
  cat_effort_level : level;
  cat_time_sensitivity : level;
  cat_roi_potential : level
}.

(** [self.weights] *)
Definition weight_activity_level : R := 0.25.
Definition weight_community_growth : R := 0.15.
Definition weight_sentiment : R := 0.15.
Definition weight_urgency : R := 0.20.
Definition weight_roi_potential : R := 0.25.

(** [self.opportunity_categories], in insertion order. *)
Definition opportunity_categories : list (opportunity * category_info) :=
  [ (airdrop,
     {| cat_keywords := map txt ["airdrop"; "free"; "claim"; "distribution"; "eligible"]%string;
        cat_effort_level := low; cat_time_sensitivity := high; cat_roi_potential := medium |});
    (testnet,
     {| cat_keywords := map txt ["testnet"; "test"; "validator"; "node"; "incentivized"]%string;
        cat_effort_level := medium; cat_time_sensitivity := medium; cat_roi_potential := high |});
    (whitelist,
     {| cat_keywords := map txt ["whitelist"; "allowlist"; "wl"; "presale"; "early"]%string;
        cat_effort_level := low; cat_time_sensitivity := high; cat_roi_potential := high |});
    (staking,
     {| cat_keywords := map txt ["stake"; "staking"; "locked"; "yield"; "reward"; "apr"; "apy"]%string;
        cat_effort_level := low; cat_time_sensitivity := low; cat_roi_potential := medium |});
    (farming,
     {| cat_keywords := map txt ["farm"; "farming"; "liquidity"; "pool"; "yield"]%string;
        cat_effort_level := medium; cat_time_sensitivity := medium; cat_roi_potential := medium |});
    (token_launch,
     {| cat_keywords := map txt ["launch"; "listing"; "ido"; "ico"; "public sale"]%string;
        cat_effort_level := high; cat_time_sensitivity := high; cat_roi_potential := high |});
    (community_tasks,
     {| cat_keywords := map txt ["task"; "quest"; "mission"; "bounty"; "ambassador"]%string;
        cat_effort_level := medium; cat_time_sensitivity := medium; cat_roi_potential := low |}) ].

Fixpoint category_lookup (t : opportunity)
    (d : list (opportunity * category_info)) : option category_info :=
  match d with
  | [] => None
  | (k, v) :: d' => if opportunity_eqb t k then Some v else category_lookup t d'
  end.

(** [self.roi_levels] *)
Definition roi_levels (l : level) : R :=
  match l with low => 1.0 | medium => 2.0 | high => 3.0 end.

Section Queries.

Variable now : Z.
Variable db : database.

(** [datetime('now', '-<days> days')] *)
Definition days_ago (days : Z) : Z := (now - days * 86400)%Z.

(** [db_manager.execute_query]: the rows, or [[]] when the store fails. *)
Definition execute_query (A : Type) (rows : list A) : list A :=
  if db_reachable db then rows else [].

Definition rows_of_project (project_id : Z) : list analyzed_row :=
  filter (fun ad => (ad_project_id ad =? project_id)%Z) (db_analyzed_data db).

(** [SELECT COUNT( * ) ... WHERE project_id = ? AND analysis_timestamp >= since]:
    always exactly one row. *)
Definition query_count_since (project_id since : Z) : list nat :=
  execute_query
    [ length (filter (fun ad => (since <=? ad_analysis_timestamp ad)%Z)
                (rows_of_project project_id)) ].

Definition query_count_between (project_id since before : Z) : list nat :=
  execute_query
    [ length (filter (fun ad => (since <=? ad_analysis_timestamp ad)%Z
                                && (ad_analysis_timestamp ad <? before)%Z)
                (rows_of_project project_id)) ].

Definition calculate_activity_score_days (project_id days : Z) : R :=
  match query_count_since project_id (days_ago days) with
  | [] => 0.0
  | mention_count :: _ =>
      1.0 / (1.0 + exp (- 0.4 * (INR mention_count - 5)))
  end.

(** [days: int = 7] *)
Definition calculate_activity_score (project_id : Z) : R :=
  calculate_activity_score_days project_id 7.

Definition calculate_community_growth (project_id : Z) : R :=
  let recent_results := query_count_since project_id (days_ago 7) in
  let previous_results :=
    query_count_between project_id (days_ago 14) (days_ago 7) in
  match recent_results, previous_results with
  | recent_mentions :: _, previous_mentions :: _ =>
      let growth_rate :=
        if Nat.eqb previous_mentions 0 then INR recent_mentions
        else INR recent_mentions / INR previous_mentions in
      1.0 / (1.0 + exp (- 1.5 * (growth_rate - 1.0)))
  | _, _ => 0.0
  end.

(** [SELECT ad.context ... analysis_timestamp >= datetime('now','-14 days')] *)
Definition query_contexts (project_id : Z) : list json_column :=
  execute_query
    (map ad_context
       (filter (fun ad => (days_ago 14 <=? ad_analysis_timestamp ad)%Z)
          (rows_of_project project_id))).

Definition positive_contexts : list string := ["opportunity"; "alpha"]%string.
Definition negative_contexts : list string := ["risk"]%string.

(** [any(context in wanted for context in contexts)] *)
Definition any_in (wanted contexts : list string) : bool :=
  existsb (fun context => mem context wanted) contexts.

(** One turn of the counting loop of [calculate_sentiment_score]. *)
Definition sentiment_step (acc : nat * nat) (context_str : json_column) : nat * nat :=
  let '(positive_count, negative_count) := acc in
  match context_str with
  | JNull => acc
  | JMalformed => acc
  | JList contexts =>
      ((if any_in positive_contexts contexts then S positive_count else positive_count),
       (if any_in negative_contexts contexts then S negative_count else negative_count))
  end.

Definition calculate_sentiment_score (project_id : Z) : R :=
  match query_contexts project_id with
  | [] => 0.5
  | results =>
      let '(positive_count, negative_count) :=
        fold_left sentiment_step results (O, O) in
      let total_count := length results in
      if Nat.eqb total_count 0 then 0.5
      else
        let positive_ratio := INR positive_count / INR total_count in
        let negative_ratio := INR negative_count / INR total_count in
        let sentiment_score :=
          0.5 + (positive_ratio * 0.5) - (negative_ratio * 0.5) in
        Rmax 0.0 (Rmin 1.0 sentiment_score)
  end.

(** [ORDER BY ad.priority_score DESC]: a stable insertion sort, rows of
    equal priority staying in table order. *)
Fixpoint insert_desc (ad : analyzed_row) (sorted : list analyzed_row) :
    list analyzed_row :=
  match sorted with
  | [] => [ad]
  | h :: t =>
      if Rleb (ad_priority_score h) (ad_priority_score ad)
      then ad :: h :: t
      else h :: insert_desc ad t
  end.

Definition order_by_priority_desc (rows : list analyzed_row) : list analyzed_row :=
  fold_right insert_desc [] rows.

(** The [WHERE] clause of the urgency query. *)
Definition recent_high_priority (project_id : Z) (ad : analyzed_row) : bool :=
  (ad_project_id ad =? project_id)%Z
  && (days_ago 7 <=? ad_analysis_timestamp ad)%Z
  && Rleb 1.3 (ad_priority_score ad).

(** [SELECT ad.context, ad.categories, ad.priority_score ...
     ORDER BY ad.priority_score DESC LIMIT 10] *)
Definition query_urgent (project_id : Z) : list analyzed_row :=
  execute_query
    (firstn 10
       (order_by_priority_desc
          (filter (recent_high_priority project_id) (db_analyzed_data db)))).

(** The test inside the [try] of the urgency loop; [None] when
    [json.loads] raises. *)
Definition parse_or_empty (col : json_column) : option (list string) :=
  match col with
  | JNull => Some []
  | JMalformed => None
  | JList l => Some l
  end.

Definition is_time_sensitive (ad : analyzed_row) : bool :=
  match parse_or_empty (ad_context ad), parse_or_empty (ad_categories ad) with
  | Some contexts, Some categories =>
      mem "time_sensitive" contexts
      || mem "urgent_action" categories
      || mem "upcoming_opportunity" categories
  | _, _ => false
  end.

Definition urgency_step (acc : nat * R) (ad : analyzed_row) : nat * R :=
  let '(time_sensitive_count, max_priority_score) := acc in
  let max_priority_score :=
    if Rltb max_priority_score (ad_priority_score ad)
    then ad_priority_score ad else max_priority_score in
  ((if is_time_sensitive ad then S time_sensitive_count else time_sensitive_count),
   max_priority_score).

Definition urgency_of_rows (results : list analyzed_row) : R :=
  match results with
  | [] => 0.0
  | _ :: _ =>
      let '(time_sensitive_count, max_priority_score) :=
        fold_left urgency_step results (O, 0.0) in
      let total_count := length results in
      let time_sensitive_ratio :=
        if Nat.ltb 0 total_count
        then INR time_sensitive_count / INR total_count else 0.0 in
      let normalized_priority :=
        if Rltb 1.0 max_priority_score
        then (max_priority_score - 1.0) / 1.0 else 0.0 in
      let normalized_priority := Rmin 1.0 normalized_priority in
      (time_sensitive_ratio * 0.6) + (normalized_priority * 0.4)
  end.

Definition calculate_urgency_score (project_id : Z) : R :=
  urgency_of_rows (query_urgent project_id).

(** [SELECT rd.content, ad.categories FROM analyzed_data ad
     JOIN raw_data rd ON ad.raw_data_id = rd.id WHERE ...] *)
Definition query_messages (project_id : Z) : list (option text * json_column) :=
  execute_query
    (flat_map
       (fun ad =>
          map (fun rd => (rd_content rd, ad_categories ad))
            (filter (fun rd => (rd_id rd =? ad_raw_data_id ad)%Z) (db_raw_data db)))
       (filter (fun ad => (days_ago 7 <=? ad_analysis_timestamp ad)%Z)
          (rows_of_project project_id))).

(** [opportunity_counts[opp_type] += delta] *)
Fixpoint bump (opp_type : opportunity) (delta : R)
    (counts : list (opportunity * R)) : list (opportunity * R) :=
  match counts with
  | [] => []
  | (k, v) :: rest =>
      if opportunity_eqb opp_type k then (k, v + delta) :: rest
      else (k, v) :: bump opp_type delta rest
  end.

Definition category_to_opp : list (string * list opportunity) :=
  [ ("upcoming_opportunity"%string, [whitelist; airdrop; token_launch]);
    ("active_investment"%string, [staking; farming]);
    ("testnet_participation"%string, [testnet]);
    ("community"%string, [community_tasks]) ].

(** The body of the row loop of [detect_opportunity_type]. *)
Definition vote_row (counts : list (opportunity * R))
    (row : option text * json_column) : list (opportunity * R) :=
  let '(content, categories_str) := row in
  match content with
  | None => counts
  | Some [] => counts
  | Some content =>
      let content := lower content in
      let counts :=
        fold_left
          (fun counts (entry : opportunity * category_info) =>
             let '(opp_type, opp_data) := entry in
             if existsb (fun keyword => contains keyword content)
                  (cat_keywords opp_data)
             then bump opp_type 1 counts else counts)
          opportunity_categories counts in
      match parse_or_empty categories_str with
      | None => counts
      | Some categories =>
          fold_left
            (fun counts (entry : string * list opportunity) =>
               let '(category, opp_types) := entry in
               if mem category categories
               then fold_left (fun counts opp_type => bump opp_type 0.5 counts)
                      opp_types counts
               else counts)
            category_to_opp counts
      end
  end.

Definition most_frequent (counts : list (opportunity * R)) : R * opportunity :=
  fold_left
    (fun (best : R * opportunity) (entry : opportunity * R) =>
       let '(max_count, primary_opportunity) := best in
       let '(opp_type, count) := entry in
       if Rltb max_count count then (count, opp_type)
       else (max_count, primary_opportunity))
    counts (0, unknown).

Definition detect_opportunity_type (project_id : Z) : opportunity * R :=
  match query_messages project_id with
  | [] => (unknown, 0.0)
  | results =>
      let opportunity_counts :=
        map (fun entry : opportunity * category_info => (fst entry, 0))
          opportunity_categories in
      let total_items := length results in
      let opportunity_counts := fold_left vote_row results opportunity_counts in
      let '(max_count, primary_opportunity) := most_frequent opportunity_counts in
      let confidence :=
        if Nat.ltb 0 total_items then max_count / INR total_items else 0.0 in
      (primary_opportunity, Rmin 1.0 confidence)
  end.

(** [db_manager.select('projects', condition={'id': project_id})] *)
Definition select_project (project_id : Z) : list project_row :=
  if db_reachable db
  then filter (fun p => (pr_id p =? project_id)%Z) (db_projects db)
  else [].

Definition get_project (project_id : Z) : option project_row :=
  match select_project project_id with
  | [] => None
  | p :: _ => Some p
  end.

Definition calculate_roi_potential (project_id : Z)
    (opportunity_type : opportunity) : R :=
  match get_project project_id with
  | None => 0.0
  | Some _ =>
      let base_roi :=
        match category_lookup opportunity_type opportunity_categories with
        | Some info => roi_levels (cat_roi_potential info)
        | None => 1.0
        end in
      let activity_score := calculate_activity_score project_id in
      let sentiment_score := calculate_sentiment_score project_id in
      let adjusted_roi :=
        base_roi * (1.0 + ((activity_score - 0.5) * 0.5)
                        + ((sentiment_score - 0.5) * 0.5)) in
      let normalized_roi := adjusted_roi / 3.0 in
      Rmax 0.0 (Rmin 1.0 normalized_roi)
  end.

Record component_scores := {
  activity : R;
  community_growth : R;
  sentiment : R;
  urgency : R;
  roi_potential : R
}.

Record snapshot := {
  project_id : Z;
  project_name : string;
  opportunity_score : R;
  opportunity_type : opportunity;
  opportunity_confidence : R;
  components : component_scores;
  effort_level : level;
  time_sensitivity : level;
  worth_participating : bool
}.

(** The two dictionaries [calculate_opportunity_score] can return. *)
Inductive score_result :=
| ProjectNotFound (project_id : Z) (opportunity_score : R)
| Scored (result : snapshot).

Definition calculate_opportunity_score (project_id : Z) : score_result :=
  match get_project project_id with
  | None => ProjectNotFound project_id 0.0
  | Some project =>
      let activity_score := calculate_activity_score project_id in
      let community_growth := calculate_community_growth project_id in
      let sentiment_score := calculate_sentiment_score project_id in
      let urgency_score := calculate_urgency_score project_id in
      let '(opportunity_type, opportunity_confidence) :=
        detect_opportunity_type project_id in
      let roi_potential := calculate_roi_potential project_id opportunity_type in
      let weighted_score :=
        (activity_score * weight_activity_level) +
        (community_growth * weight_community_growth) +
        (sentiment_score * weight_sentiment) +
        (urgency_score * weight_urgency) +
        (roi_potential * weight_roi_potential) in
      let opportunity_score := weighted_score * 100 in
      let info := category_lookup opportunity_type opportunity_categories in
      let effort_level :=
        match info with Some i => cat_effort_level i | None => medium end in
      let time_sensitivity_level :=
        match info with Some i => cat_time_sensitivity i | None => medium end in
      Scored
        {| project_id := project_id;
           project_name := pr_name project;
           opportunity_score := opportunity_score;
           opportunity_type := opportunity_type;
           opportunity_confidence := opportunity_confidence;
           components :=
             {| activity := activity_score;
                community_growth := community_growth;
                sentiment := sentiment_score;
                urgency := urgency_score;
                roi_potential := roi_potential |};
           effort_level := effort_level;
           time_sensitivity := time_sensitivity_level;
           worth_participating := Rleb 70 opportunity_score |}
  end.

End Queries.

(** The store after [add_analyzed_data] has inserted the rows [extra]. *)
Definition store_records (db : database) (extra : list analyzed_row) : database :=
  {| db_reachable := db_reachable db;
     db_projects := db_projects db;
     db_analyzed_data := db_analyzed_data db ++ extra;
     db_raw_data := db_raw_data db |}.

(** The rows the urgency query keeps, before [execute_query] hands them over. *)
Definition top_urgent (now project_id : Z) (rows : list analyzed_row) :
    list analyzed_row :=
  firstn 10
    (order_by_priority_desc (filter (recent_high_priority now project_id) rows)).

(** The qualifying rows that [LIMIT 10] cuts off. *)
Definition beyond_limit (now project_id : Z) (rows : list analyzed_row) :
    list analyzed_row :=
  skipn 10
    (order_by_priority_desc (filter (recent_high_priority now project_id) rows)).

(** Vocabulary for the ordering of rows by priority. *)
Definition prio := ad_priority_score.

Definition below (e : analyzed_row) (l : list analyzed_row) : Prop :=
  Forall (fun b => prio b <= prio e) l.

Definition descending (l : list analyzed_row) : Prop :=
  StronglySorted (fun a b => prio b <= prio a) l.

End Analyzer.

(* ================================================================== *)
(** ** The fragment of Python's [re] the classifier uses *)
(* ================================================================== *)

Module Re.

(** A pattern is a sequence of items.  [Rep capture cls lo hi] is the
    greedy repetition [cls{lo,hi}] of a one-character class (a literal
    character is [cls{1,1}]), wrapped in a capturing group when
    [capture] holds; [WordBoundary] is [\b]. *)
Inductive item :=
| Rep (capture : bool) (cls : ascii -> bool) (lo : nat) (hi : option nat)
| WordBoundary.

Definition pattern := list item.

Definition chr (a : ascii) : item := Rep false (Ascii.eqb a) 1 (Some 1).

Definition lit (s : string) : pattern := map chr (txt s).

(** [re.IGNORECASE] on ASCII: a character matches when any of its case
    variants does. *)
Definition fold_case (cls : ascii -> bool) : ascii -> bool :=
  fun c => cls c || cls (to_lower c) || cls (to_upper c).

Definition ignorecase (p : pattern) : pattern :=
  map (fun i =>
         match i with
         | Rep capture cls lo hi => Rep capture (fold_case cls) lo hi
         | WordBoundary => WordBoundary
         end) p.

(** Number of leading characters of [s] in [cls]. *)
Fixpoint run (cls : ascii -> bool) (s : text) : nat :=
  match s with
  | c :: s' => if cls c then S (run cls s') else 0
  | [] => 0
  end.

Definition capped (hi : option nat) (n : nat) : nat :=
  match hi with
  | Some h => Nat.min h n
  | None => n
  end.

(** Greedy choice with backtracking: try [k], [k - 1], ..., [lo]. *)
Fixpoint backtrack (A : Type) (try : nat -> option A) (lo k : nat) : option A :=
  if k <? lo then None
  else
    match try k with
    | Some r => Some r
    | None =>
        match k with
        | O => None
        | S k' => backtrack try lo k'
        end
    end.

(** The character before the position reached after [k] more characters. *)
Definition prev_after (prev : option ascii) (s : text) (k : nat) : option ascii :=
  match k with
  | O => prev
  | S j => match nth_error s j with Some c => Some c | None => prev end
  end.

Definition word_before (prev : option ascii) : bool :=
  match prev with Some c => is_word c | None => false end.

Definition word_after (s : text) : bool :=
  match s with c :: _ => is_word c | [] => false end.

Definition at_boundary (prev : option ascii) (s : text) : bool :=
  xorb (word_before prev) (word_after s).

(** Match [p] at the start of [s]: the length of the match and the text
    of its group, if it has one. *)
Fixpoint match_here (p : pattern) (prev : option ascii) (s : text) :
    option (nat * option text) :=
  match p with
  | [] => Some (O, None)
  | WordBoundary :: p' =>
      if at_boundary prev s then match_here p' prev s else None
  | Rep capture cls lo hi :: p' =>
      backtrack
        (fun k =>
           match match_here p' (prev_after prev s k) (skipn k s) with
           | Some (n, group) =>
               Some (k + n, if capture then Some (firstn k s) else group)
           | None => None
           end)
        lo (capped hi (run cls s))
  end.

(** [re.findall(p, s)] for a pattern with at most one group and no empty
    match: the leftmost match, then on from its end. *)
Fixpoint findall_from (p : pattern) (skip : nat) (prev : option ascii)
    (s : text) : list text :=
  match s with
  | [] => []
  | c :: s' =>
      match skip with
      | S k => findall_from p k (Some c) s'
      | O =>
          match match_here p prev s with
          | Some (S n, group) =>
              match group with
              | Some g => g
              | None => firstn (S n) s
              end :: findall_from p n (Some c) s'
          | _ => findall_from p 0 (Some c) s'
          end
      end
  end.

Definition findall (p : pattern) (s : text) : list text :=
  findall_from p 0 None s.

(** [re.sub(p, repl, s)] under the same restriction. *)
Fixpoint sub_from (p : pattern) (repl : text) (skip : nat)
    (prev : option ascii) (s : text) : text :=
  match s with
  | [] => []
  | c :: s' =>
      match skip with
      | S k => sub_from p repl k (Some c) s'
      | O =>
          match match_here p prev s with
          | Some (S n, _) => repl ++ sub_from p repl n (Some c) s'
          | _ => c :: sub_from p repl 0 (Some c) s'
          end
      end
  end.

Definition sub (p : pattern) (repl : text) (s : text) : text :=
  sub_from p repl 0 None s.

Definition non_space (c : ascii) : bool := negb (is_space c).

(** [[A-Za-z0-9_]] *)
Definition name_char (c : ascii) : bool :=
  is_upper c || is_lower c || is_digit c || Ascii.eqb c "_".

(** [[:\s]] *)
Definition colon_or_space (c : ascii) : bool :=
  Ascii.eqb c ":" || is_space c.

(** [[a-fA-F0-9]] *)
Definition hex_char (c : ascii) : bool :=
  ((97 <=? code c) && (code c <=? 102))
  || ((65 <=? code c) && (code c <=? 70))
  || is_digit c.

(** [https?://\S+] *)
Definition url_pattern : pattern :=
  lit "http" ++ [Rep false (Ascii.eqb "s") 0 (Some 1)] ++ lit "://"
  ++ [Rep false non_space 1 None].

(** [\s+] *)
Definition spaces_pattern : pattern := [Rep false is_space 1 None].

(** [\$([A-Z]{2,10})\b] *)
Definition symbol_pattern : pattern :=
  lit "$" ++ [Rep true is_upper 2 (Some 10); WordBoundary].

(** [0x[a-fA-F0-9]{40}] *)
Definition contract_pattern : pattern :=
  lit "0x" ++ [Rep false hex_char 40 (Some 40)].

End Re.

(* ================================================================== *)
(** ** Project configuration ([config.py], class [ProjectConfig]) *)
(* ================================================================== *)

Module Config.

Local Open Scope Q_scope.

Inductive priority := high_priority | medium_priority.

Definition priority_eqb (a b : priority) : bool :=
  match a, b with
  | high_priority, high_priority | medium_priority, medium_priority => true
  | _, _ => false
  end.

(** An entry of [self.projects[priority]] (the fields the classifier reads). *)
Record project := {
  name : text;
  symbol : text;
  official_channels : list text;
  partner_channels : list text;
  keywords : list text;
  contracts : list text
}.

(** [self.projects], a dictionary with exactly the keys ['high_priority']
    and ['medium_priority'], in that order. *)
Record ProjectConfig := {
  high_priority_projects : list project;
  medium_priority_projects : list project
}.

(** [self.source_weights] *)
Definition source_weights : list (string * Q) :=
  [ ("official"%string, 1.0); ("partner"%string, 0.8);
    ("community"%string, 0.6); ("general"%string, 0.4) ].

(** [self.source_weights.get(source_type, default)] *)
Fixpoint weights_get (source_type : string) (default : Q)
    (d : list (string * Q)) : Q :=
  match d with
  | [] => default
  | (k, v) :: d' =>
      if String.eqb source_type k then v else weights_get source_type default d'
  end.

(** A Python [dict] keyed by strings: insertion order, one entry per key. *)
Definition dict (V : Type) := list (text * V).

Fixpoint dict_get (V : Type) (k : text) (d : dict V) : option V :=
  match d with
  | [] => None
  | (k', v) :: d' => if text_eqb k k' then Some v else dict_get k d'
  end.

(** [d[k] = v] *)
Fixpoint dict_set (V : Type) (k : text) (v : V) (d : dict V) : dict V :=
  match d with
  | [] => [(k, v)]
  | (k', v') :: d' =>
      if text_eqb k k' then (k', v) :: d' else (k', v') :: dict_set k v d'
  end.

(** [for priority in self.projects: for project in self.projects[priority]] *)
Definition by_priority (cfg : ProjectConfig) : list (priority * project) :=
  map (pair high_priority) (high_priority_projects cfg)
  ++ map (pair medium_priority) (medium_priority_projects cfg).

(** [get_all_projects]: each project with its ['priority'] field added. *)
Definition get_all_projects (cfg : ProjectConfig) : list (priority * project) :=
  by_priority cfg.

Record channel_info := {
  weight : Q;
  channel_project : text;
  channel_type : string
}.

Definition get_all_channels (cfg : ProjectConfig) : dict channel_info :=
  fold_left
    (fun channels (entry : priority * project) =>
       let project := snd entry in
       let channels :=
         fold_left
           (fun channels channel =>
              dict_set channel
                {| weight := weights_get "official" 0 source_weights;
                   channel_project := name project;
                   channel_type := "official" |} channels)
           (official_channels project) channels in
       fold_left
         (fun channels channel =>
            dict_set channel
              {| weight := weights_get "partner" 0 source_weights;
                 channel_project := name project;
                 channel_type := "partner" |} channels)
         (partner_channels project) channels)
    (by_priority cfg) [].

Record keyword_owner := {
  owner_project : text;
  owner_priority : priority
}.

Definition get_all_keywords (cfg : ProjectConfig) : dict (list keyword_owner) :=
  fold_left
    (fun keywords (entry : priority * project) =>
       let '(priority, project) := entry in
       fold_left
         (fun keywords keyword =>
            let keyword := lower keyword in
            let owners :=
              match dict_get keyword keywords with
              | Some l => l
              | None => []
              end in
            dict_set keyword
              (owners ++ [{| owner_project := name project;
                             owner_priority := priority |}])
              keywords)
         (Config.keywords project) keywords)
    (by_priority cfg) [].

End Config.

(* ================================================================== *)
(** ** The classifier ([data_classifier.py], class [DataClassifier]) *)
(* ================================================================== *)

Module Classifier.

Import Config Re.
Local Open Scope Q_scope.

(** [self.discovery_patterns], compiled with [re.IGNORECASE] as
    [detect_new_projects] does. *)
Definition discovery_patterns : list pattern :=
  map ignorecase
    ([ lit "new project" ++ [Rep false colon_or_space 1 None; Rep true name_char 1 None];
      lit "upcoming project" ++ [Rep false colon_or_space 1 None; Rep true name_char 1 None];
      [Rep true name_char 1 None] ++ lit " is launching";
      [Rep true name_char 1 None] ++ lit " token launch";
      [Rep true name_char 1 None] ++ lit " airdrop";
      lit "$" ++ [Rep true is_upper 2 (Some 10)] ++ lit " launch" ])%nat.

Definition preprocess_text (text : Text.text) : Text.text :=
  let text := lower text in
  let text := replace_char "$" " " text in
  let text := replace_char "#" " " text in
  let text := replace_char "@" " " text in
  let text := sub url_pattern [] text in
  let text := strip (sub spaces_pattern (txt " ") text) in
  text.

Section WithConfig.

Variable config : ProjectConfig.

(** Computed once in [__init__]. *)
Definition tracked_channels : dict channel_info := get_all_channels config.
Definition tracked_keywords : dict (list keyword_owner) := get_all_keywords config.

(** [channel and channel in self.tracked_channels] *)
Definition tracked_channel (channel : option text) : option channel_info :=
  match channel with
  | None => None
  | Some [] => None
  | Some ch => dict_get ch tracked_channels
  end.

(** [source_type: str = 'general'] is an explicit argument here. *)
Definition get_source_weight (source_type : string) (channel : option text) : Q :=
  match tracked_channel channel with
  | Some info => weight info
  | None => weights_get source_type 0.4 source_weights
  end.

Inductive origin := from_channel | from_keyword | from_symbol | from_contract
                  | from_discovery.

(** The dictionaries appended to [projects]; the channel rule writes no
    ['priority'] key. *)
Record candidate := {
  cand_name : text;
  cand_priority : option priority;
  cand_confidence : Q;
  cand_source : origin
}.

(** First occurrence of each name wins; [same] is the comparison of two
    names. *)
Fixpoint unique_by (same : text -> text -> bool) (seen todo : list candidate) :
    list candidate :=
  match todo with
  | [] => seen
  | project :: todo' =>
      if existsb (fun p => same (cand_name p) (cand_name project)) seen
      then unique_by same seen todo'
      else unique_by same (seen ++ [project]) todo'
  end.

Definition identify_projects (text : Text.text) (channel : option Text.text) :
    list candidate :=
  let text := preprocess_text text in
  let by_channel :=
    match tracked_channel channel with
    | Some channel_info =>
        [ {| cand_name := channel_project channel_info;
             cand_priority := None;
             cand_confidence := weight channel_info;
             cand_source := from_channel |} ]
    | None => []
    end in
  let by_keyword :=
    flat_map
      (fun entry : Text.text * list keyword_owner =>
         let '(keyword, project_list) := entry in
         if contains keyword text
         then map (fun project =>
                     {| cand_name := owner_project project;
                        cand_priority := Some (owner_priority project);
                        cand_confidence :=
                          if priority_eqb (owner_priority project) high_priority
                          then 0.8 else 0.6;
                        cand_source := from_keyword |})
                project_list
         else [])
      tracked_keywords in
  let symbols := findall symbol_pattern text in
  let by_symbol :=
    flat_map
      (fun symbol =>
         flat_map
           (fun entry : priority * project =>
              let '(priority, project) := entry in
              if text_eqb (lower symbol) (lower (Config.symbol project))
              then [ {| cand_name := name project;
                        cand_priority := Some priority;
                        cand_confidence := 0.7;
                        cand_source := from_symbol |} ]
              else [])
           (get_all_projects config))
      symbols in
  let found_contracts := findall contract_pattern text in
  let by_contract :=
    flat_map
      (fun contract =>
         flat_map
           (fun entry : priority * project =>
              let '(priority, project) := entry in
              if existsb (text_eqb (lower contract))
                   (map lower (Config.contracts project))
              then [ {| cand_name := name project;
                        cand_priority := Some priority;
                        cand_confidence := 0.9;
                        cand_source := from_contract |} ]
              else [])
           (get_all_projects config))
      found_contracts in
  unique_by text_eqb [] (by_channel ++ by_keyword ++ by_symbol ++ by_contract).

Definition nearby_keywords : list text :=
  map txt ["launch"; "token"; "project"; "airdrop"; "whitelist"]%string.

(** [sum(1 for keyword in nearby_keywords if keyword in text.lower())] *)
Definition nearby_count (text : Text.text) : nat :=
  length (filter (fun keyword => contains keyword (lower text)) nearby_keywords).

(** The confidence assigned to one match of a discovery pattern. *)
Definition discovery_confidence (text match_ : Text.text) : Q :=
  let confidence := 0.6 in
  let mention_count := count (lower match_) (lower text) in
  let confidence :=
    if (1 <? mention_count)%nat
    then confidence + Qmin 0.2 (inject_Z (Z.of_nat mention_count) * 0.05)
    else confidence in
  confidence + Qmin 0.2 (inject_Z (Z.of_nat (nearby_count text)) * 0.04).

Definition is_known_project (match_ : text) : bool :=
  existsb (fun entry : priority * project =>
             text_eqb (lower (name (snd entry))) (lower match_))
    (get_all_projects config).

Definition detect_new_projects (text : Text.text) : list candidate :=
  let new_projects :=
    flat_map
      (fun pattern =>
         flat_map
           (fun match_ =>
              if negb (is_known_project match_)
              then [ {| cand_name := match_;
                        cand_priority := None;
                        cand_confidence := discovery_confidence text match_;
                        cand_source := from_discovery |} ]
              else [])
           (findall pattern text))
      discovery_patterns in
  unique_by (fun a b => text_eqb (lower a) (lower b)) [] new_projects.

End WithConfig.

(** The confidence as the specification words it, to be compared with
    [discovery_confidence]: 0.05 for each mention beyond the first. *)
Definition stated_discovery_confidence (text match_ : Text.text) : Q :=
  let extra_mentions := (count (lower match_) (lower text) - 1)%nat in
  0.6 + Qmin 0.2 (0.05 * inject_Z (Z.of_nat extra_mentions))
      + Qmin 0.2 (0.04 * inject_Z (Z.of_nat (nearby_count text))).

(** The dictionary [categorize_text] builds, as [calculate_priority_score]
    reads it. *)
Record analysis := {
  categories : list string;
  context : list string;
  projects : list candidate;
  source_weight : Q
}.

(** [max(...)] over a non-empty sequence. *)
Definition max_of (first : Q) (others : list Q) : Q :=
  fold_left Qmax others first.

Definition project_score (p : candidate) : Q :=
  match cand_priority p with
  | Some high_priority => 1.5
  | _ => 1.2
  end.

Definition has_priority (p : candidate) : bool :=
  match cand_priority p with Some _ => true | None => false end.

(** [max(1.5 if ... else 1.2 for p in projects) if any('priority' in p
    for p in projects) else 1.0], for the non-empty list [p :: ps]. *)
Definition max_project_score (p : candidate) (ps : list candidate) : Q :=
  if existsb has_priority (p :: ps)
  then max_of (project_score p) (map project_score ps)
  else 1.0.

Definition when (label : string) (labels : list string) (factor : Q) (score : Q) : Q :=
  if mem label labels then score * factor else score.

Definition calculate_priority_score (a : analysis) : Q :=
  let score := 1.0 in
  let score :=
    match projects a with
    | [] => score
    | p :: ps => score * max_project_score p ps
    end in
  let score := when "high_impact" (context a) 1.3 score in
  let score := when "time_sensitive" (context a) 1.4 score in
  let score := when "alpha" (context a) 1.2 score in
  let score := when "risk" (context a) 1.5 score in
  let score := when "opportunity" (context a) 1.25 score in
  let score := when "urgent_action" (categories a) 1.5 score in
  let score := when "active_investment" (categories a) 1.3 score in
  let score := when "project_launch" (categories a) 1.25 score in
  let score := when "upcoming_opportunity" (categories a) 1.35 score in
  score * source_weight a.

(** A candidate whose ['priority'] key is ['high_priority']. *)
Definition is_high (p : candidate) : bool :=
  match cand_priority p with
  | Some high_priority => true
  | _ => false
  end.

(** The same analysis with no matched project. *)
Definition without_projects (a : analysis) : analysis :=
  {| categories := categories a;
     context := context a;
     projects := [];
     source_weight := source_weight a |}.

End Classifier.

(* ================================================================== *)
(** ** Scanners and normal forms used to reason about [preprocess_text] *)
(* ================================================================== *)

Module Scan.
Import Re.

(** The maximal space-free prefix. *)
Fixpoint token (s : text) : text :=
  match s with
  | c :: s' => if is_space c then [] else c :: token s'
  | [] => []
  end.

Definition nonspace_head (s : text) : bool :=
  match s with c :: _ => non_space c | [] => false end.

(** [s] starts with a match of [https?://\S+]. *)
Definition url_shape (s : text) : bool :=
  (starts_with (txt "http://") s && nonspace_head (skipn 7 s))
  || (starts_with (txt "https://") s && nonspace_head (skipn 8 s)).

(** [re.sub(r'https?://\S+', '', s)] as a scanner with two modes: inside a
    match ([skipping]) or not. *)
Fixpoint drop_urls (skipping : bool) (s : text) : text :=
  match s with
  | [] => []
  | c :: s' =>
      if skipping
      then if is_space c then c :: drop_urls false s' else drop_urls true s'
      else if url_shape s then drop_urls true s' else c :: drop_urls false s'
  end.

(** [re.sub(r'\s+', ' ', s)] as a scanner: [in_run] tells that the run of
    spaces being read has been replaced already. *)
Fixpoint squeeze (in_run : bool) (s : text) : text :=
  match s with
  | [] => []
  | c :: s' =>
      if is_space c
      then if in_run then squeeze true s' else " "%char :: squeeze true s'
      else c :: squeeze false s'
  end.

Fixpoint no_url (s : text) : Prop :=
  match s with
  | [] => True
  | _ :: s' => url_shape s = false /\ no_url s'
  end.

Definition spacefree_head (s : text) : bool :=
  match s with c :: _ => non_space c | [] => true end.

Fixpoint squeezed (s : text) : Prop :=
  match s with
  | [] => True
  | c :: s' =>
      (is_space c = true -> c = " "%char /\ spacefree_head s' = true)
      /\ squeezed s'
  end.

(** A character normalisation leaves alone. *)
Definition settled (c : ascii) : Prop :=
  to_lower c = c /\ c <> "$"%char /\ c <> "#"%char /\ c <> "@"%char.
End Scan.

(* ================================================================== *)
(** ** Concrete inputs used by the closed lemmas below *)
(* ================================================================== *)

Module Examples.

Import Analyzer.
Local Open Scope R_scope.

(** A reachable store that tracks project 1 and holds no analysed record. *)
Definition fresh_store : database :=
  {| db_reachable := true;
     db_projects := [ {| pr_id := 1; pr_name := "Alpha" |} ];
     db_analyzed_data := [];
     db_raw_data := [] |}.

(** A record of project 1 analysed at time 0. *)
Definition record (priority_score : R) (context : list string) : analyzed_row :=
  {| ad_raw_data_id := 0;
     ad_project_id := 1;
     ad_categories := JList [];
     ad_priority_score := priority_score;
     ad_context := JList context;
     ad_analysis_timestamp := 0 |}.

(** Ten urgent records of priority 2. *)
Definition busy_store : database :=
  {| db_reachable := true;
     db_projects := [ {| pr_id := 1; pr_name := "Alpha" |} ];
     db_analyzed_data :=
       [ record 2 ["time_sensitive"%string]; record 2 []; record 2 [];
         record 2 []; record 2 []; record 2 []; record 2 []; record 2 [];
         record 2 []; record 2 [] ];
     db_raw_data := [] |}.

(** One urgent record of priority 2. *)
Definition lone_store : database :=
  {| db_reachable := true;
     db_projects := [ {| pr_id := 1; pr_name := "Alpha" |} ];
     db_analyzed_data := [ record 2 ["time_sensitive"%string] ];
     db_raw_data := [] |}.

(** One high-priority project, known by its official channel and by its
    symbol only. *)
Definition alpha : Config.project :=
  {| Config.name := txt "Alpha";
     Config.symbol := txt "ABC";
     Config.official_channels := [txt "alpha_official"];
     Config.partner_channels := [];
     Config.keywords := [];
     Config.contracts := [] |}.

Definition tracked : Config.ProjectConfig :=
  {| Config.high_priority_projects := [alpha];
     Config.medium_priority_projects := [] |}.

(** The analysis of the message "gm" posted on Alpha's official channel;
    the text holds no category or context keyword. *)
Definition channel_only : Classifier.analysis :=
  {| Classifier.categories := [];
     Classifier.context := [];
     Classifier.projects :=
       Classifier.identify_projects tracked (txt "gm") (Some (txt "alpha_official"));
     Classifier.source_weight :=
       Classifier.get_source_weight tracked "general" (Some (txt "alpha_official")) |}.

(** A message from a general source, before and after it is found to be
    time-sensitive and to call for urgent action. *)
Definition quiet : Classifier.analysis :=
  {| Classifier.categories := [];
     Classifier.context := [];
     Classifier.projects := [];
     Classifier.source_weight := 0.4%Q |}.

Definition urgent : Classifier.analysis :=
  {| Classifier.categories := ["urgent_action"%string];
     Classifier.context := ["time_sensitive"%string];
     Classifier.projects := [];
     Classifier.source_weight := 0.4%Q |}.

End Examples.

(* ================================================================== *)
(** ** Batch analysis ([opportunity_analyzer.py], the updating methods) *)
(* ================================================================== *)

Module Batch.

Import Analyzer.
Local Open Scope string_scope.
Local Open Scope R_scope.

(** The dictionary handed to [update_project]. *)
Record update_data := {
  score : R;
  upd_roi_potential : opportunity;   (* the key ['roi_potential'] receives the type *)
  roi_score : R;
  upd_worth_participating : Z
}.

(** The f-string of an alert: its opening word and the interpolated
    values (the [:.1f] rendering of the score is not modelled). *)
Record alert_message := {
  wording : string;
  about_type : opportunity;
  about_project : string;
  about_score : R
}.

(** The writes [update_project_opportunity] issues, in order.  Neither
    changes a column the analyzer reads. *)
Inductive action :=
| update_project (project_id : Z) (data : update_data)
| add_alert (project_id : Z) (alert_type : string) (message : alert_message)
    (priority : string).

Definition is_alert (a : action) : bool :=
  match a with add_alert _ _ _ _ => true | update_project _ _ => false end.

Section Updating.

Variable now : Z.
Variable db : database.

Definition update_project_opportunity (project_id : Z) :
    score_result * list action :=
  match calculate_opportunity_score now db project_id with
  | ProjectNotFound _ _ as opportunity => (opportunity, [])
  | Scored opportunity =>
      let data :=
        {| score := opportunity_score opportunity;
           upd_roi_potential := opportunity_type opportunity;
           roi_score := roi_potential (components opportunity) * 100;
           upd_worth_participating :=
             if worth_participating opportunity then 1%Z else 0%Z |} in
      let message (wording : string) :=
        {| wording := wording;
           about_type := opportunity_type opportunity;
           about_project := project_name opportunity;
           about_score := opportunity_score opportunity |} in
      let alerts :=
        if Rleb 80 (opportunity_score opportunity)
        then [add_alert project_id "opportunity" (message "High-value") "high"]
        else if Rleb 70 (opportunity_score opportunity)
        then [add_alert project_id "opportunity" (message "Good") "medium"]
        else [] in
      (Scored opportunity, update_project project_id data :: alerts)
  end.

(** An element of the list [analyze_all_projects] returns. *)
Inductive report :=
| skipped (project_id : Z) (project_name : string)
    (activity_score min_activity_threshold : R)
| analysed (opportunity : score_result).

(** [x.get('opportunity_score', 0)] *)
Definition report_score (x : report) : R :=
  match x with
  | skipped _ _ _ _ => 0
  | analysed (ProjectNotFound _ s) => s
  | analysed (Scored r) => opportunity_score r
  end.

(** The body of the loop over the projects. *)
Definition analyze_project (min_activity : R) (project : project_row) :
    report * list action :=
  let project_id := pr_id project in
  let activity_score := calculate_activity_score now db project_id in
  if Rltb activity_score min_activity
  then (skipped project_id (pr_name project) activity_score min_activity, [])
  else let '(opportunity, actions) := update_project_opportunity project_id in
       (analysed opportunity, actions).

(** [results.sort(key=..., reverse=True)]: stable, equal scores keep
    their order. *)
Fixpoint insert_report (x : report) (sorted : list report) : list report :=
  match sorted with
  | [] => [x]
  | h :: t =>
      if Rleb (report_score h) (report_score x)
      then x :: h :: t
      else h :: insert_report x t
  end.

Definition sort_reports (l : list report) : list report :=
  fold_right insert_report [] l.

(** [analyze_all_projects]; [projects] is what
    [get_all_projects(active_only=True)] answered. *)
Definition analyze_all_projects (min_activity : R) (projects : list project_row) :
    list report * list action :=
  let outcomes := map (analyze_project min_activity) projects in
  (sort_reports (map fst outcomes), flat_map snd outcomes).

End Updating.

Definition reports_descending (l : list report) : Prop :=
  StronglySorted (fun a b => report_score b <= report_score a) l.

(** The vote table of [detect_opportunity_type] is well formed: every key
    is a real opportunity type and no count is negative. *)
Definition tally_ok (counts : list (opportunity * R)) : Prop :=
  Forall (fun entry => fst entry <> unknown /\ 0 <= snd entry) counts.

End Batch.

(* ================================================================== *)
(** ** Maintaining the project registry ([config.py], [ProjectConfig]) *)
(* ================================================================== *)

Module Registry.

Import Config.
Local Open Scope string_scope.

(** The keys of [self.projects]. *)
Definition priority_of_key (key : string) : option priority :=
  if String.eqb key "high_priority" then Some high_priority
  else if String.eqb key "medium_priority" then Some medium_priority
  else None.

(** [self.projects[priority]] and its assignment. *)
Definition tier (priority : priority) (cfg : ProjectConfig) : list project :=
  match priority with
  | high_priority => high_priority_projects cfg
  | medium_priority => medium_priority_projects cfg
  end.

Definition set_tier (priority : priority) (l : list project)
    (cfg : ProjectConfig) : ProjectConfig :=
  match priority with
  | high_priority =>
      {| high_priority_projects := l;
         medium_priority_projects := medium_priority_projects cfg |}
  | medium_priority =>
      {| high_priority_projects := high_priority_projects cfg;
         medium_priority_projects := l |}
  end.

(** The dictionary passed to [add_project]: any key may be absent. *)
Record project_data := {
  pd_name : option text;
  pd_symbol : option text;
  pd_official_channels : option (list text);
  pd_partner_channels : option (list text);
  pd_keywords : option (list text);
  pd_contracts : option (list text)
}.

(** [d.get(key, default)] *)
Definition get_or (A : Type) (v : option A) (default : A) : A :=
  match v with Some x => x | None => default end.

(** [remove_project]; [None] stands for the [ValueError]. *)
Definition remove_project (priority : string) (project_name : text)
    (cfg : ProjectConfig) : option ProjectConfig :=
  match priority_of_key priority with
  | None => None
  | Some p =>
      Some (set_tier p
              (filter (fun q => negb (text_eqb (lower (name q)) (lower project_name)))
                 (tier p cfg))
              cfg)
  end.

(** The entry [add_project] appends (the fields the classifier reads). *)
Definition entry_of (d : project_data) : project :=
  {| name := get_or (pd_name d) [];
     symbol := get_or (pd_symbol d) [];
     official_channels := get_or (pd_official_channels d) [];
     partner_channels := get_or (pd_partner_channels d) [];
     keywords := get_or (pd_keywords d) [];
     contracts := get_or (pd_contracts d) [] |}.

Definition add_project (priority : string) (d : project_data)
    (cfg : ProjectConfig) : option ProjectConfig :=
  match priority_of_key priority with
  | None => None
  | Some p =>
      match remove_project priority (get_or (pd_name d) []) cfg with
      | None => None
      | Some cfg' => Some (set_tier p (tier p cfg' ++ [entry_of d]) cfg')
      end
  end.

(** [get_project]: the first project of that name, high priority first;
    [None] stands for the pair [(None, None)]. *)
Definition get_project (project_name : text) (cfg : ProjectConfig) :
    option (priority * project) :=
  find (fun entry : priority * project =>
          text_eqb (lower (name (snd entry))) (lower project_name))
    (by_priority cfg).

(** No two projects of one priority share a name, letter case aside. *)
Definition names_unique (cfg : ProjectConfig) : Prop :=
  NoDup (map (fun q => lower (name q)) (high_priority_projects cfg)) /\
  NoDup (map (fun q => lower (name q)) (medium_priority_projects cfg)).

(** The owners [get_all_keywords] should list under the key [k]. *)
Definition owners_of (k : text) (cfg : ProjectConfig) : list keyword_owner :=
  flat_map
    (fun entry : priority * project =>
       map (fun _ => {| owner_project := name (snd entry);
                        owner_priority := fst entry |})
         (filter (fun kw => text_eqb (lower kw) k) (keywords (snd entry))))
    (by_priority cfg).

(** Appending further owners to what a key holds, if there are any. *)
Definition extend (A : Type) (current : option (list A)) (extra : list A)
    : option (list A) :=
  match extra with
  | [] => current
  | _ => Some (match current with Some l => l | None => [] end ++ extra)%list
  end.

(** The assignments [channels[channel] = ...] of [get_all_channels], in
    the order the loops make them. *)
Definition channel_assignments (cfg : ProjectConfig) : list (text * channel_info) :=
  flat_map
    (fun entry : priority * project =>
       (map (fun channel =>
               (channel, {| weight := weights_get "official" 0 source_weights;
                            channel_project := name (snd entry);
                            channel_type := "official" |}))
          (official_channels (snd entry))
        ++ map (fun channel =>
                  (channel, {| weight := weights_get "partner" 0 source_weights;
                               channel_project := name (snd entry);
                               channel_type := "partner" |}))
             (partner_channels (snd entry)))%list)
    (by_priority cfg).

End Registry.

(* ================================================================== *)
(** ** Categorising a message ([data_classifier.py], [categorize_text]) *)
(* ================================================================== *)

Module Categorizer.

Import Config Classifier Re Scan.
Local Open Scope string_scope.

(** What [preprocess_text] returns: lower-case characters other than
    [$], [#] and [@], no URL, every run of white space a single blank, and
    no blank at either end. *)
Definition normal (t : text) : Prop :=
  Forall settled t /\ no_url t /\ squeezed t
  /\ spacefree_head t = true /\ spacefree_head (rev t) = true.

(** [self.categories]; the Cyrillic keywords are their UTF-8 bytes. *)
Definition categories_table : list (string * list text) :=
  [ ("active_investment",
     map txt ["staked"; "locked"; "holding"; "position"; "invested"; "farming"]);
    ("testnet_participation",
     map txt ["validator"; "node"; "testnet"; "валидатор"; "нода"; "тестнет"]);
    ("project_launch",
     map txt ["launch"; "mainnet"; "going live"; "запуск"; "мейннет"]);
    ("research_phase",
     map txt ["research"; "analysis"; "potential"; "исследование"; "анализ"]);
    ("urgent_action",
     map txt ["claim"; "mint"; "stake"; "deadline"; "срочно"; "клейм"; "минт";
              "last chance"]);
    ("upcoming_opportunity",
     map txt ["whitelist"; "presale"; "airdrop"; "вайтлист"; "пресейл"; "раздача"]);
    ("monitoring_needed",
     map txt ["proposal"; "update"; "change"; "обновление"; "announcement"]);
    ("tokenomics",
     map txt ["token"; "supply"; "allocation"; "vesting"; "токен"; "эмиссия"]);
    ("fundraising",
     map txt ["funding"; "investment"; "seed"; "raise"; "инвестиции"; "раунд"]);
    ("trading",
     map txt ["exchange"; "listing"; "market"; "биржа"; "листинг"; "market cap";
              "price"; "up"; "down"]);
    ("defi",
     map txt ["yield"; "liquidity"; "pool"; "farm"; "lp"; "стейкинг"; "пул";
              "фарм"; "yield"]);
    ("nft", map txt ["nft"; "collection"; "нфт"; "коллекция"; "mint"]);
    ("tech",
     map txt ["protocol"; "chain"; "layer"; "протокол"; "чейн"; "layer"; "zk";
              "rollup"; "consensus"]);
    ("community",
     map txt ["community"; "holder"; "ambassador"; "сообщество"; "амбассадор"]);
    ("gaming", map txt ["game"; "play"; "quest"; "игр"; "quest"]);
    ("social", map txt ["social"; "profile"; "account"; "социальн"; "профиль"]) ].

(** [self.priority_indicators] *)
Definition priority_indicators : list (string * list text) :=
  [ ("high_impact",
     map txt ["important"; "critical"; "major"; "significant"; "важно"; "критично"]);
    ("time_sensitive",
     map txt ["today"; "tomorrow"; "hours"; "deadline"; "сегодня"; "завтра"; "часов"]);
    ("alpha", map txt ["alpha"; "insider"; "exclusive"; "альфа"; "инсайд"; "early"]);
    ("risk", map txt ["warning"; "alert"; "scam"; "fake"; "предупреждение"; "скам"]);
    ("opportunity",
     map txt ["profit"; "gain"; "earn"; "rewards"; "прибыль"; "заработок"; "free"]) ].

(** [for label, keywords in table.items(): for keyword in keywords:
    if keyword in text: labels.append(label); break] *)
Definition labels_found (table : list (string * list text)) (text : Text.text)
    : list string :=
  map fst
    (filter (fun entry : string * list Text.text =>
               existsb (fun keyword => contains keyword text) (snd entry))
       table).

(** The categories inferred when no keyword of [self.categories] occurs. *)
Definition inferred_categories (text : Text.text) : list string :=
  let monitoring :=
    if existsb (fun word => contains word text)
         (map txt ["update"; "new"; "release"; "version"])
    then ["monitoring_needed"] else [] in
  let figures :=
    if existsb is_digit text
    then if contains (txt "x") text || contains (txt "%") text
            || contains (txt "apy") text
         then ["defi"]
         else if contains (txt "holder") text || contains (txt "supply") text
              then ["tokenomics"]
              else []
    else [] in
  (monitoring ++ figures)%list.

(** The dictionary [categorize_text] returns: the four keys
    [calculate_priority_score] reads, and ['new_projects']. *)
Record categorized := {
  result : analysis;
  new_projects : list candidate
}.

Section WithConfig.

Variable config : ProjectConfig.

Definition categorize_text (text : Text.text) (channel : option Text.text)
    : categorized :=
  let text := preprocess_text text in
  let found := labels_found categories_table text in
  let context := labels_found priority_indicators text in
  let categories :=
    match found with
    | [] => inferred_categories text
    | _ => found
    end in
  {| result :=
       {| categories := categories;
          context := context;
          projects := identify_projects config text channel;
          source_weight := get_source_weight config "general" channel |};
     new_projects := detect_new_projects config text |}.

(** The score [process_raw_data] stores under ['priority_score']. *)
Definition message_priority (text : Text.text) (channel : option Text.text) : Q :=
  calculate_priority_score (result (categorize_text text channel)).

End WithConfig.

(** The last discovery pattern, [\$([A-Z]{2,10}) launch]. *)
Definition dollar_launch_pattern : pattern :=
  (lit "$" ++ [Rep true is_upper 2 (Some 10)] ++ lit " launch")%list.

(** The largest product of multipliers [calculate_priority_score] can
    apply. *)
Definition highest_multiplier : Q :=
  (1.5 * 1.3 * 1.4 * 1.2 * 1.5 * 1.25 * 1.5 * 1.3 * 1.25 * 1.35)%Q.

End Categorizer.

(* ================================================================== *)
(** ** Further concrete inputs *)
(* ================================================================== *)

Module Samples.

Import Registry.

(** The row of project 1 in the [projects] table. *)
Definition alpha_row : Analyzer.project_row :=
  {| Analyzer.pr_id := 1; Analyzer.pr_name := "Alpha" |}.

(** A project dictionary that names only the project and one keyword. *)
Definition beta_data : project_data :=
  {| pd_name := Some (txt "Beta");
     pd_symbol := None;
     pd_official_channels := None;
     pd_partner_channels := None;
     pd_keywords := Some [txt "BetaNet"];
     pd_contracts := None |}.

End Samples.

(* ================================================================== *)
(** ** The settings store ([config.py], class [Config]) *)
(* ================================================================== *)

Module Settings.

Import Config.

(** What a call does besides changing the store: it returns or raises. *)
Inductive outcome (A : Type) :=
| Returned (a : A)
| Raised.

Arguments Raised {A}.

Section Store.

(** Any Python value that is not a [dict]: the code never looks inside. *)
Variable atom : Type.

(** A value is an atom or a reference to a [dict] object of the store;
    dictionaries are mutable and may be shared. *)
Inductive value :=
| Atom (a : atom)
| Ref (l : nat).

Definition object := dict value.
Definition heap := list object.

(** The object at a location after [d[k] = v] has rebuilt it. *)
Fixpoint write (h : heap) (l : nat) (o : object) : heap :=
  match h, l with
  | [], _ => []
  | _ :: h', O => o :: h'
  | x :: h', S l' => x :: write h' l' o
  end.

(** What [json.load] returns, dictionaries being told apart from every
    other value. *)
#[local] Unset Elimination Schemes.
Inductive json :=
| JLeaf (a : atom)
| JDict (fields : list (text * json)).
#[local] Set Elimination Schemes.

(** [self.defaults] and [self.config] are references into the store. *)
Record settings := {
  store : heap;
  defaults : nat;
  config : nat
}.

(** [self.config = self.defaults.copy()]: a new top-level dictionary
    holding the same values, nested dictionaries included. *)
Definition copy_defaults (h : heap) (defaults : nat) : settings :=
  {| store := h ++ [nth defaults h []];
     defaults := defaults;
     config := length h |}.

(** What [get] answers: a stored value, the fresh [{}] or [None]. *)
Inductive answer :=
| Value (v : value)
| EmptyDict
| NoneValue.

(** [get(section, key=None)]; calling [.get] on an atom raises. *)
Definition get (s : settings) (section : text) (key : option text)
    : outcome answer :=
  match nth_error (store s) (config s) with
  | None => Raised
  | Some top =>
      match key with
      | None =>
          Returned (match dict_get section top with
                    | Some v => Value v
                    | None => EmptyDict
                    end)
      | Some key =>
          match dict_get section top with
          | None => Returned NoneValue
          | Some (Atom _) => Raised
          | Some (Ref l) =>
              match nth_error (store s) l with
              | None => Raised
              | Some o =>
                  Returned (match dict_get key o with
                            | Some v => Value v
                            | None => NoneValue
                            end)
              end
          end
      end
  end.

(** [set(section, key, value)]; item assignment on an atom raises. *)
Definition set (s : settings) (section key : text) (v : value)
    : settings * outcome unit :=
  match nth_error (store s) (config s) with
  | None => (s, Raised)
  | Some top =>
      match dict_get section top with
      | None =>
          let l := length (store s) in
          let h := write (store s ++ [[]]) (config s)
                     (dict_set section (Ref l) top) in
          ({| store := write h l (dict_set key v []);
              defaults := defaults s;
              config := config s |}, Returned tt)
      | Some (Atom _) => (s, Raised)
      | Some (Ref l) =>
          match nth_error (store s) l with
          | None => (s, Raised)
          | Some o =>
              ({| store := write (store s) l (dict_set key v o);
                  defaults := defaults s;
                  config := config s |}, Returned tt)
          end
      end
  end.

(** [self.defaults.get(section, {}).get(key)]: the defaults read the way
    [get] reads the configuration. *)
Definition get_default (s : settings) (section key : text) : outcome answer :=
  get {| store := store s; defaults := defaults s; config := defaults s |}
    section (Some key).

(** [_update_nested_dict(d, u)].  The store is threaded through: what was
    written before an exception stays written. *)
Fixpoint update_nested_dict (h : heap) (d : value) (u : json) {struct u}
    : heap * outcome value :=
  match u with
  | JLeaf _ => (h, Raised)
  | JDict fields =>
      (fix each (fields : list (text * json)) (h : heap)
         : heap * outcome value :=
         match fields with
         | [] => (h, Returned d)
         | (k, v) :: rest =>
             match d with
             | Atom _ => (h, Raised)
             | Ref l =>
                 match nth_error h l with
                 | None => (h, Raised)
                 | Some o =>
                     match v with
                     | JDict _ =>
                         let '(h1, sub) :=
                           match dict_get k o with
                           | Some x => (h, x)
                           | None => (h ++ [[]], Ref (length h))
                           end in
                         match update_nested_dict h1 sub v with
                         | (h2, Raised) => (h2, Raised)
                         | (h2, Returned r) =>
                             match nth_error h2 l with
                             | None => (h2, Raised)
                             | Some o2 => each rest (write h2 l (dict_set k r o2))
                             end
                         end
                     | JLeaf a => each rest (write h l (dict_set k (Atom a) o))
                     end
                 end
             end
         end) fields h
  end.

(** The same update on nested dictionaries as plain trees; [None] where
    [_update_nested_dict] raises. *)
Fixpoint merge (t : json) (u : json) {struct u} : option json :=
  match u with
  | JLeaf _ => None
  | JDict fields =>
      (fix each (fields : list (text * json)) (t : json) : option json :=
         match fields with
         | [] => Some t
         | (k, v) :: rest =>
             match t with
             | JLeaf _ => None
             | JDict entries =>
                 match v with
                 | JDict _ =>
                     match merge (match dict_get k entries with
                                  | Some x => x
                                  | None => JDict []
                                  end) v with
                     | None => None
                     | Some r => each rest (JDict (dict_set k r entries))
                     end
                 | JLeaf a => each rest (JDict (dict_set k (JLeaf a) entries))
                 end
             end
         end) fields t
  end.

(** [t[k1][k2]...] on a tree. *)
Fixpoint lookup (t : json) (path : list text) {struct path} : option json :=
  match path with
  | [] => Some t
  | k :: rest =>
      match t with
      | JLeaf _ => None
      | JDict fields =>
          match dict_get k fields with
          | Some x => lookup x rest
          | None => None
          end
      end
  end.

(** As in a Python [dict], no key occurs twice in a dictionary of the
    tree. *)
Fixpoint distinct_keys (t : json) : Prop :=
  match t with
  | JLeaf _ => True
  | JDict fields =>
      NoDup (map fst fields) /\
      (fix all (fields : list (text * json)) : Prop :=
         match fields with
         | [] => True
         | (_, v) :: rest => distinct_keys v /\ all rest
         end) fields
  end.

(** [shape h t v cells]: in the store [h] the value [v] stands for the
    tree [t], and [cells] lists the locations of the dictionaries of [t],
    the root first.  When [cells] has no repetition, no dictionary is
    shared or reached twice. *)
Inductive shape (h : heap) : json -> value -> list nat -> Prop :=
| shape_leaf (a : atom) : shape h (JLeaf a) (Atom a) []
| shape_dict (l : nat) (o : object) (fields : list (text * json))
    (cells : list nat) :
    nth_error h l = Some o ->
    entries h fields o cells ->
    shape h (JDict fields) (Ref l) (l :: cells)
with entries (h : heap) : list (text * json) -> object -> list nat -> Prop :=
| entries_nil : entries h [] [] []
| entries_cons (k : text) (t : json) (v : value) (part : list nat)
    (fields : list (text * json)) (o : object) (cells : list nat) :
    shape h t v part ->
    entries h fields o cells ->
    entries h ((k, t) :: fields) ((k, v) :: o) (part ++ cells).

Scheme shape_entries_ind := Minimality for shape Sort Prop
  with entries_shape_ind := Minimality for entries Sort Prop.
Combined Scheme shape_mutual_ind from shape_entries_ind, entries_shape_ind.

(** What a call of [_update_nested_dict] on the tree [cells] of [d] must
    leave behind when the pure update yields [expected]: the store only
    grows, dictionaries outside the tree are untouched, and the call
    returns [d], now standing for the merged tree, exactly when the pure
    update is defined. *)
Definition updated (h : heap) (d : value) (cells : list nat)
    (expected : option json) (res : heap * outcome value) : Prop :=
  length h <= length (fst res) /\
  (forall c, c < length h -> ~ In c cells ->
             nth_error (fst res) c = nth_error h c) /\
  match snd res with
  | Returned x =>
      x = d /\
      exists t' cells',
        expected = Some t' /\ shape (fst res) t' d cells' /\ NoDup cells' /\
        forall c, In c cells' -> In c cells \/ length h <= c
  | Raised => expected = None
  end.

(** Nothing is lost between two stores: every object is still there and
    still has each key it had. *)
Definition keeps (h h' : heap) : Prop :=
  length h <= length h' /\
  forall l o, nth_error h l = Some o ->
    exists o', nth_error h' l = Some o' /\
               forall k, dict_get k o <> None -> dict_get k o' <> None.

(** [load_config]: [None] when [main.json] is missing or is not JSON;
    an exception raised by the update is caught and logged. *)
Definition load_config (file : option json) (s : settings) : settings :=
  match file with
  | None => s
  | Some user_config =>
      {| store := fst (update_nested_dict (store s) (Ref (config s)) user_config);
         defaults := defaults s;
         config := config s |}
  end.

End Store.

Arguments Ref {atom}.
Arguments EmptyDict {atom}.
Arguments NoneValue {atom}.

(** The atoms of the default configuration. *)
Inductive scalar :=
| Str (s : string)
| Num (q : Q)
| Bool (b : bool)
| Strs (l : list string).

Local Open Scope string_scope.
Local Open Scope Q_scope.

(** [self.defaults], laid out in the store: the top-level dictionary at
    location 0, then each nested dictionary. *)
Definition default_store : heap scalar :=
  [ [ (txt "database", Ref 1); (txt "api", Ref 2);
      (txt "data_collection", Ref 3); (txt "analysis", Ref 6);
      (txt "automation", Ref 7); (txt "workflow", Ref 8) ];
    [ (txt "path", Atom (Str "database/cryptofarm.db"));
      (txt "backup_dir", Atom (Str "database/backups")) ];
    [ (txt "host", Atom (Str "localhost"));
      (txt "port", Atom (Num 8000));
      (txt "debug", Atom (Bool true));
      (txt "secret_key", Atom (Str "your-secret-key-here"));
      (txt "token_expire_minutes", Atom (Num (60 * 24 * 7))) ];
    [ (txt "concurrent_scrapers", Atom (Num 3));
      (txt "rate_limit", Ref 4);
      (txt "fetch_interval", Ref 5) ];
    [ (txt "twitter", Atom (Num 15)); (txt "telegram", Atom (Num 20));
      (txt "discord", Atom (Num 10)) ];
    [ (txt "twitter", Atom (Num 15)); (txt "telegram", Atom (Num 5));
      (txt "discord", Atom (Num 30)) ];
    [ (txt "min_priority_score", Atom (Num 0.7));
      (txt "high_priority_threshold", Atom (Num 1.5));
      (txt "med_priority_threshold", Atom (Num 1.0));
      (txt "model_path", Atom (Str "models/classifier.pkl"));
      (txt "use_llm", Atom (Bool false));
      (txt "llm_provider", Atom (Str "openai"));
      (txt "llm_model", Atom (Str "gpt-3.5-turbo")) ];
    [ (txt "enabled", Atom (Bool true));
      (txt "max_concurrent_tasks", Atom (Num 5));
      (txt "notification_channels", Atom (Strs ["console"]));
      (txt "check_interval", Atom (Num 15)) ];
    [ (txt "auto_discovery", Atom (Bool true));
      (txt "auto_participation", Atom (Bool false));
      (txt "approval_required", Atom (Bool true)) ] ].

(** [self.defaults] as a plain tree. *)
Definition default_tree : json scalar :=
  JDict
    [ (txt "database",
       JDict [ (txt "path", JLeaf (Str "database/cryptofarm.db"));
               (txt "backup_dir", JLeaf (Str "database/backups")) ]);
      (txt "api",
       JDict [ (txt "host", JLeaf (Str "localhost"));
               (txt "port", JLeaf (Num 8000));
               (txt "debug", JLeaf (Bool true));
               (txt "secret_key", JLeaf (Str "your-secret-key-here"));
               (txt "token_expire_minutes", JLeaf (Num (60 * 24 * 7))) ]);
      (txt "data_collection",
       JDict [ (txt "concurrent_scrapers", JLeaf (Num 3));
               (txt "rate_limit",
                JDict [ (txt "twitter", JLeaf (Num 15));
                        (txt "telegram", JLeaf (Num 20));
                        (txt "discord", JLeaf (Num 10)) ]);
               (txt "fetch_interval",
                JDict [ (txt "twitter", JLeaf (Num 15));
                        (txt "telegram", JLeaf (Num 5));
                        (txt "discord", JLeaf (Num 30)) ]) ]);
      (txt "analysis",
       JDict [ (txt "min_priority_score", JLeaf (Num 0.7));
               (txt "high_priority_threshold", JLeaf (Num 1.5));
               (txt "med_priority_threshold", JLeaf (Num 1.0));
               (txt "model_path", JLeaf (Str "models/classifier.pkl"));
               (txt "use_llm", JLeaf (Bool false));
               (txt "llm_provider", JLeaf (Str "openai"));
               (txt "llm_model", JLeaf (Str "gpt-3.5-turbo")) ]);
      (txt "automation",
       JDict [ (txt "enabled", JLeaf (Bool true));
               (txt "max_concurrent_tasks", JLeaf (Num 5));
               (txt "notification_channels", JLeaf (Strs ["console"]));
               (txt "check_interval", JLeaf (Num 15)) ]);
      (txt "workflow",
       JDict [ (txt "auto_discovery", JLeaf (Bool true));
               (txt "auto_participation", JLeaf (Bool false));
               (txt "approval_required", JLeaf (Bool true)) ]) ].

(** The state [__init__] leaves behind, given what [main.json] holds. *)
Definition init (file : option (json scalar)) : settings scalar :=
  load_config file (copy_defaults default_store 0).

End Settings.

(* ================================================================== *)
(** * Properties of the opportunity analyzer *)
(* ================================================================== *)

Section AnalyzerFacts.

Import Analyzer.
Local Open Scope R_scope.

Lemma sigmoid_pos (x : R) : 0 < 1.0 / (1.0 + exp x).
Proof.
  pose proof (exp_pos x) as Hx.
  apply Rdiv_lt_0_compat; lra.
Qed.

Lemma sigmoid_lt_1 (x : R) : 1.0 / (1.0 + exp x) < 1.
Proof.
  pose proof (exp_pos x) as Hx.
  assert (Hy : 0 < / (1.0 + exp x)) by (apply Rinv_0_lt_compat; lra).
  assert (Hm : / (1.0 + exp x) * (1.0 + exp x) = 1) by (apply Rinv_l; lra).
  unfold Rdiv. nra.
Qed.

Lemma clamp_range (x : R) : 0 <= Rmax 0.0 (Rmin 1.0 x) <= 1.
Proof.
  unfold Rmax, Rmin.
  destruct (Rle_dec 1.0 x); destruct (Rle_dec 0.0 _); lra.
Qed.

Lemma filter_nil_when (A : Type) (f : A -> bool) (l : list A) :
  (forall x, In x l -> f x = false) -> filter f l = [].
Proof.
  induction l as [|a l IH]; simpl; intros H; [reflexivity|].
  rewrite (H a (or_introl eq_refl)). apply IH. intros x Hx. apply H. now right.
Qed.

Lemma days_ago_mono (now a b : Z) : (a <= b)%Z -> (days_ago now b <= days_ago now a)%Z.
Proof. unfold days_ago. lia. Qed.

Section ZeroHistory.

Variables (now : Z) (db : database) (pid : Z).

Hypothesis Hnone :
  forall ad, In ad (db_analyzed_data db) -> ad_project_id ad = pid ->
             (ad_analysis_timestamp ad < days_ago now 14)%Z.

Lemma no_rows_since (f : analyzed_row -> bool) :
  (forall ad, f ad = true -> (days_ago now 14 <= ad_analysis_timestamp ad)%Z) ->
  filter f (rows_of_project db pid) = [].
Proof.
  intros Hf. apply filter_nil_when. intros ad Hin.
  unfold rows_of_project in Hin. apply filter_In in Hin. destruct Hin as [Hin Hp].
  apply Z.eqb_eq in Hp. pose proof (Hnone ad Hin Hp) as Hlt.
  destruct (f ad) eqn:E; [|reflexivity].
  apply Hf in E. lia.
Qed.

Lemma no_count_since (days : Z) :
  (days <= 14)%Z ->
  query_count_since db pid (days_ago now days) = execute_query db [O].
Proof.
  intros Hd. unfold query_count_since. rewrite no_rows_since; [reflexivity|].
  intros ad H. apply Z.leb_le in H.
  pose proof (days_ago_mono now Hd). lia.
Qed.

Lemma no_count_between :
  query_count_between db pid (days_ago now 14) (days_ago now 7) =
  execute_query db [O].
Proof.
  unfold query_count_between. rewrite no_rows_since; [reflexivity|].
  intros ad H. apply andb_true_iff in H. destruct H as [H _].
  apply Z.leb_le in H. lia.
Qed.

Lemma no_contexts : query_contexts now db pid = [].
Proof.
  unfold query_contexts. rewrite no_rows_since.
  - unfold execute_query. now destruct (db_reachable db).
  - intros ad H. apply Z.leb_le in H. lia.
Qed.

Lemma no_urgent : query_urgent now db pid = [].
Proof.
  unfold query_urgent.
  rewrite filter_nil_when.
  - unfold execute_query. now destruct (db_reachable db).
  - intros ad Hin. unfold recent_high_priority.
    destruct (Z.eqb_spec (ad_project_id ad) pid) as [Hp|]; [|reflexivity].
    pose proof (Hnone ad Hin Hp) as Hlt.
    pose proof (days_ago_mono now (a := 7) (b := 14) ltac:(lia)).
    destruct (Z.leb_spec (days_ago now 7) (ad_analysis_timestamp ad)); [lia|reflexivity].
Qed.

End ZeroHistory.

(** C1.  With the store reachable and no analysed record of the project in
    the last 14 days, the sentiment and urgency computations return their
    neutral defaults 0.5 and 0.0, but the activity and growth computations
    do not return 0.0: each [COUNT] query answers one row holding 0, so the
    logistic is evaluated, giving 1/(1+e^2) and 1/(1+e^1.5). *)
Theorem C1_zero_history_scores (now : Z) (db : database) (pid : Z)
    (Hup : db_reachable db = true)
    (Hnone : forall ad, In ad (db_analyzed_data db) -> ad_project_id ad = pid ->
                        (ad_analysis_timestamp ad < days_ago now 14)%Z) :
  calculate_activity_score now db pid = 1 / (1 + exp 2) /\
  calculate_activity_score now db pid <> 0.0 /\
  calculate_community_growth now db pid = 1 / (1 + exp 1.5) /\
  calculate_community_growth now db pid <> 0.0 /\
  calculate_sentiment_score now db pid = 0.5 /\
  calculate_urgency_score now db pid = 0.0.
Proof.
  assert (Ha : calculate_activity_score now db pid = 1 / (1 + exp 2)).
  { unfold calculate_activity_score, calculate_activity_score_days.
    rewrite (@no_count_since now db pid Hnone) by lia.
    unfold execute_query. rewrite Hup. simpl INR.
    replace (- 0.4 * (0 - 5)) with 2 by lra.
    replace 1.0 with 1 by lra. reflexivity. }
  assert (Hg : calculate_community_growth now db pid = 1 / (1 + exp 1.5)).
  { unfold calculate_community_growth.
    rewrite (@no_count_since now db pid Hnone) by lia.
    rewrite (@no_count_between now db pid Hnone).
    unfold execute_query. rewrite Hup. simpl.
    replace (- 1.5 * (0 - 1.0)) with 1.5 by lra.
    replace 1.0 with 1 by lra. reflexivity. }
  repeat split.
  - exact Ha.
  - rewrite Ha. pose proof (sigmoid_pos 2) as H.
    replace 1.0 with 1 in H by lra. lra.
  - exact Hg.
  - rewrite Hg. pose proof (sigmoid_pos 1.5) as H.
    replace 1.0 with 1 in H by lra. lra.
  - unfold calculate_sentiment_score. now rewrite (@no_contexts now db pid Hnone).
  - unfold calculate_urgency_score. now rewrite (@no_urgent now db pid Hnone).
Qed.

Lemma C1_zero_history_scores_witness :
  calculate_activity_score 0 Examples.fresh_store 1 <> 0.0 /\
  calculate_community_growth 0 Examples.fresh_store 1 <> 0.0.
Proof.
  destruct (@C1_zero_history_scores 0 Examples.fresh_store 1 eq_refl)
    as (_ & Ha & _ & Hg & _).
  - intros ad H. destruct H.
  - split; assumption.
Defined.

(** When the queries themselves fail (store unreachable, table missing),
    [execute_query] answers no row and all four computations fall back to
    their defaults, whatever was recorded. *)
Lemma failing_store_defaults (now : Z) (db : database) (pid : Z) :
  db_reachable db = false ->
  calculate_activity_score now db pid = 0.0 /\
  calculate_community_growth now db pid = 0.0 /\
  calculate_sentiment_score now db pid = 0.5 /\
  calculate_urgency_score now db pid = 0.0.
Proof.
  intros Hdown.
  unfold calculate_activity_score, calculate_activity_score_days,
    calculate_community_growth, calculate_sentiment_score,
    calculate_urgency_score, query_count_since, query_count_between,
    query_contexts, query_urgent, execute_query.
  rewrite Hdown. repeat split.
Qed.

Lemma activity_range (now : Z) (db : database) (pid : Z) :
  0 <= calculate_activity_score now db pid <= 1.
Proof.
  unfold calculate_activity_score, calculate_activity_score_days.
  destruct (query_count_since _ _ _) as [|n ?]; [lra|].
  pose proof (sigmoid_pos (- 0.4 * (INR n - 5))).
  pose proof (sigmoid_lt_1 (- 0.4 * (INR n - 5))). lra.
Qed.

Lemma growth_range (now : Z) (db : database) (pid : Z) :
  0 <= calculate_community_growth now db pid <= 1.
Proof.
  unfold calculate_community_growth.
  destruct (query_count_since _ _ _) as [|n ?]; [lra|].
  destruct (query_count_between _ _ _ _) as [|m ?]; [lra|].
  cbv zeta.
  match goal with |- context [exp ?x] =>
    pose proof (sigmoid_pos x); pose proof (sigmoid_lt_1 x) end.
  lra.
Qed.

Lemma sentiment_range (now : Z) (db : database) (pid : Z) :
  0 <= calculate_sentiment_score now db pid <= 1.
Proof.
  unfold calculate_sentiment_score.
  destruct (query_contexts now db pid) as [|c l]; [lra|].
  destruct (fold_left sentiment_step (c :: l) (O, O)) as [p n].
  destruct (Nat.eqb _ 0); [lra|]. apply clamp_range.
Qed.

Lemma urgency_count_le (l : list analyzed_row) (c : nat) (m : R) :
  (fst (fold_left urgency_step l (c, m)) <= c + length l)%nat.
Proof.
  revert c m. induction l as [|a l IH]; intros c m; simpl; [lia|].
  destruct (is_time_sensitive a); eapply Nat.le_trans; try apply IH; lia.
Qed.

Lemma ratio_range (c n : nat) : (c <= n)%nat -> (0 < n)%nat -> 0 <= INR c / INR n <= 1.
Proof.
  intros Hc Hn.
  assert (0 < INR n) by (apply lt_0_INR; exact Hn).
  assert (0 <= INR c) by apply pos_INR.
  assert (INR c <= INR n) by (apply le_INR; exact Hc).
  split.
  - apply Rmult_le_pos; [assumption|]. left. now apply Rinv_0_lt_compat.
  - apply (Rmult_le_reg_r (INR n)); [assumption|].
    unfold Rdiv. rewrite Rmult_assoc, Rinv_l by lra. lra.
Qed.

Lemma urgency_of_rows_range (results : list analyzed_row) :
  0 <= urgency_of_rows results <= 1.
Proof.
  unfold urgency_of_rows. destruct results as [|a l]; [lra|].
  pose proof (urgency_count_le (a :: l) 0 0.0) as Hc.
  destruct (fold_left urgency_step (a :: l) (O, 0.0)) as [c m].
  simpl fst in Hc. simpl plus in Hc.
  assert (Hr : 0 <= INR c / INR (length (a :: l)) <= 1)
    by (apply ratio_range; [exact Hc | simpl; lia]).
  replace (Nat.ltb 0 (length (a :: l))) with true by reflexivity.
  assert (Hn : 0 <= Rmin 1.0 (if Rltb 1.0 m then (m - 1.0) / 1.0 else 0.0) <= 1).
  { unfold Rmin, Rltb. destruct (Rlt_dec 1.0 m);
      match goal with |- context [Rle_dec ?a ?b] => destruct (Rle_dec a b) end; lra. }
  lra.
Qed.

Lemma urgency_range (now : Z) (db : database) (pid : Z) :
  0 <= calculate_urgency_score now db pid <= 1.
Proof. apply urgency_of_rows_range. Qed.

Lemma roi_range (now : Z) (db : database) (pid : Z) (t : opportunity) :
  0 <= calculate_roi_potential now db pid t <= 1.
Proof.
  unfold calculate_roi_potential.
  destruct (get_project db pid); [apply clamp_range | lra].
Qed.

(** C2.  Whatever the store holds, the five component scores reported by
    [calculate_opportunity_score] lie in [0,1] and the opportunity score,
    which is 100 times their sum weighted 0.25/0.15/0.15/0.20/0.25, lies in
    [0,100]; the answer for an unknown project carries the score 0. *)
Theorem C2_scores_in_range (now : Z) (db : database) (pid : Z) :
  match calculate_opportunity_score now db pid with
  | Scored r =>
      let c := components r in
      0 <= activity c <= 1 /\
      0 <= community_growth c <= 1 /\
      0 <= sentiment c <= 1 /\
      0 <= urgency c <= 1 /\
      0 <= roi_potential c <= 1 /\
      opportunity_score r =
        (activity c * 0.25 + community_growth c * 0.15 + sentiment c * 0.15
         + urgency c * 0.20 + roi_potential c * 0.25) * 100 /\
      0 <= opportunity_score r <= 100
  | ProjectNotFound _ score => 0 <= score <= 100
  end.
Proof.
  unfold calculate_opportunity_score.
  destruct (get_project db pid) as [p|]; [|lra].
  destruct (detect_opportunity_type now db pid) as [t conf].
  cbv zeta. cbn [components activity community_growth sentiment urgency
                 roi_potential opportunity_score].
  pose proof (activity_range now db pid).
  pose proof (growth_range now db pid).
  pose proof (sentiment_range now db pid).
  pose proof (urgency_range now db pid).
  pose proof (roi_range now db pid t).
  unfold weight_activity_level, weight_community_growth, weight_sentiment,
    weight_urgency, weight_roi_potential.
  repeat split; try tauto; lra.
Qed.

(** C3.  In the result [calculate_opportunity_score] builds for a known
    project, [worth_participating] is true exactly when the opportunity
    score is at least 70, the score 70 itself included. *)
Theorem C3_worth_participating_threshold (now : Z) (db : database) (pid : Z)
    (r : snapshot) :
  calculate_opportunity_score now db pid = Scored r ->
  (worth_participating r = true <-> opportunity_score r >= 70) /\
  (opportunity_score r = 70 -> worth_participating r = true).
Proof.
  unfold calculate_opportunity_score.
  destruct (get_project db pid) as [p|]; [|discriminate].
  destruct (detect_opportunity_type now db pid) as [t conf].
  intros H. injection H as <-.
  cbn [worth_participating opportunity_score]. unfold Rleb.
  match goal with |- context [Rle_dec ?a ?b] => destruct (Rle_dec a b) end.
  - split; [split; [intros _; lra | reflexivity] | reflexivity].
  - split; [split; [discriminate | intros; lra] | intros; lra].
Qed.

Lemma C3_worth_participating_threshold_witness :
  exists r,
    calculate_opportunity_score 0 Examples.fresh_store 1 = Scored r /\
    (worth_participating r = true <-> opportunity_score r >= 70).
Proof.
  eexists. split.
  - unfold calculate_opportunity_score, get_project, select_project.
    simpl. reflexivity.
  - apply (@C3_worth_participating_threshold 0 Examples.fresh_store 1).
    unfold calculate_opportunity_score, get_project, select_project.
    simpl. reflexivity.
Defined.

(** *** The urgency query keeps the ten highest priorities *)

Lemma Rleb_true (x y : R) : Rleb x y = true <-> x <= y.
Proof. unfold Rleb. destruct (Rle_dec x y); split; intros; try easy. Qed.

Lemma Rleb_false (x y : R) : Rleb x y = false <-> y < x.
Proof.
  unfold Rleb. destruct (Rle_dec x y); split; intros; try easy; lra.
Qed.

Lemma insert_desc_In (x y : analyzed_row) (l : list analyzed_row) :
  In y (insert_desc x l) -> y = x \/ In y l.
Proof.
  induction l as [|h t IH]; simpl.
  - intros [<-|[]]. now left.
  - destruct (Rleb (ad_priority_score h) (ad_priority_score x)); simpl.
    + intros [<-|H]; auto.
    + intros [<-|H]; auto. destruct (IH H); auto.
Qed.

Lemma insert_desc_descending (x : analyzed_row) (l : list analyzed_row) :
  descending l -> descending (insert_desc x l).
Proof.
  unfold descending. induction l as [|h t IH]; simpl; intros Hs.
  - constructor; constructor.
  - destruct (Rleb (ad_priority_score h) (ad_priority_score x)) eqn:E.
    + apply Rleb_true in E. inversion Hs as [|? ? Ht Hh]; subst.
      constructor; [exact Hs|]. constructor; [exact E|].
      eapply Forall_impl; [|exact Hh]. unfold prio. simpl. intros; lra.
    + apply Rleb_false in E. inversion Hs as [|? ? Ht Hh]; subst.
      constructor; [now apply IH|].
      apply Forall_forall. intros y Hy. apply insert_desc_In in Hy.
      destruct Hy as [->|Hy]; [unfold prio; lra|].
      rewrite Forall_forall in Hh. now apply Hh.
Qed.

Lemma order_descending (l : list analyzed_row) :
  descending (order_by_priority_desc l).
Proof.
  induction l as [|x l IH]; simpl.
  - constructor.
  - now apply insert_desc_descending.
Qed.

Lemma insert_desc_below (x e : analyzed_row) (l : list analyzed_row) :
  prio x <= prio e -> below e l -> below e (insert_desc x l).
Proof.
  unfold below. intros Hx Hl. apply Forall_forall. intros y Hy.
  apply insert_desc_In in Hy. destruct Hy as [->|Hy]; [exact Hx|].
  rewrite Forall_forall in Hl. now apply Hl.
Qed.

(** Where a row lands in a sorted list. *)
Lemma insert_desc_split (e : analyzed_row) (l : list analyzed_row) :
  descending l ->
  exists A B, insert_desc e l = A ++ e :: B /\ l = A ++ B /\ below e B.
Proof.
  unfold descending, below. induction l as [|h t IH]; simpl; intros Hs.
  - exists [], []. repeat split. constructor.
  - inversion Hs as [|? ? Ht Hh]; subst.
    destruct (Rleb (ad_priority_score h) (ad_priority_score e)) eqn:E.
    + apply Rleb_true in E. exists [], (h :: t). repeat split.
      constructor; [exact E|].
      eapply Forall_impl; [|exact Hh]. unfold prio. simpl. intros; lra.
    + destruct (IH Ht) as (A & B & H1 & H2 & H3).
      exists (h :: A), B. simpl. rewrite H1, <- H2. repeat split. exact H3.
Qed.

(** Inserting [x] commutes with the presence of a row [e] that everything
    after it does not outrank. *)
Lemma insert_desc_around (x e : analyzed_row) (A B : list analyzed_row) :
  below e B ->
  exists A' B',
    insert_desc x (A ++ e :: B) = A' ++ e :: B' /\
    insert_desc x (A ++ B) = A' ++ B' /\ below e B'.
Proof.
  intros HB. induction A as [|h A IH]; simpl.
  - destruct (Rleb (ad_priority_score e) (ad_priority_score x)) eqn:E.
    + apply Rleb_true in E. exists [x], B. repeat split; [|exact HB].
      destruct B as [|b B]; [reflexivity|]. simpl.
      inversion HB; subst. unfold prio in *.
      assert (Hb : Rleb (ad_priority_score b) (ad_priority_score x) = true)
        by (apply Rleb_true; lra).
      now rewrite Hb.
    + apply Rleb_false in E. exists [], (insert_desc x B). repeat split.
      apply insert_desc_below; [unfold prio; lra | exact HB].
  - destruct (Rleb (ad_priority_score h) (ad_priority_score x)).
    + exists (x :: h :: A), B. repeat split. exact HB.
    + destruct IH as (A' & B' & H1 & H2 & H3).
      exists (h :: A'), B'. simpl. rewrite H1, H2. repeat split. exact H3.
Qed.

Lemma order_with_extra_row (l1 l2 : list analyzed_row) (e : analyzed_row) :
  exists A B,
    order_by_priority_desc (l1 ++ e :: l2) = A ++ e :: B /\
    order_by_priority_desc (l1 ++ l2) = A ++ B /\ below e B.
Proof.
  induction l1 as [|x l1 IH]; simpl.
  - apply insert_desc_split, order_descending.
  - destruct IH as (A & B & H1 & H2 & H3). rewrite H1, H2.
    now apply insert_desc_around.
Qed.

Lemma firstn_unaffected (e : analyzed_row) (A B : list analyzed_row) (n : nat) :
  below e B ->
  length (firstn n (A ++ B)) = n ->
  Forall (fun t => prio e < prio t) (firstn n (A ++ B)) ->
  firstn n (A ++ e :: B) = firstn n (A ++ B).
Proof.
  intros HB Hlen Hall.
  assert (Hn : (n <= length A)%nat).
  { destruct (Nat.le_gt_cases n (length A)) as [|Hgt]; [assumption|exfalso].
    rewrite firstn_app in Hlen, Hall.
    rewrite length_app in Hlen.
    rewrite firstn_all2 in Hlen by lia.
    destruct B as [|b B].
    - rewrite firstn_nil in Hlen. simpl in Hlen. lia.
    - destruct (n - length A)%nat as [|k] eqn:Ek; [lia|].
      simpl in Hall. apply Forall_app in Hall. destruct Hall as [_ Hall].
      inversion Hall; subst. inversion HB; subst. lra. }
  rewrite !firstn_app.
  replace (n - length A)%nat with O by lia. reflexivity.
Qed.

Lemma top_urgent_one_more (now pid : Z) (rows : list analyzed_row)
    (e : analyzed_row) :
  length (top_urgent now pid rows) = 10%nat ->
  (recent_high_priority now pid e = true ->
   Forall (fun t => prio e < prio t) (top_urgent now pid rows)) ->
  top_urgent now pid (rows ++ [e]) = top_urgent now pid rows.
Proof.
  unfold top_urgent. intros Hlen Hlow.
  rewrite filter_app. cbn [filter].
  destruct (recent_high_priority now pid e) eqn:Eq.
  - specialize (Hlow eq_refl).
    set (l := filter (recent_high_priority now pid) rows) in *.
    destruct (order_with_extra_row l [] e) as (A & B & H1 & H2 & H3).
    rewrite app_nil_r in H2. rewrite H1. rewrite H2 in *.
    now apply firstn_unaffected.
  - now rewrite app_nil_r.
Qed.

Lemma top_urgent_more (now pid : Z) (extra rows : list analyzed_row) :
  length (top_urgent now pid rows) = 10%nat ->
  Forall (fun e => recent_high_priority now pid e = true ->
                   Forall (fun t => prio e < prio t) (top_urgent now pid rows))
    extra ->
  top_urgent now pid (rows ++ extra) = top_urgent now pid rows.
Proof.
  revert rows. induction extra as [|e extra IH]; intros rows Hlen Hlow.
  - now rewrite app_nil_r.
  - inversion Hlow as [|? ? He Hrest]; subst.
    pose proof (top_urgent_one_more now pid rows e Hlen He) as Hone.
    replace (rows ++ e :: extra) with ((rows ++ [e]) ++ extra)
      by (rewrite <- app_assoc; reflexivity).
    rewrite IH; rewrite Hone; auto.
Qed.

Lemma insert_desc_perm (x : analyzed_row) (l : list analyzed_row) :
  Permutation (x :: l) (insert_desc x l).
Proof.
  induction l as [|h t IH]; simpl; [reflexivity|].
  destruct (Rleb (ad_priority_score h) (ad_priority_score x)); [reflexivity|].
  rewrite perm_swap. now constructor.
Qed.

Lemma order_perm (l : list analyzed_row) :
  Permutation l (order_by_priority_desc l).
Proof.
  induction l as [|x l IH]; simpl; [reflexivity|].
  rewrite <- insert_desc_perm. now constructor.
Qed.

(** In a descending list no later row outranks an earlier one. *)
Lemma descending_app (A B : list analyzed_row) :
  descending (A ++ B) ->
  descending A /\
  Forall (fun e => Forall (fun t => ad_priority_score e <= ad_priority_score t) A) B.
Proof.
  unfold descending. induction A as [|a A IH]; cbn [app]; intros H.
  - split; [constructor|]. apply Forall_forall. intros e _. constructor.
  - inversion H as [|? ? Hs Ha]. subst. destruct (IH Hs) as [HA HB].
    split.
    + constructor; [exact HA|]. apply Forall_app in Ha. apply Ha.
    + apply Forall_forall. intros e He. constructor.
      * apply Forall_app in Ha. destruct Ha as [_ Ha].
        rewrite Forall_forall in Ha. now apply Ha.
      * rewrite Forall_forall in HB. now apply HB.
Qed.

(** What the urgency query keeps and what it cuts off: together the
    qualifying rows, the kept ones in descending order and none of them
    outranked by a row cut off. *)
Lemma top_urgent_highest (now pid : Z) (rows : list analyzed_row) :
  (length (top_urgent now pid rows) <= 10)%nat /\
  descending (top_urgent now pid rows) /\
  Permutation (filter (recent_high_priority now pid) rows)
    (top_urgent now pid rows ++ beyond_limit now pid rows) /\
  (beyond_limit now pid rows <> [] -> length (top_urgent now pid rows) = 10%nat) /\
  Forall (fun e => Forall (fun t => ad_priority_score e <= ad_priority_score t)
                     (top_urgent now pid rows))
    (beyond_limit now pid rows).
Proof.
  unfold top_urgent, beyond_limit.
  set (sorted := order_by_priority_desc (filter (recent_high_priority now pid) rows)).
  pose proof (order_descending (filter (recent_high_priority now pid) rows)) as Hd.
  fold sorted in Hd. rewrite <- (firstn_skipn 10 sorted) in Hd.
  apply descending_app in Hd. destruct Hd as [Hkept Hcut].
  split; [apply firstn_le_length|]. split; [exact Hkept|]. split; [|split].
  - rewrite firstn_skipn. apply order_perm.
  - intros Hne. apply firstn_length_le.
    destruct (Nat.le_gt_cases 10 (length sorted)) as [|Hlt]; [assumption|].
    exfalso. apply Hne. apply skipn_all2. lia.
  - exact Hcut.
Qed.

(** C10, as the code has it.  The urgency score is computed from the rows
    of the urgency query alone.  These are the at most ten highest-priority
    qualifying records (last 7 days, priority at least 1.3): in descending
    order, and no qualifying record that is cut off outranks one that is
    kept.  When ten records are kept and each of them strictly outranks
    every other qualifying record, storing further records that each either
    fail to qualify or rank strictly below the ten leaves the rows kept,
    and the score, unchanged. *)
Theorem C10_urgency_depends_on_top_ten (now : Z) (db : database) (pid : Z)
    (extra : list analyzed_row) :
  db_reachable db = true ->
  let qualifying := filter (recent_high_priority now pid) (db_analyzed_data db) in
  let kept := query_urgent now db pid in
  let cut := beyond_limit now pid (db_analyzed_data db) in
  calculate_urgency_score now db pid = urgency_of_rows kept /\
  (length kept <= 10)%nat /\
  descending kept /\
  Permutation qualifying (kept ++ cut) /\
  (cut <> [] -> length kept = 10%nat) /\
  Forall (fun e => Forall (fun t => ad_priority_score e <= ad_priority_score t) kept)
    cut /\
  (length kept = 10%nat ->
   Forall (fun e => Forall (fun t => ad_priority_score e < ad_priority_score t) kept)
     cut ->
   Forall (fun e => recent_high_priority now pid e = true ->
                    Forall (fun t => ad_priority_score e < ad_priority_score t) kept)
     extra ->
   Permutation (query_urgent now (store_records db extra) pid) kept /\
   calculate_urgency_score now (store_records db extra) pid =
   calculate_urgency_score now db pid).
Proof.
  intros Hup. cbv zeta.
  assert (Hq : forall d, db_reachable d = true ->
             query_urgent now d pid = top_urgent now pid (db_analyzed_data d)).
  { intros d Hd. unfold query_urgent, execute_query. now rewrite Hd. }
  rewrite (Hq db Hup).
  destruct (top_urgent_highest now pid (db_analyzed_data db))
    as (Hlen & Hdesc & Hperm & Hfull & Hcut).
  split; [unfold calculate_urgency_score; now rewrite (Hq db Hup)|].
  split; [exact Hlen|]. split; [exact Hdesc|]. split; [exact Hperm|].
  split; [exact Hfull|]. split; [exact Hcut|].
  intros Hten _ Hlow.
  assert (Hsame : query_urgent now (store_records db extra) pid =
                  top_urgent now pid (db_analyzed_data db)).
  { rewrite (Hq (store_records db extra)) by exact Hup.
    cbn [store_records db_analyzed_data]. now apply top_urgent_more. }
  split.
  - now rewrite Hsame.
  - unfold calculate_urgency_score. now rewrite Hsame, (Hq db Hup).
Qed.

Lemma busy_store_urgent :
  query_urgent 0 Examples.busy_store 1 = db_analyzed_data Examples.busy_store.
Proof.
  assert (H13 : Rleb 1.3 2 = true) by (apply Rleb_true; lra).
  assert (H22 : Rleb 2 2 = true) by (apply Rleb_true; lra).
  unfold query_urgent, execute_query, Examples.busy_store,
    recent_high_priority, Examples.record.
  cbn -[Rleb firstn].
  repeat (progress (rewrite ?H13, ?H22; cbn -[Rleb firstn])).
  reflexivity.
Qed.

Lemma busy_store_cut :
  beyond_limit 0 1 (db_analyzed_data Examples.busy_store) = [].
Proof.
  destruct (top_urgent_highest 0 1 (db_analyzed_data Examples.busy_store))
    as (_ & _ & Hperm & _ & _).
  apply Permutation_length in Hperm. rewrite length_app in Hperm.
  assert (Hkept : top_urgent 0 1 (db_analyzed_data Examples.busy_store)
                  = db_analyzed_data Examples.busy_store)
    by exact busy_store_urgent.
  rewrite Hkept in Hperm.
  pose proof (filter_length_le (recent_high_priority 0 1)
                (db_analyzed_data Examples.busy_store)) as Hle.
  destruct (beyond_limit 0 1 (db_analyzed_data Examples.busy_store));
    [reflexivity|]. cbn [length] in Hperm. lia.
Qed.

Lemma C10_urgency_depends_on_top_ten_witness :
  calculate_urgency_score 0
    (store_records Examples.busy_store [Examples.record 1.5 []]) 1 =
  calculate_urgency_score 0 Examples.busy_store 1.
Proof.
  destruct (@C10_urgency_depends_on_top_ten 0 Examples.busy_store 1
              [Examples.record 1.5 []] eq_refl) as (_ & _ & _ & _ & _ & _ & H).
  apply H.
  - rewrite busy_store_urgent. reflexivity.
  - rewrite busy_store_cut. constructor.
  - rewrite busy_store_urgent. constructor; [|constructor]. intros _.
    unfold Examples.busy_store, Examples.record. cbn [db_analyzed_data].
    repeat constructor; cbn; lra.
Defined.

(** C10 as stated fails when fewer than ten records qualify: the store
    holds one qualifying record, of priority 2 and time-sensitive, and the
    score is 1; a further qualifying record of priority 1.5, below the one
    kept, enters the query and the score becomes 0.7. *)
Lemma C10_counterexample :
  query_urgent 0 Examples.lone_store 1
  = [Examples.record 2 ["time_sensitive"%string]] /\
  recent_high_priority 0 1 (Examples.record 1.5 []) = true /\
  ad_priority_score (Examples.record 1.5 [])
  < ad_priority_score (Examples.record 2 ["time_sensitive"%string]) /\
  calculate_urgency_score 0 Examples.lone_store 1 = 1 /\
  calculate_urgency_score 0
    (store_records Examples.lone_store [Examples.record 1.5 []]) 1 = 0.7.
Proof.
  assert (H13 : Rleb 1.3 2 = true) by (apply Rleb_true; lra).
  assert (H15 : Rleb 1.3 1.5 = true) by (apply Rleb_true; lra).
  assert (H152 : Rleb 1.5 2 = true) by (apply Rleb_true; lra).
  assert (L02 : Rltb 0.0 2 = true)
    by (unfold Rltb; destruct (Rlt_dec 0.0 2); [reflexivity|lra]).
  assert (L215 : Rltb 2 1.5 = false)
    by (unfold Rltb; destruct (Rlt_dec 2 1.5); [lra|reflexivity]).
  assert (L12 : Rltb 1.0 2 = true)
    by (unfold Rltb; destruct (Rlt_dec 1.0 2); [reflexivity|lra]).
  assert (Hmin : Rmin 1.0 ((2 - 1.0) / 1.0) = 1)
    by (unfold Rmin; destruct (Rle_dec 1.0 ((2 - 1.0) / 1.0)); lra).
  assert (Hq1 : query_urgent 0 Examples.lone_store 1
                = [Examples.record 2 ["time_sensitive"%string]]).
  { unfold query_urgent, execute_query, Examples.lone_store,
      recent_high_priority, Examples.record.
    cbn -[Rleb firstn]. rewrite H13. reflexivity. }
  assert (Hq2 : query_urgent 0
                  (store_records Examples.lone_store [Examples.record 1.5 []]) 1
                = [Examples.record 2 ["time_sensitive"%string];
                   Examples.record 1.5 []]).
  { unfold query_urgent, execute_query, store_records, Examples.lone_store,
      recent_high_priority, Examples.record.
    cbn -[Rleb firstn]. rewrite H13, H15. cbn -[Rleb firstn].
    rewrite H152. reflexivity. }
  split; [exact Hq1|]. split; [|split; [|split]].
  - unfold recent_high_priority, Examples.record. cbn -[Rleb]. now rewrite H15.
  - unfold Examples.record. cbn. lra.
  - unfold calculate_urgency_score. rewrite Hq1.
    unfold urgency_of_rows, Examples.record.
    cbn -[Rltb Rmin INR]. rewrite L02. cbn -[Rltb Rmin INR].
    rewrite L12, Hmin. cbn. lra.
  - unfold calculate_urgency_score. rewrite Hq2.
    unfold urgency_of_rows, Examples.record.
    cbn -[Rltb Rmin INR]. rewrite L02. cbn -[Rltb Rmin INR].
    rewrite L215. cbn -[Rltb Rmin INR].
    rewrite L12, Hmin. cbn. lra.
Qed.

End AnalyzerFacts.

(* ================================================================== *)
(** * Properties of the priority scorer *)
(* ================================================================== *)

Section ScorerFacts.

Import Config Classifier.
Local Open Scope Q_scope.

#[local] Instance when_proper (l : string) (L : list string) (f : Q) :
  Proper (Qeq ==> Qeq) (when l L f).
Proof.
  intros x y H. unfold when. destruct (mem l L); rewrite H; reflexivity.
Qed.

Lemma when_scale (l : string) (L : list string) (f k s : Q) :
  when l L f (k * s) == k * when l L f s.
Proof. unfold when. destruct (mem l L); ring. Qed.

(** The running maximum of the per-project values is one of the two
    constants, and which one is decided by the presence of a high entry. *)
Lemma max_of_scores (acc : Q) (ps : list candidate) :
  (acc = 1.2 \/ acc = 1.5) ->
  max_of acc (map project_score ps) =
  if (Qeq_bool acc 1.5 || existsb is_high ps)%bool then 1.5 else 1.2.
Proof.
  unfold max_of. revert acc. induction ps as [|p ps IH]; simpl; intros acc Hacc.
  - destruct Hacc as [-> | ->]; reflexivity.
  - rewrite IH.
    + unfold project_score, is_high.
      destruct Hacc as [-> | ->]; destruct (cand_priority p) as [[|]|]; reflexivity.
    + unfold project_score.
      destruct Hacc as [-> | ->]; destruct (cand_priority p) as [[|]|]; auto.
Qed.

Lemma max_project_score_cases (p : candidate) (ps : list candidate) :
  max_project_score p ps =
  if existsb is_high (p :: ps) then 1.5
  else if existsb has_priority (p :: ps) then 1.2 else 1.0.
Proof.
  unfold max_project_score.
  destruct (existsb has_priority (p :: ps)) eqn:Hany.
  - rewrite max_of_scores.
    + simpl. unfold project_score, is_high.
      destruct (cand_priority p) as [[|]|]; reflexivity.
    + unfold project_score. destruct (cand_priority p) as [[|]|]; auto.
  - assert (Hno : existsb is_high (p :: ps) = false).
    { apply not_true_is_false. intros H. apply existsb_exists in H.
      destruct H as (x & Hx & Hh).
      assert (existsb has_priority (p :: ps) = true).
      { apply existsb_exists. exists x. split; [exact Hx|].
        unfold is_high in Hh. unfold has_priority.
        destruct (cand_priority x); [reflexivity|discriminate]. }
      congruence. }
    now rewrite Hno.
Qed.

Lemma unique_by_subset (same : text -> text -> bool) (todo seen : list candidate)
    (c : candidate) :
  In c (unique_by same seen todo) -> In c seen \/ In c todo.
Proof.
  revert seen. induction todo as [|x todo IH]; simpl; intros seen H; [now left|].
  destruct (existsb _ seen).
  - destruct (IH _ H); auto.
  - destruct (IH _ H) as [H'|H']; auto.
    apply in_app_or in H'. destruct H' as [H'|[<-|[]]]; auto.
Qed.

(** Among the candidates of [identify_projects], exactly those matched
    through the channel carry no priority. *)
Lemma channel_candidates_lack_priority (config : ProjectConfig)
    (text : Text.text) (channel : option Text.text) (c : candidate) :
  In c (identify_projects config text channel) ->
  (has_priority c = false <-> cand_source c = from_channel).
Proof.
  unfold identify_projects. intros H.
  apply unique_by_subset in H. destruct H as [[]|H].
  repeat (apply in_app_or in H; destruct H as [H|H]).
  - destruct (tracked_channel config channel); [|destruct H].
    destruct H as [<-|[]]. simpl. split; reflexivity.
  - apply in_flat_map in H. destruct H as ([k owners] & _ & H).
    destruct (contains k _); [|destruct H].
    apply in_map_iff in H. destruct H as (o & <- & _).
    unfold has_priority. simpl. split; discriminate.
  - apply in_flat_map in H. destruct H as (sym & _ & H).
    apply in_flat_map in H. destruct H as ([pr pj] & _ & H).
    destruct (text_eqb _ _); [|destruct H]. destruct H as [<-|[]].
    unfold has_priority. simpl. split; discriminate.
  - apply in_flat_map in H. destruct H as (ct & _ & H).
    apply in_flat_map in H. destruct H as ([pr pj] & _ & H).
    destruct (existsb _ _); [|destruct H]. destruct H as [<-|[]].
    unfold has_priority. simpl. split; discriminate.
Qed.

(** C4, as the code has it.  With a non-empty list of matched projects the
    score is multiplied by 1.5 when some entry carries the priority
    ['high_priority'], by 1.2 when some entry carries a priority but none
    is high, and by 1.0 when no entry carries a priority at all; the
    entries [identify_projects] produces without a priority are exactly
    those matched through the channel. *)
Theorem C4_project_multiplier (a : analysis) (p : candidate)
    (ps : list candidate) :
  projects a = p :: ps ->
  calculate_priority_score a ==
    (if existsb is_high (p :: ps) then 1.5
     else if existsb has_priority (p :: ps) then 1.2 else 1.0)
    * calculate_priority_score (without_projects a)
  /\ (forall config text channel,
        projects a = identify_projects config text channel ->
        forall c, In c (projects a) ->
                  (has_priority c = false <-> cand_source c = from_channel)).
Proof.
  intros Hp. split.
  - unfold calculate_priority_score. rewrite Hp. cbn [without_projects projects
      context categories source_weight].
    rewrite max_project_score_cases.
    set (m := if existsb is_high (p :: ps) then 1.5
              else if existsb has_priority (p :: ps) then 1.2 else 1.0).
    rewrite (Qmult_comm 1.0 m).
    rewrite !when_scale. ring.
  - intros config text channel Hid c Hc. rewrite Hid in Hc.
    eapply channel_candidates_lack_priority; eassumption.
Qed.

Lemma C4_project_multiplier_witness :
  calculate_priority_score Examples.channel_only ==
  1.0 * calculate_priority_score (without_projects Examples.channel_only).
Proof.
  refine (proj1 (@C4_project_multiplier Examples.channel_only
                   {| cand_name := txt "Alpha"; cand_priority := None;
                      cand_confidence := 1.0; cand_source := from_channel |}
                   [] _)).
  vm_compute. reflexivity.
Defined.

(** C4 as stated fails: a message matched to the high-priority project
    Alpha through its official channel has a non-empty project list, yet
    its score is multiplied by 1.0, neither 1.5 nor 1.2. *)
Lemma C4_counterexample :
  projects Examples.channel_only <> [] /\
  calculate_priority_score (without_projects Examples.channel_only) == 1 /\
  calculate_priority_score Examples.channel_only == 1 /\
  ~ calculate_priority_score Examples.channel_only == 1.5 /\
  ~ calculate_priority_score Examples.channel_only == 1.2.
Proof.
  repeat split; vm_compute; discriminate.
Qed.

Lemma mem_incl (l : string) (L L' : list string) :
  incl L L' -> mem l L = true -> mem l L' = true.
Proof.
  unfold mem. intros Hi H. apply existsb_exists in H.
  destruct H as (x & Hx & He). apply existsb_exists. exists x. auto.
Qed.

Lemma when_mono (l : string) (L L' : list string) (f s s' : Q) :
  incl L L' -> 1 <= f -> 0 < s /\ s <= s' ->
  0 < when l L f s /\ when l L f s <= when l L' f s'.
Proof.
  intros Hi Hf [Hs Hss]. unfold when.
  destruct (mem l L) eqn:E.
  - rewrite (mem_incl l Hi E). split; nra.
  - destruct (mem l L'); split; nra.
Qed.

Lemma max_project_score_positive (p : candidate) (ps : list candidate) :
  0 < max_project_score p ps.
Proof.
  rewrite max_project_score_cases.
  destruct (existsb is_high _); [reflexivity|].
  destruct (existsb has_priority _); reflexivity.
Qed.

Lemma fold_left_invariant (A B : Type) (Inv : A -> Prop) (f : A -> B -> A)
    (l : list B) (init : A) :
  (forall acc x, Inv acc -> Inv (f acc x)) -> Inv init -> Inv (fold_left f l init).
Proof.
  intros Hstep. revert init. induction l as [|x l IH]; simpl; auto.
Qed.

Lemma dict_set_all (V : Type) (P : V -> Prop) (k : text) (v : V) (d : dict V) :
  P v -> Forall (fun kv => P (snd kv)) d ->
  Forall (fun kv => P (snd kv)) (dict_set k v d).
Proof.
  intros Hv. induction 1 as [|[k' v'] d Hk Hd IH]; simpl.
  - repeat constructor. exact Hv.
  - destruct (text_eqb k k'); constructor; auto.
Qed.

Lemma dict_get_all (V : Type) (P : V -> Prop) (k : text) (v : V) (d : dict V) :
  Forall (fun kv => P (snd kv)) d -> dict_get k d = Some v -> P v.
Proof.
  induction 1 as [|[k' v'] d Hk Hd IH]; simpl; [discriminate|].
  destruct (text_eqb k k'); [|exact IH].
  intros H. injection H as <-. exact Hk.
Qed.

Lemma tracked_channels_positive (config : ProjectConfig) :
  Forall (fun kv : text * channel_info => 0 < weight (snd kv))
    (tracked_channels config).
Proof.
  unfold tracked_channels, get_all_channels.
  apply fold_left_invariant; [|constructor].
  intros acc [pr pj] Hacc. cbn [snd].
  apply fold_left_invariant.
  - intros acc' ch Hacc'.
    apply (@dict_set_all _ (fun i => 0 < weight i)); [reflexivity|exact Hacc'].
  - apply fold_left_invariant; [|exact Hacc].
    intros acc' ch Hacc'.
    apply (@dict_set_all _ (fun i => 0 < weight i)); [reflexivity|exact Hacc'].
Qed.

(** Whatever the source type and the channel, the weight the classifier
    resolves is one of 1.0, 0.8, 0.6, 0.4: strictly positive. *)
Lemma get_source_weight_positive (config : ProjectConfig) (source_type : string)
    (channel : option text) :
  0 < get_source_weight config source_type channel.
Proof.
  unfold get_source_weight.
  destruct (tracked_channel config channel) as [info|] eqn:E.
  - unfold tracked_channel in E. destruct channel as [[|c ch]|]; try discriminate.
    apply (@dict_get_all _ (fun i => 0 < weight i) _ _ _
             (tracked_channels_positive config) E).
  - unfold source_weights. cbn [weights_get].
    repeat match goal with
           | |- context [String.eqb ?a ?b] => destruct (String.eqb a b)
           end; reflexivity.
Qed.

(** C8.  With a strictly positive source weight the priority score is
    strictly positive, and it does not decrease when context indicators or
    categories are added while the matched projects and the source weight
    stay the same. *)
Theorem C8_priority_positive_and_monotone (a a' : analysis) :
  0 < source_weight a ->
  projects a' = projects a ->
  source_weight a' = source_weight a ->
  incl (context a) (context a') ->
  incl (categories a) (categories a') ->
  0 < calculate_priority_score a /\
  calculate_priority_score a <= calculate_priority_score a'.
Proof.
  intros Hw Hp Hsw Hctx Hcat. unfold calculate_priority_score.
  rewrite Hp, Hsw.
  set (s0 := match projects a with
             | [] => 1.0
             | p :: ps => 1.0 * max_project_score p ps
             end).
  assert (H0 : 0 < s0 /\ s0 <= s0).
  { split; [|apply Qle_refl]. unfold s0. destruct (projects a) as [|p ps].
    - reflexivity.
    - pose proof (max_project_score_positive p ps). nra. }
  pose proof (when_mono "high_impact" (f := 1.3) Hctx ltac:(discriminate) H0) as H1.
  pose proof (when_mono "time_sensitive" (f := 1.4) Hctx ltac:(discriminate) H1) as H2.
  pose proof (when_mono "alpha" (f := 1.2) Hctx ltac:(discriminate) H2) as H3.
  pose proof (when_mono "risk" (f := 1.5) Hctx ltac:(discriminate) H3) as H4.
  pose proof (when_mono "opportunity" (f := 1.25) Hctx ltac:(discriminate) H4) as H5.
  pose proof (when_mono "urgent_action" (f := 1.5) Hcat ltac:(discriminate) H5) as H6.
  pose proof (when_mono "active_investment" (f := 1.3) Hcat ltac:(discriminate) H6) as H7.
  pose proof (when_mono "project_launch" (f := 1.25) Hcat ltac:(discriminate) H7) as H8.
  pose proof (when_mono "upcoming_opportunity" (f := 1.35) Hcat ltac:(discriminate) H8)
    as [H9 H10].
  split; nra.
Qed.

Lemma C8_priority_positive_and_monotone_witness :
  0 < calculate_priority_score Examples.quiet /\
  calculate_priority_score Examples.quiet <=
  calculate_priority_score Examples.urgent.
Proof.
  apply C8_priority_positive_and_monotone.
  - reflexivity.
  - reflexivity.
  - reflexivity.
  - intros x [].
  - intros x [].
Defined.

End ScorerFacts.

(* ================================================================== *)
(** * Properties of the text primitives *)
(* ================================================================== *)

Section TextFacts.

Lemma code_of_nat (n : nat) : n < 256 -> code (ascii_of_nat n) = n.
Proof. intros H. unfold code. now apply nat_ascii_embedding. Qed.

Lemma code_bound (c : ascii) : code c < 256.
Proof. unfold code. apply nat_ascii_bounded. Qed.

Lemma to_upper_upper (c : ascii) : is_lower c = true -> is_upper (to_upper c) = true.
Proof.
  intros H. unfold to_upper. rewrite H. unfold is_upper, is_lower in *.
  pose proof (code_bound c).
  apply andb_true_iff in H. destruct H as [H1 H2].
  apply Nat.leb_le in H1, H2.
  rewrite code_of_nat by lia.
  apply andb_true_iff. split; apply Nat.leb_le; lia.
Qed.

Lemma to_lower_fixed (c : ascii) : is_upper c = false -> to_lower c = c.
Proof. intros H. unfold to_lower. now rewrite H. Qed.

Lemma starts_with_contains (w s : text) : starts_with w s = true -> contains w s = true.
Proof. intros H. destruct s; simpl; rewrite H; reflexivity. Qed.

Lemma contains_app_r (w pre s : text) :
  contains w s = true -> contains w (pre ++ s) = true.
Proof.
  intros H. induction pre as [|c pre IH]; simpl; [exact H|].
  rewrite IH. apply orb_true_r.
Qed.

Lemma starts_with_app (a b s : text) :
  starts_with (a ++ b) s = true -> starts_with b (skipn (length a) s) = true.
Proof.
  revert s. induction a as [|x a IH]; intros s H; simpl in *; [exact H|].
  destruct s as [|c s]; [discriminate|].
  apply andb_true_iff in H. destruct H as [_ H]. now apply IH.
Qed.

Lemma starts_with_prefix (a b s : text) :
  starts_with (a ++ b) s = true -> starts_with a s = true.
Proof.
  revert s. induction a as [|x a IH]; intros s H; simpl in *; [reflexivity|].
  destruct s as [|c s]; [discriminate|].
  apply andb_true_iff in H. destruct H as [H1 H]. rewrite H1. now apply IH.
Qed.

Lemma contains_skipn (w s : text) (k : nat) :
  contains w (skipn k s) = true -> contains w s = true.
Proof.
  intros H. rewrite <- (firstn_skipn k s). now apply contains_app_r.
Qed.

Lemma lower_skipn (k : nat) (s : text) : lower (skipn k s) = skipn k (lower s).
Proof. unfold lower. symmetry. apply skipn_map. Qed.

(** A literal [a ++ w ++ b] at the start of the text puts [w] in the text. *)
Lemma starts_with_infix (a w b s : text) :
  starts_with (a ++ w ++ b) s = true -> contains w s = true.
Proof.
  intros H. apply starts_with_app in H. apply starts_with_prefix in H.
  apply contains_skipn with (k := length a). now apply starts_with_contains.
Qed.
Lemma lower_app (a b : text) : lower (a ++ b) = lower a ++ lower b.
Proof. unfold lower. apply map_app. Qed.

End TextFacts.

(* ================================================================== *)
(** * Properties of the regular-expression fragment *)
(* ================================================================== *)

Section RegexFacts.

Import Re.

Lemma fold_case_literal (a c : ascii) :
  is_upper a = false -> fold_case (Ascii.eqb a) c = true -> to_lower c = a.
Proof.
  intros Ha H. unfold fold_case in H.
  apply orb_true_iff in H. destruct H as [H|H].
  - apply orb_true_iff in H. destruct H as [H|H]; apply Ascii.eqb_eq in H.
    + subst c. now apply to_lower_fixed.
    + now symmetry.
  - apply Ascii.eqb_eq in H. destruct (is_lower c) eqn:El.
    + pose proof (to_upper_upper c El) as Hu. congruence.
    + unfold to_upper in H. rewrite El in H. subst c. now apply to_lower_fixed.
Qed.

Lemma backtrack_eq (A : Type) (try : nat -> option A) (lo k : nat) :
  backtrack try lo k =
  if k <? lo then None
  else match try k with
       | Some r => Some r
       | None => match k with
                 | O => None
                 | S k' => backtrack try lo k'
                 end
       end.
Proof. destruct k; reflexivity. Qed.

Lemma backtrack_some (A : Type) (try : nat -> option A) (lo k : nat) (r : A) :
  backtrack try lo k = Some r ->
  exists j, lo <= j <= k /\ try j = Some r.
Proof.
  induction k as [|k IH]; rewrite backtrack_eq;
    match goal with |- context [?a <? lo] =>
      destruct (Nat.ltb_spec a lo) as [Hlt|Hge] end; try discriminate.
  - destruct (try 0) eqn:E; [|discriminate].
    intros H. injection H as <-. exists 0. split; [lia|exact E].
  - destruct (try (S k)) eqn:E.
    + intros H. injection H as <-. exists (S k). split; [lia|exact E].
    + intros H. destruct (IH H) as (j & Hj & Hr).
      exists j. split; [lia|exact Hr].
Qed.

Lemma run_positive (cls : ascii -> bool) (s : text) :
  0 < run cls s -> exists c s', s = c :: s' /\ cls c = true.
Proof.
  destruct s as [|c s']; simpl; [lia|].
  destruct (cls c) eqn:E; [|lia]. intros _. eauto.
Qed.

(** A successful match of a repetition consumed [j] characters of the
    class and the rest of the pattern matched after them. *)
Lemma match_rep_inv (capture : bool) (cls : ascii -> bool) (lo : nat)
    (hi : option nat) (p : pattern) (prev : option ascii) (s : text)
    (n : nat) (g : option text) :
  match_here (Rep capture cls lo hi :: p) prev s = Some (n, g) ->
  exists j n' g',
    lo <= j <= capped hi (run cls s) /\
    match_here p (prev_after prev s j) (skipn j s) = Some (n', g') /\
    n = j + n' /\
    g = if capture then Some (firstn j s) else g'.
Proof.
  intros H. cbn [match_here] in H.
  apply backtrack_some in H. destruct H as (j & Hj & H).
  destruct (match_here p (prev_after prev s j) (skipn j s)) as [[n' g']|] eqn:E;
    [|discriminate].
  injection H as <- <-. exists j, n', g'. repeat split; solve [lia | exact E].
Qed.

(** A one-character item consumed exactly one character of its class. *)
Lemma match_one_inv (cls : ascii -> bool) (p : pattern) (prev : option ascii)
    (s : text) (n : nat) (g : option text) :
  match_here (Rep false cls 1 (Some 1) :: p) prev s = Some (n, g) ->
  exists c s' n',
    s = c :: s' /\ cls c = true /\
    match_here p (Some c) s' = Some (n', g) /\ n = S n'.
Proof.
  intros H.
  apply match_rep_inv in H. destruct H as (j & n' & g' & Hj & Hm & -> & ->).
  unfold capped in Hj.
  assert (Hrun : 0 < run cls s) by lia.
  destruct (run_positive cls s Hrun) as (c & s' & -> & Hc).
  assert (j = 1) by lia. subst j.
  exists c, s', n'. repeat split; assumption.
Qed.

Lemma ignorecase_app (p q : pattern) : ignorecase (p ++ q) = ignorecase p ++ ignorecase q.
Proof. unfold ignorecase. apply map_app. Qed.

(** A case-folded literal matched: the lower-cased text starts with it. *)
Lemma match_literal_ci (w : text) (p : pattern) (prev : option ascii) (s : text)
    (n : nat) (g : option text) :
  Forall (fun a => is_upper a = false) w ->
  match_here (ignorecase (map chr w) ++ p) prev s = Some (n, g) ->
  starts_with w (lower s) = true /\
  exists prev' n',
    match_here p prev' (skipn (length w) s) = Some (n', g) /\ n = length w + n'.
Proof.
  intros Hw. revert prev s n. induction Hw as [|a w Ha Hw IH]; intros prev s n H.
  - simpl in *. split; [reflexivity|]. exists prev, n. split; [exact H|reflexivity].
  - change (ignorecase (map chr (a :: w)) ++ p)
      with (Rep false (fold_case (Ascii.eqb a)) 1 (Some 1)
              :: (ignorecase (map chr w) ++ p)) in H.
    apply match_one_inv in H. destruct H as (c & s' & n' & -> & Hc & Hm & ->).
    apply (fold_case_literal a c Ha) in Hc.
    destruct (IH _ _ _ Hm) as (Hs & prev' & n'' & Hm' & ->).
    split.
    + simpl. rewrite Hc, Ascii.eqb_refl. exact Hs.
    + exists prev', n''. split; [exact Hm'|reflexivity].
Qed.

(** Every result of [findall] comes from a match at some position. *)
Lemma findall_from_match (p : pattern) (s : text) (skip : nat)
    (prev : option ascii) (g : text) :
  In g (findall_from p skip prev s) ->
  exists pre s' prev' n group,
    s = pre ++ s' /\
    match_here p prev' s' = Some (S n, group) /\
    g = match group with Some g' => g' | None => firstn (S n) s' end.
Proof.
  revert skip prev. induction s as [|c s IH]; intros skip prev; simpl; [intros []|].
  assert (Hrec : forall k q, In g (findall_from p k q s) ->
            exists pre s' prev' n group,
              c :: s = pre ++ s' /\
              match_here p prev' s' = Some (S n, group) /\
              g = match group with Some g' => g' | None => firstn (S n) s' end).
  { intros k q H. destruct (IH _ _ H) as (pre & s' & prev' & n & grp & -> & Hm & Hg).
    exists (c :: pre), s', prev', n, grp. repeat split; assumption. }
  destruct skip as [|k]; [|apply Hrec].
  destruct (match_here p prev (c :: s)) as [[[|n] grp]|] eqn:E; try apply Hrec.
  intros [<-|H]; [|eapply Hrec; exact H].
  exists [], (c :: s), prev, n, grp. repeat split. exact E.
Qed.

(** [re.sub] invents no character. *)
Lemma sub_from_chars (p : pattern) (repl s : text) (skip : nat)
    (prev : option ascii) (x : ascii) :
  In x (sub_from p repl skip prev s) -> In x s \/ In x repl.
Proof.
  revert skip prev. induction s as [|c s IH]; intros skip prev; simpl; [intros []|].
  destruct skip as [|k].
  - destruct (match_here p prev (c :: s)) as [[[|n] grp]|].
    + intros [<-|H]; [auto|]. destruct (IH _ _ H); auto.
    + intros H. apply in_app_or in H. destruct H as [H|H]; [auto|].
      destruct (IH _ _ H); auto.
    + intros [<-|H]; [auto|]. destruct (IH _ _ H); auto.
  - intros H. destruct (IH _ _ H); auto.
Qed.

Lemma lstrip_chars (s : text) (x : ascii) : In x (lstrip s) -> In x s.
Proof.
  induction s as [|c s IH]; simpl; [easy|].
  destruct (is_space c); [auto|]. intros H; exact H.
Qed.

Lemma strip_chars (s : text) (x : ascii) : In x (strip s) -> In x s.
Proof.
  unfold strip, rstrip. intros H.
  apply in_rev, lstrip_chars, in_rev, lstrip_chars in H. exact H.
Qed.

Lemma replace_char_chars (a b : ascii) (s : text) (x : ascii) :
  In x (replace_char a b s) -> x = b \/ (In x s /\ x <> a).
Proof.
  unfold replace_char. intros H. apply in_map_iff in H.
  destruct H as (c & Hc & Hin).
  destruct (Ascii.eqb_spec c a); [left; congruence|].
  right. subst x. split; assumption.
Qed.

End RegexFacts.

(* ================================================================== *)
(** * Properties of text normalisation *)
(* ================================================================== *)

Section NormalisationFacts.

Import Re Scan Classifier.

Lemma match_chr_step (a : ascii) (p : pattern) (prev : option ascii) (s : text) :
  match_here (chr a :: p) prev s =
  match s with
  | c :: s' =>
      if Ascii.eqb a c
      then match match_here p (Some c) s' with
           | Some (n, g) => Some (S n, g)
           | None => None
           end
      else None
  | [] => None
  end.
Proof.
  unfold chr. cbn [match_here]. destruct s as [|c s']; [reflexivity|].
  cbn [run]. destruct (Ascii.eqb a c); [|reflexivity].
  cbn [capped]. rewrite !backtrack_eq. cbn.
  destruct (match_here p (Some c) s') as [[n g]|]; reflexivity.
Qed.

Lemma match_opt_step (a : ascii) (p : pattern) (prev : option ascii) (s : text) :
  match_here (Rep false (Ascii.eqb a) 0 (Some 1) :: p) prev s =
  match s with
  | c :: s' =>
      if Ascii.eqb a c
      then match match_here p (Some c) s' with
           | Some (n, g) => Some (S n, g)
           | None => match_here p prev s
           end
      else match_here p prev s
  | [] => match_here p prev []
  end.
Proof.
  cbn [match_here]. destruct s as [|c s'].
  - cbn. destruct (match_here p prev []) as [[n g]|]; reflexivity.
  - cbn [run]. destruct (Ascii.eqb a c).
    + cbn [capped]. rewrite !backtrack_eq. cbn.
      destruct (match_here p (Some c) s') as [[n g]|]; [reflexivity|].
      destruct (match_here p prev (c :: s')) as [[n g]|]; reflexivity.
    + cbn. destruct (match_here p prev (c :: s')) as [[n g]|]; reflexivity.
Qed.

Lemma match_plus_last (cls : ascii -> bool) (prev : option ascii) (s : text) :
  match_here [Rep false cls 1 None] prev s =
  if 0 <? run cls s then Some (run cls s, None) else None.
Proof.
  cbn [match_here capped]. rewrite backtrack_eq.
  destruct (run cls s) as [|k]; [reflexivity|].
  cbn. rewrite Nat.add_0_r. reflexivity.
Qed.
Ltac case_char :=
  match goal with
  | |- context [Ascii.eqb ?a ?c] =>
      is_var c;
      let E := fresh "E" in
      destruct (Ascii.eqb a c) eqn:E;
      [apply Ascii.eqb_eq in E; subst c | ]; cbn -[match_here Ascii.eqb]
  end.

Ltac next_char s :=
  rewrite ?match_chr_step;
  destruct s as [|? s]; [reflexivity|]; cbn -[match_here Ascii.eqb]; case_char; [|reflexivity].

Lemma url_tail_spec (prev : option ascii) (s : text) :
  match_here (lit "://" ++ [Rep false non_space 1 None]) prev s =
  if starts_with (txt "://") s && nonspace_head (skipn 3 s)
  then Some (3 + run non_space (skipn 3 s), None) else None.
Proof.
  unfold lit. cbn [txt list_ascii_of_string map app].
  do 3 next_char s.
  rewrite match_plus_last.
  destruct s as [|c s]; [reflexivity|]. cbn -[Ascii.eqb].
  destruct (non_space c); reflexivity.
Qed.

Lemma url_match_spec (prev : option ascii) (s : text) :
  match_here url_pattern prev s =
  if url_shape s then Some (run non_space s, None) else None.
Proof.
  unfold url_pattern, url_shape.
  change (lit "http" ++ [Rep false (Ascii.eqb "s") 0 (Some 1)] ++ lit "://"
          ++ [Rep false non_space 1 None])
    with (chr "h" :: chr "t" :: chr "t" :: chr "p"
          :: Rep false (Ascii.eqb "s") 0 (Some 1)
          :: (lit "://" ++ [Rep false non_space 1 None])).
  do 4 next_char s.
  rewrite match_opt_step.
  destruct s as [|c s]; [rewrite url_tail_spec; reflexivity|].
  destruct (Ascii.eqb "s" c) eqn:E.
  - apply Ascii.eqb_eq in E. subst c. rewrite !url_tail_spec.
    cbn -[Ascii.eqb].
    destruct s as [|c0 s]; [reflexivity|]. cbn -[Ascii.eqb]. case_char; [|reflexivity].
    destruct s as [|c0 s]; [reflexivity|]. cbn -[Ascii.eqb]. case_char; [|reflexivity].
    destruct s as [|c0 s]; [reflexivity|]. cbn -[Ascii.eqb]. case_char; [|reflexivity].
    destruct s as [|c0 s]; [reflexivity|]. cbn -[Ascii.eqb].
    destruct (non_space c0); reflexivity.
  - rewrite url_tail_spec. cbn -[Ascii.eqb].
    case_char; [|reflexivity].
    destruct s as [|c0 s]; [reflexivity|]. cbn -[Ascii.eqb]. case_char; [|reflexivity].
    destruct s as [|c0 s]; [reflexivity|]. cbn -[Ascii.eqb]. case_char; [|reflexivity].
    destruct s as [|c0 s]; [reflexivity|]. cbn -[Ascii.eqb].
    destruct (non_space c0); reflexivity.
Qed.
Lemma url_shape_nonspace (c : ascii) (s : text) :
  url_shape (c :: s) = true -> is_space c = false.
Proof.
  unfold url_shape. cbn -[Ascii.eqb].
  destruct (Ascii.eqb "h" c) eqn:E; [|discriminate].
  apply Ascii.eqb_eq in E. subst c. reflexivity.
Qed.

Lemma sub_url_scan (s : text) :
  forall prev,
    sub_from url_pattern [] 0 prev s = drop_urls false s /\
    sub_from url_pattern [] (run non_space s) prev s = drop_urls true s.
Proof.
  induction s as [|c s IH]; intros prev; [split; reflexivity|].
  destruct (IH (Some c)) as [IH0 IH1].
  assert (H0 : sub_from url_pattern [] 0 prev (c :: s) = drop_urls false (c :: s)).
  { cbn [sub_from drop_urls]. rewrite url_match_spec.
    destruct (url_shape (c :: s)) eqn:E.
    - apply url_shape_nonspace in E. cbn [run]. unfold non_space. rewrite E.
      cbn [negb app]. exact IH1.
    - now rewrite IH0. }
  split; [exact H0|].
  cbn [run]. unfold non_space at 1. destruct (is_space c) eqn:E; cbn [negb].
  - rewrite H0. cbn [drop_urls]. rewrite E.
    destruct (url_shape (c :: s)) eqn:Eu; [|reflexivity].
    apply url_shape_nonspace in Eu. congruence.
  - cbn [sub_from drop_urls]. rewrite E. exact IH1.
Qed.

Lemma sub_spaces_scan (s : text) :
  forall prev,
    sub_from spaces_pattern (txt " ") 0 prev s = squeeze false s /\
    sub_from spaces_pattern (txt " ") (run is_space s) prev s = squeeze true s.
Proof.
  induction s as [|c s IH]; intros prev; [split; reflexivity|].
  destruct (IH (Some c)) as [IH0 IH1].
  assert (H0 : sub_from spaces_pattern (txt " ") 0 prev (c :: s)
               = squeeze false (c :: s)).
  { cbn [sub_from squeeze]. unfold spaces_pattern. rewrite match_plus_last.
    cbn [run]. destruct (is_space c).
    - cbn. f_equal. exact IH1.
    - cbn. f_equal. exact IH0. }
  split; [exact H0|].
  cbn [run]. destruct (is_space c) eqn:E.
  - cbn [sub_from squeeze]. rewrite E. exact IH1.
  - rewrite H0. cbn [squeeze]. rewrite E. reflexivity.
Qed.

Lemma token_split (s : text) : exists rest, s = token s ++ rest.
Proof.
  induction s as [|c s [rest IH]]; [now exists []|].
  simpl. destruct (is_space c).
  - now exists (c :: s).
  - exists rest. simpl. now f_equal.
Qed.

Lemma starts_with_app_r (w a b : text) :
  starts_with w a = true -> starts_with w (a ++ b) = true.
Proof.
  revert a. induction w as [|x w IH]; intros a H; [reflexivity|].
  destruct a as [|c a]; [discriminate|]. simpl in *.
  apply andb_true_iff in H. destruct H as [H1 H2].
  rewrite H1. now apply IH.
Qed.

Lemma nonspace_head_skipn_app (k : nat) (a b : text) :
  nonspace_head (skipn k a) = true -> nonspace_head (skipn k (a ++ b)) = true.
Proof.
  revert k. induction a as [|c a IH]; intros k H.
  - destruct k; discriminate.
  - destruct k as [|k]; [exact H|]. simpl in *. now apply IH.
Qed.

Lemma url_shape_app (a b : text) :
  url_shape a = true -> url_shape (a ++ b) = true.
Proof.
  unfold url_shape. intros H. apply orb_true_iff in H. apply orb_true_iff.
  destruct H as [H|H]; [left|right]; apply andb_true_iff in H;
    destruct H as [H1 H2]; apply andb_true_iff; split;
    auto using starts_with_app_r, nonspace_head_skipn_app.
Qed.

Lemma nonspace_head_token (s : text) : nonspace_head (token s) = nonspace_head s.
Proof.
  destruct s as [|c s]; [reflexivity|]. simpl. unfold non_space.
  destruct (is_space c) eqn:E; simpl; [reflexivity|].
  unfold non_space. now rewrite E.
Qed.

Lemma shape_token (w s : text) :
  forallb non_space w = true ->
  starts_with w s = true ->
  nonspace_head (skipn (length w) s) = true ->
  starts_with w (token s) = true /\
  nonspace_head (skipn (length w) (token s)) = true.
Proof.
  revert s. induction w as [|a w IH]; intros s Hw Hs Hn.
  - split; [reflexivity|]. simpl in *. now rewrite nonspace_head_token.
  - destruct s as [|c s]; [discriminate|]. simpl in Hw, Hs, Hn.
    apply andb_true_iff in Hw. destruct Hw as [Ha Hw].
    apply andb_true_iff in Hs. destruct Hs as [Hc Hs].
    apply Ascii.eqb_eq in Hc. subst c.
    unfold non_space in Ha. apply negb_true_iff in Ha.
    simpl. rewrite Ha. simpl. rewrite Ascii.eqb_refl. simpl.
    now apply IH.
Qed.

Lemma url_shape_token (s : text) :
  url_shape s = true -> url_shape (token s) = true.
Proof.
  unfold url_shape. intros H. apply orb_true_iff in H. apply orb_true_iff.
  destruct H as [H|H]; [left|right]; apply andb_true_iff in H;
    destruct H as [H1 H2]; apply andb_true_iff.
  - now apply (shape_token (txt "http://")).
  - now apply (shape_token (txt "https://")).
Qed.

Lemma url_shape_of_token (s : text) :
  url_shape (token s) = true -> url_shape s = true.
Proof.
  intros H. destruct (token_split s) as [rest Hs]. rewrite Hs.
  now apply url_shape_app.
Qed.

Lemma url_shape_space (c : ascii) (s : text) :
  is_space c = true -> url_shape (c :: s) = false.
Proof.
  intros Hc. destruct (url_shape (c :: s)) eqn:E; [|reflexivity].
  apply url_shape_nonspace in E. congruence.
Qed.

(** What [drop_urls] keeps of the first token is a prefix of it. *)
Lemma drop_urls_token (s : text) :
  token (drop_urls true s) = [] /\
  exists rest, token s = token (drop_urls false s) ++ rest.
Proof.
  induction s as [|c s [IH1 [rest IH2]]]; [split; [reflexivity|now exists []]|].
  split.
  - simpl. destruct (is_space c) eqn:E; [|exact IH1]. simpl. now rewrite E.
  - cbn [drop_urls]. destruct (url_shape (c :: s)) eqn:Eu.
    + rewrite IH1. now exists (token (c :: s)).
    + simpl. destruct (is_space c); [now exists []|].
      exists rest. simpl. now f_equal.
Qed.

Lemma url_shape_cons_prefix (c : ascii) (s d : text) (rest : text) :
  token s = token d ++ rest ->
  url_shape (c :: d) = true -> url_shape (c :: s) = true.
Proof.
  intros Hp H. pose proof (url_shape_nonspace _ _ H) as Hc.
  apply url_shape_token in H. apply url_shape_of_token.
  simpl in *. rewrite Hc in *. rewrite Hp.
  change (c :: token d ++ rest) with ((c :: token d) ++ rest).
  now apply url_shape_app.
Qed.

Lemma drop_urls_no_url (s : text) (b : bool) : no_url (drop_urls b s).
Proof.
  revert b. induction s as [|c s IH]; intros b; [exact I|].
  cbn [drop_urls]. destruct b.
  - destruct (is_space c) eqn:E; [|apply IH].
    split; [now apply url_shape_space | apply IH].
  - destruct (url_shape (c :: s)) eqn:Eu; [apply IH|].
    split; [|apply IH].
    destruct (url_shape (c :: drop_urls false s)) eqn:Ed; [|reflexivity].
    destruct (drop_urls_token s) as [_ [rest Hr]].
    rewrite (url_shape_cons_prefix c s _ rest Hr Ed) in Eu. discriminate.
Qed.

Lemma no_url_fixed (s : text) : no_url s -> drop_urls false s = s.
Proof.
  induction s as [|c s IH]; [reflexivity|]. intros [H1 H2].
  cbn [drop_urls]. rewrite H1. f_equal. now apply IH.
Qed.

Lemma no_url_suffix (a b : text) : no_url (a ++ b) -> no_url b.
Proof. induction a as [|c a IH]; [easy|]. intros [_ H]. now apply IH. Qed.

Lemma no_url_prefix (a b : text) : no_url (a ++ b) -> no_url a.
Proof.
  induction a as [|c a IH]; [easy|]. intros [H1 H2]. split; [|now apply IH].
  destruct (url_shape (c :: a)) eqn:E; [|reflexivity].
  apply (url_shape_app _ b) in E. simpl in E, H1. congruence.
Qed.

Lemma squeeze_token (s : text) : token (squeeze false s) = token s.
Proof.
  induction s as [|c s IH]; [reflexivity|]. simpl.
  destruct (is_space c) eqn:E; simpl; [reflexivity|]. rewrite E. now f_equal.
Qed.

Lemma squeeze_no_url (s : text) (b : bool) : no_url s -> no_url (squeeze b s).
Proof.
  revert b. induction s as [|c s IH]; intros b; [easy|]. intros [H1 H2].
  cbn [squeeze]. destruct (is_space c) eqn:E.
  - destruct b; [now apply IH|]. split; [now apply url_shape_space | now apply IH].
  - split; [|now apply IH].
    destruct (url_shape (c :: squeeze false s)) eqn:Ed; [|reflexivity].
    assert (Hp : token s = token (squeeze false s) ++ [])
      by (rewrite app_nil_r; symmetry; apply squeeze_token).
    rewrite (url_shape_cons_prefix c s _ [] Hp Ed) in H1. discriminate.
Qed.

Lemma squeeze_squeezed (s : text) :
  squeezed (squeeze false s) /\
  squeezed (squeeze true s) /\ spacefree_head (squeeze true s) = true.
Proof.
  induction s as [|c s (IH0 & IH1 & IH2)]; [repeat split|].
  cbn [squeeze]. destruct (is_space c) eqn:E.
  - repeat split; assumption.
  - assert (Hc : squeezed (c :: squeeze false s)).
    { split; [|assumption]. intros H. congruence. }
    split; [exact Hc|]. split; [exact Hc|].
    simpl. unfold non_space. now rewrite E.
Qed.

Lemma squeezed_fixed (s : text) :
  squeezed s ->
  squeeze false s = s /\ (spacefree_head s = true -> squeeze true s = s).
Proof.
  induction s as [|c s IH]; [split; reflexivity|]. intros [Hc Hs].
  destruct (IH Hs) as [IH0 IH1]. cbn [squeeze].
  destruct (is_space c) eqn:E.
  - destruct (Hc eq_refl) as [-> Hh]. split.
    + f_equal. now apply IH1.
    + simpl. unfold non_space. rewrite E. discriminate.
  - split; [now f_equal|]. intros _. now f_equal.
Qed.

Lemma squeezed_suffix (a b : text) : squeezed (a ++ b) -> squeezed b.
Proof. induction a as [|c a IH]; [easy|]. intros [_ H]. now apply IH. Qed.

Lemma squeezed_prefix (a b : text) : squeezed (a ++ b) -> squeezed a.
Proof.
  induction a as [|c a IH]; [easy|]. intros [H1 H2]. split; [|now apply IH].
  intros Hc. destruct (H1 Hc) as [-> Hh]. split; [reflexivity|].
  destruct a as [|d a]; [reflexivity|exact Hh].
Qed.

Lemma lstrip_split (s : text) : exists lead, s = lead ++ lstrip s.
Proof.
  induction s as [|c s [lead IH]]; [now exists []|].
  simpl. destruct (is_space c).
  - exists (c :: lead). simpl. now f_equal.
  - now exists [].
Qed.

Lemma lstrip_head (s : text) : spacefree_head (lstrip s) = true.
Proof.
  induction s as [|c s IH]; [reflexivity|]. simpl.
  destruct (is_space c) eqn:E; [exact IH|]. simpl. unfold non_space. now rewrite E.
Qed.

Lemma lstrip_fixed (s : text) : spacefree_head s = true -> lstrip s = s.
Proof.
  destruct s as [|c s]; [reflexivity|]. simpl. unfold non_space.
  destruct (is_space c); [discriminate|reflexivity].
Qed.

Lemma rstrip_split (s : text) : exists tail, s = rstrip s ++ tail.
Proof.
  unfold rstrip. destruct (lstrip_split (rev s)) as [lead H].
  exists (rev lead). rewrite <- rev_app_distr, <- H. symmetry. apply rev_involutive.
Qed.

Lemma strip_split (s : text) : exists lead tail, s = lead ++ strip s ++ tail.
Proof.
  unfold strip. destruct (lstrip_split s) as [lead H1].
  destruct (rstrip_split (lstrip s)) as [tail H2].
  exists lead, tail. now rewrite <- H2.
Qed.

Lemma strip_last (s : text) : spacefree_head (rev (strip s)) = true.
Proof.
  unfold strip, rstrip. rewrite rev_involutive. apply lstrip_head.
Qed.

Lemma strip_head (s : text) : spacefree_head (strip s) = true.
Proof.
  unfold strip. destruct (rstrip_split (lstrip s)) as [tail H].
  pose proof (lstrip_head s) as Hh. rewrite H in Hh.
  destruct (rstrip (lstrip s)) as [|c r]; [reflexivity|exact Hh].
Qed.

Lemma strip_fixed (s : text) :
  spacefree_head s = true -> spacefree_head (rev s) = true -> strip s = s.
Proof.
  intros H1 H2. unfold strip, rstrip.
  rewrite (lstrip_fixed s H1), (lstrip_fixed (rev s) H2). apply rev_involutive.
Qed.

Lemma to_lower_not_upper (c : ascii) : is_upper (to_lower c) = false.
Proof.
  unfold to_lower. destruct (is_upper c) eqn:E; [|exact E].
  unfold is_upper in *. apply andb_true_iff in E. destruct E as [E1 E2].
  apply Nat.leb_le in E1, E2. rewrite code_of_nat by lia.
  apply andb_false_iff. right. apply Nat.leb_gt. lia.
Qed.

Lemma to_lower_idempotent (c : ascii) : to_lower (to_lower c) = to_lower c.
Proof. apply to_lower_fixed, to_lower_not_upper. Qed.

Lemma settled_space : settled " ".
Proof. repeat split; discriminate. Qed.

Lemma settled_fixed (s : text) :
  Forall settled s ->
  replace_char "@" " " (replace_char "#" " " (replace_char "$" " " (lower s))) = s.
Proof.
  induction 1 as [|c s (Hl & H1 & H2 & H3) Hs IH]; [reflexivity|].
  simpl in *. rewrite IH, Hl.
  apply Ascii.eqb_neq in H1, H2, H3. now rewrite H1, H2, H3.
Qed.

Lemma normalised_settled (s : text) :
  Forall settled
    (replace_char "@" " " (replace_char "#" " " (replace_char "$" " " (lower s)))).
Proof.
  induction s as [|c s IH]; [constructor|]. simpl. constructor; [|exact IH].
  destruct (Ascii.eqb_spec (to_lower c) "$") as [|N1]; [apply settled_space|].
  destruct (Ascii.eqb_spec (to_lower c) "#") as [|N2]; [apply settled_space|].
  destruct (Ascii.eqb_spec (to_lower c) "@") as [|N3]; [apply settled_space|].
  repeat split; try assumption. apply to_lower_idempotent.
Qed.

Lemma preprocess_text_scan (s : text) :
  preprocess_text s =
  strip (squeeze false (drop_urls false
    (replace_char "@" " " (replace_char "#" " " (replace_char "$" " " (lower s)))))).
Proof.
  unfold preprocess_text, sub.
  rewrite (proj1 (sub_url_scan _ None)), (proj1 (sub_spaces_scan _ None)).
  reflexivity.
Qed.

Lemma drop_urls_chars (s : text) (b : bool) (x : ascii) :
  In x (drop_urls b s) -> In x s.
Proof.
  revert b. induction s as [|c s IH]; intros b; [easy|]. cbn [drop_urls].
  destruct b.
  - destruct (is_space c); [intros [->|H]; [now left|right; eauto] | right; eauto].
  - destruct (url_shape (c :: s)); [right; eauto|].
    intros [->|H]; [now left|right; eauto].
Qed.

Lemma squeeze_chars (s : text) (b : bool) (x : ascii) :
  In x (squeeze b s) -> x = " "%char \/ In x s.
Proof.
  revert b. induction s as [|c s IH]; intros b; [easy|]. cbn [squeeze].
  destruct (is_space c).
  - destruct b.
    + intros H. destruct (IH _ H); [now left|right; now right].
    + intros [<-|H]; [now left|]. destruct (IH _ H); [now left|right; now right].
  - intros [->|H]; [right; now left|]. destruct (IH _ H); [now left|right; now right].
Qed.

(** C9.  Normalisation is idempotent: normalising a normalised text changes
    nothing. *)
Theorem C9_preprocess_text_idempotent (x : text) :
  preprocess_text (preprocess_text x) = preprocess_text x.
Proof.
  set (n := replace_char "@" " " (replace_char "#" " "
              (replace_char "$" " " (lower x)))).
  assert (Ht : preprocess_text x = strip (squeeze false (drop_urls false n)))
    by apply preprocess_text_scan.
  set (t := preprocess_text x) in *.
  destruct (strip_split (squeeze false (drop_urls false n))) as (lead & tail & Hsplit).
  rewrite <- Ht in Hsplit.
  assert (Hset : Forall settled t).
  { apply Forall_forall. intros c Hc.
    assert (Hin : In c (squeeze false (drop_urls false n)))
      by (rewrite Hsplit; apply in_or_app; right; apply in_or_app; now left).
    apply squeeze_chars in Hin. destruct Hin as [->|Hin]; [apply settled_space|].
    apply drop_urls_chars in Hin.
    pose proof (normalised_settled x) as Hn. rewrite Forall_forall in Hn.
    now apply Hn. }
  assert (Hurl : no_url t).
  { pose proof (squeeze_no_url _ false (drop_urls_no_url n false)) as H.
    rewrite Hsplit in H. now apply no_url_suffix, no_url_prefix in H. }
  assert (Hsq : squeezed t).
  { pose proof (proj1 (squeeze_squeezed (drop_urls false n))) as H.
    rewrite Hsplit in H. now apply squeezed_suffix, squeezed_prefix in H. }
  assert (Hhead : spacefree_head t = true) by (rewrite Ht; apply strip_head).
  assert (Hlast : spacefree_head (rev t) = true) by (rewrite Ht; apply strip_last).
  rewrite (preprocess_text_scan t).
  rewrite (settled_fixed Hset), (no_url_fixed _ Hurl).
  rewrite (proj1 (squeezed_fixed _ Hsq)).
  now apply strip_fixed.
Qed.

End NormalisationFacts.

(* ================================================================== *)
(** * Properties of project discovery *)
(* ================================================================== *)

Section DiscoveryFacts.

Import Config Classifier Re.
Local Open Scope Q_scope.

(** What [detect_new_projects] guarantees of each candidate it returns. *)
Lemma detect_new_projects_candidate (config : ProjectConfig) (text : Text.text)
    (c : candidate) :
  In c (detect_new_projects config text) ->
  cand_confidence c = discovery_confidence text (cand_name c) /\
  is_known_project config (cand_name c) = false /\
  exists pattern, In pattern discovery_patterns /\
                  In (cand_name c) (findall pattern text).
Proof.
  unfold detect_new_projects. intros H.
  apply unique_by_subset in H. destruct H as [[]|H].
  apply in_flat_map in H. destruct H as (pattern & Hp & H).
  apply in_flat_map in H. destruct H as (m & Hm & H).
  destruct (is_known_project config m) eqn:Hk; simpl in H; [destruct H|].
  destruct H as [<-|[]]. simpl. repeat split; [exact Hk|].
  exists pattern. split; assumption.
Qed.

Lemma signal_counted (kw : Text.text) (s : Text.text) :
  In kw nearby_keywords -> contains kw (lower s) = true ->
  (1 <= nearby_count s)%nat.
Proof.
  intros Hin Hc. unfold nearby_count.
  assert (H : In kw (filter (fun keyword => contains keyword (lower s))
                       nearby_keywords))
    by (apply filter_In; split; assumption).
  destruct (filter _ nearby_keywords); [destruct H | simpl; lia].
Qed.

Lemma nearby_count_le (s : Text.text) : (nearby_count s <= 5)%nat.
Proof. unfold nearby_count. apply (filter_length_le _ nearby_keywords). Qed.

Lemma not_upper_literal (w : string) :
  forallb (fun a => negb (is_upper a)) (txt w) = true ->
  Forall (fun a => is_upper a = false) (txt w).
Proof.
  intros H. apply Forall_forall. intros a Ha.
  rewrite forallb_forall in H. apply negb_true_iff. now apply H.
Qed.

(** A name followed by a case-folded literal that holds a signal word. *)
Lemma name_then_literal (cls : ascii -> bool) (lo : nat) (hi : option nat)
    (w : string) (a kw b : Text.text) (prev : option ascii) (s : Text.text)
    (n : nat) (g : option Text.text) :
  forallb (fun a => negb (is_upper a)) (txt w) = true ->
  txt w = a ++ kw ++ b ->
  match_here (Rep true cls lo hi :: ignorecase (lit w)) prev s = Some (n, g) ->
  contains kw (lower s) = true.
Proof.
  intros Hw Hsplit H.
  apply match_rep_inv in H. destruct H as (j & n' & g' & _ & Hm & _ & _).
  rewrite <- (app_nil_r (ignorecase (lit w))) in Hm.
  apply match_literal_ci in Hm; [|now apply not_upper_literal].
  destruct Hm as [Hs _]. rewrite Hsplit in Hs.
  apply starts_with_infix in Hs. rewrite lower_skipn in Hs.
  now apply contains_skipn in Hs.
Qed.

(** A case-folded literal that holds a signal word, then anything. *)
Lemma literal_then_rest (w : string) (rest : pattern) (a kw b : Text.text)
    (prev : option ascii) (s : Text.text) (n : nat) (g : option Text.text) :
  forallb (fun a => negb (is_upper a)) (txt w) = true ->
  txt w = a ++ kw ++ b ->
  match_here (ignorecase (lit w) ++ rest) prev s = Some (n, g) ->
  contains kw (lower s) = true.
Proof.
  intros Hw Hsplit H.
  apply match_literal_ci in H; [|now apply not_upper_literal].
  destruct H as [Hs _]. rewrite Hsplit in Hs.
  now apply starts_with_infix in Hs.
Qed.

(** Each discovery pattern spells out one of the signal words, so a text
    it matches holds that word. *)
Lemma discovery_match_has_signal (p : pattern) (prev : option ascii)
    (s : Text.text) (n : nat) (g : option Text.text) :
  In p discovery_patterns ->
  match_here p prev s = Some (n, g) ->
  (1 <= nearby_count s)%nat.
Proof.
  intros Hp H. unfold discovery_patterns in Hp. cbn [map] in Hp.
  destruct Hp as [<-|[<-|[<-|[<-|[<-|[<-|[]]]]]]]; rewrite ignorecase_app in H.
  - apply (@signal_counted (txt "project") s); [simpl; tauto|].
    eapply (@literal_then_rest "new project" _ (txt "new ") (txt "project") []);
      [reflexivity | reflexivity | exact H].
  - apply (@signal_counted (txt "project") s); [simpl; tauto|].
    eapply (@literal_then_rest "upcoming project" _ (txt "upcoming ")
              (txt "project") []);
      [reflexivity | reflexivity | exact H].
  - apply (@signal_counted (txt "launch") s); [simpl; tauto|].
    eapply (@name_then_literal _ _ _ " is launching" (txt " is ") (txt "launch")
              (txt "ing"));
      [reflexivity | reflexivity | exact H].
  - apply (@signal_counted (txt "token") s); [simpl; tauto|].
    eapply (@name_then_literal _ _ _ " token launch" (txt " ") (txt "token")
              (txt " launch"));
      [reflexivity | reflexivity | exact H].
  - apply (@signal_counted (txt "airdrop") s); [simpl; tauto|].
    eapply (@name_then_literal _ _ _ " airdrop" (txt " ") (txt "airdrop") []);
      [reflexivity | reflexivity | exact H].
  - apply (@signal_counted (txt "launch") s); [simpl; tauto|].
    rewrite ignorecase_app in H.
    apply match_literal_ci in H; [|now apply (not_upper_literal "$")].
    destruct H as (_ & prev' & n' & H & _).
    assert (Hc : contains (txt "launch") (lower (skipn 1 s)) = true).
    { eapply (@name_then_literal _ _ _ " launch" (txt " ") (txt "launch") []);
        [reflexivity | reflexivity | exact H]. }
    rewrite lower_skipn in Hc. now apply contains_skipn in Hc.
Qed.

Lemma nearby_count_app (pre s : Text.text) :
  (nearby_count s <= nearby_count (pre ++ s))%nat.
Proof.
  unfold nearby_count. induction nearby_keywords as [|kw l IH]; simpl; [lia|].
  destruct (contains kw (lower s)) eqn:E.
  - assert (E' : contains kw (lower (pre ++ s)) = true)
      by (rewrite lower_app; apply contains_app_r; exact E).
    rewrite E'. simpl. lia.
  - destruct (contains kw (lower (pre ++ s))); simpl; lia.
Qed.

(** Every candidate sits in a text that holds a signal word. *)
Lemma candidate_has_signal (config : ProjectConfig) (text : Text.text)
    (c : candidate) :
  In c (detect_new_projects config text) -> (1 <= nearby_count text)%nat.
Proof.
  intros H. apply detect_new_projects_candidate in H.
  destruct H as (_ & _ & p & Hp & Hin).
  apply findall_from_match in Hin.
  destruct Hin as (pre & s' & prev' & n & grp & -> & Hm & _).
  pose proof (@discovery_match_has_signal _ _ _ _ _ Hp Hm).
  pose proof (nearby_count_app pre s'). lia.
Qed.




(** C7, as the code has it.  The confidence of a discovered name is 0.6,
    plus min(0.2, 0.05 x mention_count) when the name occurs more than once
    in the text (every occurrence counted, the first included), plus
    min(0.2, 0.04 x the number of the five signal words present in the
    lower-cased text); the name is not a tracked one. *)
Theorem C7_discovery_confidence (config : ProjectConfig) (text : Text.text)
    (c : candidate) :
  In c (detect_new_projects config text) ->
  let mention_count := count (lower (cand_name c)) (lower text) in
  let signals :=
    length (filter (fun w => contains (txt w) (lower text))
              ["launch"; "token"; "project"; "airdrop"; "whitelist"]%string) in
  is_known_project config (cand_name c) = false /\
  cand_confidence c ==
    0.6
    + (if (1 <? mention_count)%nat
       then Qmin 0.2 (0.05 * inject_Z (Z.of_nat mention_count)) else 0)
    + Qmin 0.2 (0.04 * inject_Z (Z.of_nat signals)).
Proof.
  intros H. apply detect_new_projects_candidate in H.
  destruct H as (Hc & Hk & _). split; [exact Hk|].
  rewrite Hc. unfold discovery_confidence, nearby_count, nearby_keywords.
  rewrite filter_map_swap, length_map.
  rewrite (Qmult_comm 0.04).
  destruct (1 <? _)%nat.
  - rewrite (Qmult_comm 0.05). reflexivity.
  - ring.
Qed.

Lemma C7_discovery_confidence_witness :
  exists c, In c (detect_new_projects Examples.tracked (txt "foo airdrop foo")) /\
            cand_confidence c == 0.74.
Proof.
  eexists. split.
  - vm_compute. left. reflexivity.
  - match goal with |- cand_confidence ?c == _ =>
      destruct (@C7_discovery_confidence Examples.tracked
                  (txt "foo airdrop foo") c) as [_ H]
    end.
    + vm_compute. left. reflexivity.
    + rewrite H. vm_compute. reflexivity.
Defined.

(** C7 as stated fails: for a name mentioned twice the code adds
    0.05 x 2 = 0.10, not 0.05 x 1. *)
Lemma C7_counterexample :
  exists c,
    detect_new_projects Examples.tracked (txt "foo airdrop foo") = [c] /\
    cand_name c = txt "foo" /\
    count (lower (cand_name c)) (lower (txt "foo airdrop foo")) = 2%nat /\
    cand_confidence c == 0.74 /\
    stated_discovery_confidence (txt "foo airdrop foo") (cand_name c) == 0.69 /\
    ~ cand_confidence c ==
      stated_discovery_confidence (txt "foo airdrop foo") (cand_name c).
Proof.
  eexists. split; [vm_compute; reflexivity|].
  repeat split; vm_compute; discriminate.
Qed.

End DiscoveryFacts.

(* ================================================================== *)
(** * Properties of project identification *)
(* ================================================================== *)

Section IdentificationFacts.

Import Config Classifier Re.
Local Open Scope Q_scope.

(** Normalisation leaves no dollar sign behind. *)
Lemma preprocess_text_no_dollar (text : Text.text) :
  ~ In "$"%char (preprocess_text text).
Proof.
  unfold preprocess_text. intros H.
  apply strip_chars in H.
  apply sub_from_chars in H. destruct H as [H|H];
    [|simpl in H; destruct H as [H|[]]; discriminate].
  apply sub_from_chars in H. destruct H as [H|[]].
  apply replace_char_chars in H. destruct H as [H|[H _]]; [discriminate|].
  apply replace_char_chars in H. destruct H as [H|[H _]]; [discriminate|].
  apply replace_char_chars in H. destruct H as [H|[_ H]]; [discriminate|].
  now apply H.
Qed.

Lemma symbol_needs_dollar (s : Text.text) :
  ~ In "$"%char s -> findall symbol_pattern s = [].
Proof.
  intros Hno. destruct (findall symbol_pattern s) as [|g l] eqn:E; [reflexivity|].
  exfalso. assert (Hin : In g (findall symbol_pattern s)) by (rewrite E; now left).
  apply findall_from_match in Hin.
  destruct Hin as (pre & s' & prev' & n & grp & -> & Hm & _).
  apply match_one_inv in Hm. destruct Hm as (c & s'' & n' & -> & Hc & _).
  apply Ascii.eqb_eq in Hc. subst c.
  apply Hno. apply in_or_app. right. now left.
Qed.

(** C5.  [identify_projects] searches the normalised text, in which every
    dollar sign has become a space: the symbol search finds nothing, no
    candidate ever comes from the symbol rule, and the text "$ABC airdrop",
    which does hold a token of the tracked symbol ABC, yields no candidate
    at all. *)
Theorem C5_symbol_rule_never_fires :
  (forall config text channel,
     findall symbol_pattern (preprocess_text text) = [] /\
     Forall (fun c => cand_source c <> from_symbol)
       (identify_projects config text channel)) /\
  findall symbol_pattern (txt "$ABC airdrop") = [txt "ABC"] /\
  Config.symbol Examples.alpha = txt "ABC" /\
  identify_projects Examples.tracked (txt "$ABC airdrop") None = [].
Proof.
  split; [|repeat split].
  intros config text channel.
  pose proof (symbol_needs_dollar _ (preprocess_text_no_dollar text)) as Hs.
  split; [exact Hs|].
  apply Forall_forall. intros c H. unfold identify_projects in H.
  rewrite Hs in H. simpl flat_map in H.
  apply unique_by_subset in H. destruct H as [[]|H].
  repeat (apply in_app_or in H; destruct H as [H|H]).
  - destruct (tracked_channel config channel); [|destruct H].
    destruct H as [<-|[]]. discriminate.
  - apply in_flat_map in H. destruct H as ([k owners] & _ & H).
    destruct (contains k _); [|destruct H].
    apply in_map_iff in H. destruct H as (o & <- & _). discriminate.
  - destruct H.
  - apply in_flat_map in H. destruct H as (ct & _ & H).
    apply in_flat_map in H. destruct H as ([pr pj] & _ & H).
    destruct (existsb _ _); [|destruct H]. destruct H as [<-|[]]. discriminate.
Qed.

End IdentificationFacts.

(* ================================================================== *)
(** * Further properties of the opportunity analyzer *)
(* ================================================================== *)

Section AnalyzerExtras.

Import Analyzer Batch.
Local Open Scope R_scope.

Lemma sigmoid_decreasing (a b : R) :
  b < a -> 1.0 / (1.0 + exp a) < 1.0 / (1.0 + exp b).
Proof.
  intros H. pose proof (exp_increasing _ _ H) as He.
  pose proof (exp_pos a). pose proof (exp_pos b).
  unfold Rdiv. apply Rmult_lt_compat_l; [lra|].
  apply Rinv_lt_contravar; [nra | lra].
Qed.

Lemma sigmoid_half : 1.0 / (1.0 + exp 0) = 0.5.
Proof. rewrite exp_0. lra. Qed.

Lemma sigmoid_vs_half (x : R) :
  (x < 0 -> 0.5 < 1.0 / (1.0 + exp x)) /\
  (0 < x -> 1.0 / (1.0 + exp x) < 0.5).
Proof.
  rewrite <- sigmoid_half. split; intros H; now apply sigmoid_decreasing.
Qed.

Lemma sigmoid_antitone (a b : R) :
  b <= a -> 1.0 / (1.0 + exp a) <= 1.0 / (1.0 + exp b).
Proof.
  intros [H| ->]; [left; now apply sigmoid_decreasing|right; reflexivity].
Qed.

(** X1.  The activity score never decreases when the number of analysed
    records of the last seven days grows; it is exactly 0.5 at five
    records, below 0.5 under five and above 0.5 over five. *)
Theorem activity_score_follows_mentions (now : Z) (db1 db2 : database)
    (pid : Z) (n1 n2 : nat) :
  query_count_since db1 pid (days_ago now 7) = [n1] ->
  query_count_since db2 pid (days_ago now 7) = [n2] ->
  (n1 <= n2)%nat ->
  calculate_activity_score now db1 pid <= calculate_activity_score now db2 pid /\
  (n1 = 5%nat -> calculate_activity_score now db1 pid = 0.5) /\
  ((n1 < 5)%nat -> calculate_activity_score now db1 pid < 0.5) /\
  ((5 < n2)%nat -> 0.5 < calculate_activity_score now db2 pid).
Proof.
  intros H1 H2 Hle.
  unfold calculate_activity_score, calculate_activity_score_days.
  rewrite H1, H2.
  assert (Hn : INR n1 <= INR n2) by now apply le_INR.
  repeat split.
  - apply sigmoid_antitone. lra.
  - intros ->. replace (- 0.4 * (INR 5 - 5)) with 0 by (simpl; lra).
    apply sigmoid_half.
  - intros H5. apply lt_INR in H5. simpl in H5.
    apply sigmoid_vs_half. nra.
  - intros H5. apply lt_INR in H5. simpl in H5.
    apply sigmoid_vs_half. nra.
Qed.

Lemma activity_score_follows_mentions_witness :
  calculate_activity_score 0 Examples.fresh_store 1 < 0.5 /\
  0.5 < calculate_activity_score 0 Examples.busy_store 1.
Proof.
  destruct (@activity_score_follows_mentions 0 Examples.fresh_store
              Examples.busy_store 1 0 10 eq_refl eq_refl ltac:(lia))
    as (_ & _ & Hlow & Hhigh).
  split; [apply Hlow|apply Hhigh]; lia.
Defined.


(** X2.  The growth score compares the last seven days with the seven
    days before, an empty earlier week counting as one record: it is above
    0.5 when the recent count exceeds that baseline, exactly 0.5 when the
    two are equal, and below 0.5 otherwise. *)
Theorem community_growth_compares_weeks (now : Z) (db : database) (pid : Z)
    (recent previous : nat) :
  query_count_since db pid (days_ago now 7) = [recent] ->
  query_count_between db pid (days_ago now 14) (days_ago now 7) = [previous] ->
  let growth := calculate_community_growth now db pid in
  let baseline := if Nat.eqb previous 0 then 1%nat else previous in
  ((baseline < recent)%nat -> 0.5 < growth) /\
  (recent = baseline -> growth = 0.5) /\
  ((recent < baseline)%nat -> growth < 0.5).
Proof.
  intros Hr Hp. cbv zeta. unfold calculate_community_growth.
  rewrite Hr, Hp.
  destruct (Nat.eqb_spec previous 0) as [->|Hne].
  - repeat split.
    + intros H. apply lt_INR in H. simpl in H. apply sigmoid_vs_half. lra.
    + intros ->. replace (- 1.5 * (INR 1 - 1.0)) with 0 by (simpl; lra).
      apply sigmoid_half.
    + intros H. apply lt_INR in H. simpl in H. apply sigmoid_vs_half. lra.
  - assert (Hp0 : 0 < INR previous) by (apply lt_0_INR; lia).
    assert (Hinv : 0 < / INR previous) by now apply Rinv_0_lt_compat.
    assert (Hone : / INR previous * INR previous = 1) by (apply Rinv_l; lra).
    unfold Rdiv. repeat split.
    + intros H. apply lt_INR in H. apply sigmoid_vs_half.
      assert (0 < (INR recent - INR previous) * / INR previous)
        by (apply Rmult_lt_0_compat; lra).
      nra.
    + intros ->.
      replace (- 1.5 * (INR previous * / INR previous - 1.0)) with 0 by nra.
      apply sigmoid_half.
    + intros H. apply lt_INR in H. apply sigmoid_vs_half.
      assert (0 < (INR previous - INR recent) * / INR previous)
        by (apply Rmult_lt_0_compat; lra).
      nra.
Qed.

Lemma community_growth_compares_weeks_witness :
  0.5 < calculate_community_growth 0 Examples.busy_store 1.
Proof.
  apply (@community_growth_compares_weeks 0 Examples.busy_store 1 10 0).
  - reflexivity.
  - reflexivity.
  - simpl. lia.
Defined.

Lemma sentiment_counts_le (l : list json_column) (p n : nat) :
  (fst (fold_left sentiment_step l (p, n)) <= p + length l)%nat /\
  (snd (fold_left sentiment_step l (p, n)) <= n + length l)%nat.
Proof.
  revert p n. induction l as [|c l IH]; intros p n; simpl; [lia|].
  destruct c as [| |items]; simpl.
  - destruct (IH p n). lia.
  - destruct (IH p n). lia.
  - match goal with |- context [fold_left _ l (?a, ?b)] =>
      destruct (IH a b) as [H1 H2] end.
    destruct (any_in positive_contexts items), (any_in negative_contexts items);
      lia.
Qed.

(** X3.  When the context query answers at least one row, each row counts
    at most once as positive and at most once as negative, the clamp never
    acts, and the sentiment score is 0.5 + (positive - negative) / (2 x
    rows): above 0.5 exactly when positive rows outnumber negative ones. *)
Theorem sentiment_score_is_unclamped_balance (now : Z) (db : database) (pid : Z)
    (results : list json_column) :
  query_contexts now db pid = results ->
  results <> [] ->
  let positive := fst (fold_left sentiment_step results (O, O)) in
  let negative := snd (fold_left sentiment_step results (O, O)) in
  let total := length results in
  (positive <= total)%nat /\ (negative <= total)%nat /\
  calculate_sentiment_score now db pid =
    0.5 + (INR positive - INR negative) / (2 * INR total) /\
  ((negative < positive)%nat <-> 0.5 < calculate_sentiment_score now db pid).
Proof.
  intros Hq Hne. cbv zeta.
  pose proof (sentiment_counts_le results 0 0) as [Hp Hn]. simpl in Hp, Hn.
  unfold calculate_sentiment_score. rewrite Hq.
  destruct results as [|c l]; [congruence|].
  set (rs := c :: l) in *.
  destruct (fold_left sentiment_step rs (O, O)) as [p n] eqn:E.
  simpl fst in *. simpl snd in *.
  assert (Hlen : (0 < length rs)%nat) by (simpl; lia).
  destruct (Nat.eqb_spec (length rs) 0) as [H0|_]; [lia|].
  assert (Ht : 0 < INR (length rs)) by now apply lt_0_INR.
  assert (Hpr : 0 <= INR p / INR (length rs) <= 1) by now apply ratio_range.
  assert (Hnr : 0 <= INR n / INR (length rs) <= 1) by now apply ratio_range.
  assert (Hval : Rmax 0.0 (Rmin 1.0
            (0.5 + INR p / INR (length rs) * 0.5 - INR n / INR (length rs) * 0.5))
          = 0.5 + (INR p - INR n) / (2 * INR (length rs))).
  { unfold Rmax, Rmin.
    assert (Heq : 0.5 + INR p / INR (length rs) * 0.5 - INR n / INR (length rs) * 0.5
                  = 0.5 + (INR p - INR n) / (2 * INR (length rs)))
      by (unfold Rdiv; rewrite Rinv_mult; lra).
    rewrite <- Heq.
    set (x := 0.5 + INR p / INR (length rs) * 0.5 - INR n / INR (length rs) * 0.5).
    assert (Hx : 0 <= x <= 1) by (unfold x; lra).
    destruct (Rle_dec 1.0 x); destruct (Rle_dec 0.0 _); lra. }
  split; [exact Hp|]. split; [exact Hn|]. split; [exact Hval|].
  rewrite Hval.
  assert (Hinv : 0 < / (2 * INR (length rs))) by (apply Rinv_0_lt_compat; lra).
  split.
  - intros H. apply lt_INR in H. unfold Rdiv. nra.
  - intros H. apply INR_lt. unfold Rdiv in H. nra.
Qed.

Lemma sentiment_score_is_unclamped_balance_witness :
  calculate_sentiment_score 0 Examples.busy_store 1
  = 0.5 + (INR 0 - INR 0) / (2 * INR 10).
Proof.
  apply (@sentiment_score_is_unclamped_balance 0 Examples.busy_store 1
           (query_contexts 0 Examples.busy_store 1)).
  - reflexivity.
  - discriminate.
Defined.

Lemma order_In (y : analyzed_row) (l : list analyzed_row) :
  In y (order_by_priority_desc l) -> In y l.
Proof.
  induction l as [|x l IH]; simpl; [easy|]. intros H.
  apply insert_desc_In in H. destruct H as [->|H]; auto.
Qed.

Lemma firstn_subset (A : Type) (n : nat) (l : list A) (x : A) :
  In x (firstn n l) -> In x l.
Proof.
  revert l. induction n as [|n IH]; intros l; [easy|].
  destruct l as [|a l]; [easy|]. simpl. intros [H|H]; auto.
Qed.

Lemma query_urgent_rows_qualify (now : Z) (db : database) (pid : Z)
    (ad : analyzed_row) :
  In ad (query_urgent now db pid) ->
  In ad (db_analyzed_data db) /\ recent_high_priority now pid ad = true.
Proof.
  unfold query_urgent, execute_query. destruct (db_reachable db); [|easy].
  intros H. apply firstn_subset, order_In, filter_In in H. exact H.
Qed.

Lemma urgency_max_ge (l : list analyzed_row) (c : nat) (m : R) :
  m <= snd (fold_left urgency_step l (c, m)) /\
  forall ad, In ad l -> ad_priority_score ad <= snd (fold_left urgency_step l (c, m)).
Proof.
  revert c m. induction l as [|a l IH]; intros c m; simpl; [split; [lra|easy]|].
  set (m' := if Rltb m (ad_priority_score a) then ad_priority_score a else m).
  assert (Hm : m <= m' /\ ad_priority_score a <= m').
  { unfold m', Rltb. destruct (Rlt_dec m (ad_priority_score a)); lra. }
  match goal with |- context [fold_left _ l (?c', m')] =>
    destruct (IH c' m') as [H1 H2] end.
  split; [lra|]. intros ad [<-|Hin]; [lra|]. now apply H2.
Qed.

(** X4.  The urgency score is 0 when no record of the last seven days has
    a priority of at least 1.3; otherwise it is at least 0.12 and at most
    1. *)
Theorem urgency_score_floor (now : Z) (db : database) (pid : Z) :
  (query_urgent now db pid = [] -> calculate_urgency_score now db pid = 0) /\
  (query_urgent now db pid <> [] ->
   0.12 <= calculate_urgency_score now db pid <= 1).
Proof.
  split.
  - intros H. unfold calculate_urgency_score. rewrite H. simpl. lra.
  - intros Hne. split; [|apply urgency_range].
    unfold calculate_urgency_score.
    pose proof (query_urgent_rows_qualify now db pid) as Hq.
    destruct (query_urgent now db pid) as [|a l]; [congruence|].
    destruct (Hq a (or_introl eq_refl)) as [_ Ha].
    unfold recent_high_priority in Ha.
    apply andb_true_iff in Ha. destruct Ha as [_ Ha]. apply Rleb_true in Ha.
    unfold urgency_of_rows.
    pose proof (urgency_count_le (a :: l) 0 0.0) as Hc.
    pose proof (urgency_max_ge (a :: l) 0 0.0) as [_ Hmax].
    specialize (Hmax a (or_introl eq_refl)).
    destruct (fold_left urgency_step (a :: l) (O, 0.0)) as [c m].
    simpl fst in Hc. simpl plus in Hc. simpl snd in Hmax.
    assert (Hr : 0 <= INR c / INR (length (a :: l)) <= 1)
      by (apply ratio_range; [exact Hc | simpl; lia]).
    replace (Nat.ltb 0 (length (a :: l))) with true by reflexivity.
    unfold Rltb. destruct (Rlt_dec 1.0 m); [|lra].
    unfold Rmin.
    match goal with |- context [Rle_dec ?x ?y] => destruct (Rle_dec x y) end; lra.
Qed.


Lemma bump_tally_ok (t : opportunity) (delta : R) (counts : list (opportunity * R)) :
  0 <= delta -> tally_ok counts -> tally_ok (bump t delta counts).
Proof.
  intros Hd. unfold tally_ok. induction 1 as [|[k v] rest [Hk Hv] Hrest IH]; simpl.
  - constructor.
  - destruct (opportunity_eqb t k); constructor; simpl in *; auto.
    split; [assumption|lra].
Qed.

Lemma vote_row_tally_ok (counts : list (opportunity * R))
    (row : option text * json_column) :
  tally_ok counts -> tally_ok (vote_row counts row).
Proof.
  intros H. unfold vote_row. destruct row as [[[|c content]|] cats]; try exact H.
  set (step1 := fold_left _ opportunity_categories counts).
  assert (H1 : tally_ok step1).
  { unfold step1. apply fold_left_invariant; [|exact H].
    intros acc [t d] Hacc. destruct (existsb _ _); [|exact Hacc].
    apply bump_tally_ok; [lra|exact Hacc]. }
  destruct (parse_or_empty cats) as [categories|]; [|exact H1].
  apply fold_left_invariant; [|exact H1].
  intros acc [cat ts] Hacc. destruct (mem cat categories); [|exact Hacc].
  apply fold_left_invariant; [|exact Hacc].
  intros acc' t Hacc'. apply bump_tally_ok; [lra|exact Hacc'].
Qed.

Lemma fold_left_invariant_in (A B : Type) (Inv : A -> Prop) (f : A -> B -> A)
    (l : list B) (init : A) :
  (forall acc x, In x l -> Inv acc -> Inv (f acc x)) ->
  Inv init -> Inv (fold_left f l init).
Proof.
  revert init. induction l as [|x l IH]; simpl; intros init Hstep Hinit; [exact Hinit|].
  apply IH; [intros acc y Hy; apply Hstep; now right|].
  apply Hstep; [now left|exact Hinit].
Qed.

Lemma most_frequent_spec (counts : list (opportunity * R)) :
  tally_ok counts ->
  (fst (most_frequent counts) = 0 /\ snd (most_frequent counts) = unknown) \/
  (0 < fst (most_frequent counts) /\ snd (most_frequent counts) <> unknown).
Proof.
  intros H. unfold most_frequent.
  apply (fold_left_invariant_in
           (fun best : R * opportunity =>
              (fst best = 0 /\ snd best = unknown) \/
              (0 < fst best /\ snd best <> unknown))).
  - intros [m t] [k v] Hin Hbest. unfold tally_ok in H.
    rewrite Forall_forall in H. destruct (H _ Hin) as [Hk Hv]. simpl in *.
    unfold Rltb. destruct (Rlt_dec m v); [|exact Hbest].
    right. simpl. split; [|exact Hk]. destruct Hbest as [[-> _]|[Hm _]]; lra.
  - left. split; reflexivity.
Qed.

(** X5.  The detected opportunity type comes with a confidence between 0
    and 1, and the type is "unknown" exactly when the confidence is 0, that
    is, when no recent record voted for any category. *)
Theorem opportunity_type_unknown_iff_no_vote (now : Z) (db : database) (pid : Z) :
  let '(opportunity_type, confidence) := detect_opportunity_type now db pid in
  0 <= confidence <= 1 /\
  (opportunity_type = unknown <-> confidence = 0).
Proof.
  unfold detect_opportunity_type.
  destruct (query_messages now db pid) as [|row rows] eqn:Eq.
  - split; [lra|]. split; [intros _; lra|reflexivity].
  - set (results := row :: rows).
    set (start := map (fun entry : opportunity * category_info => (fst entry, 0))
                    opportunity_categories).
    assert (Hstart : tally_ok start).
    { unfold start, tally_ok, opportunity_categories. simpl.
      repeat constructor; simpl; (discriminate || lra). }
    assert (Hend : tally_ok (fold_left vote_row results start)).
    { apply fold_left_invariant; [|exact Hstart].
      intros acc x Hacc. now apply vote_row_tally_ok. }
    pose proof (most_frequent_spec Hend) as Hbest.
    destruct (most_frequent (fold_left vote_row results start)) as [m t].
    simpl fst in Hbest. simpl snd in Hbest.
    replace (Nat.ltb 0 (length results)) with true by reflexivity.
    assert (Hlen : 0 < INR (length results)) by (apply lt_0_INR; simpl; lia).
    assert (Hinv : 0 < / INR (length results)) by now apply Rinv_0_lt_compat.
    unfold Rmin, Rdiv.
    destruct Hbest as [[-> ->]|[Hm Ht]].
    + rewrite Rmult_0_l.
      destruct (Rle_dec 1.0 0); [lra|]. split; [lra|]. split; reflexivity || lra.
    + assert (0 < m * / INR (length results)) by now apply Rmult_lt_0_compat.
      destruct (Rle_dec 1.0 (m * / INR (length results))).
      * split; [lra|]. split; [intros; congruence | intros; lra].
      * split; [lra|]. split; [intros; congruence | intros; lra].
Qed.

(** The return potential of a project whose opportunity type is unknown
    starts from the low level. *)
Lemma roi_potential_unknown_le (now : Z) (db : database) (pid : Z) :
  calculate_roi_potential now db pid unknown <= 1 / 2.
Proof.
  unfold calculate_roi_potential.
  destruct (get_project db pid) as [p|]; [|lra].
  pose proof (activity_range now db pid) as Ha.
  pose proof (sentiment_range now db pid) as Hs.
  set (a := calculate_activity_score now db pid) in *.
  set (s := calculate_sentiment_score now db pid) in *.
  cbn [category_lookup opportunity_categories opportunity_eqb cat_roi_potential
       roi_levels].
  unfold Rmax, Rmin;
    match goal with |- context [Rle_dec 1.0 ?x] => destruct (Rle_dec 1.0 x) end;
    match goal with |- context [Rle_dec 0.0 ?x] => destruct (Rle_dec 0.0 x) end;
    lra.
Qed.

(** X6.  The return potential is 0 for a project missing from the store;
    otherwise it stays within the band of its opportunity type: 1/6 to 1/2
    for unknown and community tasks, 1/3 to 1 for airdrop, staking and
    farming, 1/2 to 1 for testnet, whitelist and token launch. *)
Theorem roi_potential_by_tier (now : Z) (db : database) (pid : Z)
    (opportunity_type : opportunity) :
  let roi := calculate_roi_potential now db pid opportunity_type in
  (get_project db pid = None -> roi = 0) /\
  (get_project db pid <> None ->
   match opportunity_type with
   | unknown | community_tasks => 1 / 6 <= roi <= 1 / 2
   | airdrop | staking | farming => 1 / 3 <= roi <= 1
   | testnet | whitelist | token_launch => 1 / 2 <= roi <= 1
   end).
Proof.
  cbv zeta. unfold calculate_roi_potential.
  destruct (get_project db pid) as [p|]; split; try congruence.
  - intros _.
    pose proof (activity_range now db pid) as Ha.
    pose proof (sentiment_range now db pid) as Hs.
    set (a := calculate_activity_score now db pid) in *.
    set (s := calculate_sentiment_score now db pid) in *.
    destruct opportunity_type; cbn [category_lookup opportunity_categories
      opportunity_eqb cat_roi_potential roi_levels];
      unfold Rmax, Rmin;
      match goal with |- context [Rle_dec 1.0 ?x] => destruct (Rle_dec 1.0 x) end;
      match goal with |- context [Rle_dec 0.0 ?x] => destruct (Rle_dec 0.0 x) end;
      lra.
  - intros _. lra.
Qed.

Lemma no_messages (now : Z) (db : database) (pid : Z) :
  (forall ad, In ad (db_analyzed_data db) -> ad_project_id ad = pid ->
              (ad_analysis_timestamp ad < days_ago now 14)%Z) ->
  query_messages now db pid = [].
Proof.
  intros Hnone. unfold query_messages.
  rewrite (@no_rows_since now db pid Hnone).
  - unfold execute_query. now destruct (db_reachable db).
  - intros ad H. apply Z.leb_le in H.
    pose proof (@days_ago_mono now 7 14 ltac:(lia)). lia.
Qed.

(** X7.  A project with no analysed record in the last fourteen days, when
    scored, has type "unknown" with confidence 0, an opportunity score of
    at most 60, and is never flagged as worth participating. *)
Theorem silent_project_is_never_worth_participating (now : Z) (db : database)
    (pid : Z) (r : snapshot) :
  (forall ad, In ad (db_analyzed_data db) -> ad_project_id ad = pid ->
              (ad_analysis_timestamp ad < days_ago now 14)%Z) ->
  calculate_opportunity_score now db pid = Scored r ->
  opportunity_type r = unknown /\
  opportunity_confidence r = 0 /\
  opportunity_score r <= 60 /\
  worth_participating r = false.
Proof.
  intros Hnone. unfold calculate_opportunity_score.
  destruct (get_project db pid) as [p|] eqn:Ep; [|discriminate].
  unfold detect_opportunity_type. rewrite (@no_messages now db pid Hnone).
  intros H. injection H as <-.
  cbn [opportunity_type opportunity_confidence opportunity_score worth_participating].
  pose proof (activity_range now db pid) as Ha.
  pose proof (growth_range now db pid) as Hg.
  assert (Hs : calculate_sentiment_score now db pid = 0.5)
    by (unfold calculate_sentiment_score; now rewrite (@no_contexts now db pid Hnone)).
  assert (Hu : calculate_urgency_score now db pid = 0.0)
    by (unfold calculate_urgency_score; now rewrite (@no_urgent now db pid Hnone)).
  pose proof (roi_potential_unknown_le now db pid) as Hroi.
  rewrite Hs, Hu.
  unfold weight_activity_level, weight_community_growth, weight_sentiment,
    weight_urgency, weight_roi_potential.
  assert (Hscore :
    (calculate_activity_score now db pid * 0.25 +
     calculate_community_growth now db pid * 0.15 + 0.5 * 0.15 + 0.0 * 0.20 +
     calculate_roi_potential now db pid unknown * 0.25) * 100 <= 60) by lra.
  repeat split; try lra.
  unfold Rleb. match goal with |- context [Rle_dec ?a ?b] => destruct (Rle_dec a b) end;
    [lra|reflexivity].
Qed.

Lemma silent_project_is_never_worth_participating_witness :
  exists r,
    calculate_opportunity_score 0 Examples.fresh_store 1 = Scored r /\
    worth_participating r = false.
Proof.
  eexists. split.
  - unfold calculate_opportunity_score, get_project, select_project.
    simpl. reflexivity.
  - apply (@silent_project_is_never_worth_participating 0 Examples.fresh_store 1).
    + intros ad [].
    + unfold calculate_opportunity_score, get_project, select_project.
      simpl. reflexivity.
Defined.

(** X8.  [update_project_opportunity] returns the computed score; a
    missing project causes no write; otherwise it writes one project update
    (the score, a return score between 0 and 100, the flag 1 exactly when
    the score reaches 70) followed by at most one "opportunity" alert, raised
    exactly when the project is worth participating, of priority "high"
    exactly when the score reaches 80. *)
Theorem update_alerts_exactly_when_worth_participating (now : Z) (db : database)
    (pid : Z) :
  let '(result, actions) := update_project_opportunity now db pid in
  result = calculate_opportunity_score now db pid /\
  match result with
  | ProjectNotFound _ _ => actions = []
  | Scored r =>
      exists data alerts,
        actions = update_project pid data :: alerts /\
        score data = opportunity_score r /\
        0 <= roi_score data <= 100 /\
        (upd_worth_participating data = 1%Z <-> opportunity_score r >= 70) /\
        (upd_worth_participating data = 0%Z <-> opportunity_score r < 70) /\
        (alerts = [] <-> worth_participating r = false) /\
        (length alerts <= 1)%nat /\
        Forall (fun a =>
                  exists message,
                    a = add_alert pid "opportunity" message
                          (if Rleb 80 (opportunity_score r) then "high" else "medium")
                    /\ about_score message = opportunity_score r)
          alerts
  end.
Proof.
  unfold update_project_opportunity.
  pose proof (C2_range := roi_range now db pid).
  destruct (calculate_opportunity_score now db pid) as [p s|r] eqn:E;
    [split; reflexivity|].
  split; [reflexivity|].
  assert (Hw : worth_participating r = Rleb 70 (opportunity_score r) /\
               exists t, roi_potential (components r) =
                         calculate_roi_potential now db pid t).
  { revert E. unfold calculate_opportunity_score.
    destruct (get_project db pid); [|discriminate].
    destruct (detect_opportunity_type now db pid) as [t c].
    intros H. injection H as <-. split; [reflexivity|now exists t]. }
  destruct Hw as [Hw [t Hroi]].
  eexists. eexists. split; [reflexivity|].
  cbn [score roi_score upd_worth_participating].
  rewrite Hw, Hroi. specialize (C2_range t).
  unfold Rleb.
  destruct (Rle_dec 80 (opportunity_score r)) as [H80|H80];
    destruct (Rle_dec 70 (opportunity_score r)) as [H70|H70]; try lra;
    repeat split; try lra; try easy; try (simpl; lia);
    try (intros; lra);
    try (repeat constructor; eexists; split; reflexivity).
Qed.

Lemma exp_1_2_lower : 7 / 3 < exp 1.2.
Proof.
  replace 1.2 with (0.6 + 0.6) by lra. rewrite exp_plus.
  assert (H : 1 + 0.6 < exp 0.6) by (apply exp_ineq1; lra). nra.
Qed.

Lemma exp_0_8_upper : exp 0.8 < 7 / 3.
Proof.
  assert (H1 : 0.9 <= exp (- 0.1)).
  { pose proof (exp_ineq1_le (- 0.1)). lra. }
  assert (H2 : 0.81 <= exp (- 0.2)).
  { replace (- 0.2) with (- 0.1 + - 0.1) by lra. rewrite exp_plus. nra. }
  assert (H4 : 0.6561 <= exp (- 0.4)).
  { replace (- 0.4) with (- 0.2 + - 0.2) by lra. rewrite exp_plus. nra. }
  assert (H8 : 0.43046721 <= exp (- 0.8)).
  { replace (- 0.8) with (- 0.4 + - 0.4) by lra. rewrite exp_plus. nra. }
  assert (Hinv : exp 0.8 * exp (- 0.8) = 1).
  { rewrite <- exp_plus. replace (0.8 + - 0.8) with 0 by lra. apply exp_0. }
  pose proof (exp_pos 0.8). nra.
Qed.

Lemma sigmoid_below (x : R) (bound : R) :
  0 < bound -> (1 - bound) / bound < exp x -> 1.0 / (1.0 + exp x) < bound.
Proof.
  intros Hb H. pose proof (exp_pos x) as Hx.
  assert (Hd : 0 < 1.0 + exp x) by lra.
  apply (Rmult_lt_reg_r (1.0 + exp x)); [exact Hd|].
  unfold Rdiv. rewrite Rmult_assoc, Rinv_l by lra.
  assert (H' : (1 - bound) < exp x * bound).
  { apply (Rmult_lt_compat_r bound) in H; [|exact Hb].
    unfold Rdiv in H. rewrite Rmult_assoc, Rinv_l in H by lra. lra. }
  lra.
Qed.

Lemma sigmoid_above (x : R) (bound : R) :
  0 < bound -> exp x <= (1 - bound) / bound -> bound <= 1.0 / (1.0 + exp x).
Proof.
  intros Hb H. pose proof (exp_pos x) as Hx.
  assert (Hd : 0 < 1.0 + exp x) by lra.
  apply (Rmult_le_reg_r (1.0 + exp x)); [exact Hd|].
  unfold Rdiv. rewrite Rmult_assoc, Rinv_l by lra.
  assert (H' : exp x * bound <= 1 - bound).
  { apply (Rmult_le_compat_r bound) in H; [|lra].
    unfold Rdiv in H. rewrite Rmult_assoc, Rinv_l in H by lra. lra. }
  lra.
Qed.

(** X9.  With the default activity threshold 0.3, a project is skipped
    exactly when it has fewer than three analysed records in the last seven
    days, and analysed in full exactly when it has three or more. *)
Theorem default_threshold_skips_below_three_mentions (now : Z) (db : database)
    (project : project_row) (mentions : nat) :
  query_count_since db (pr_id project) (days_ago now 7) = [mentions] ->
  ((mentions < 3)%nat <->
   exists activity,
     analyze_project now db 0.3 project
     = (skipped (pr_id project) (pr_name project) activity 0.3, [])) /\
  ((3 <= mentions)%nat <->
   exists outcome actions,
     analyze_project now db 0.3 project = (analysed outcome, actions)).
Proof.
  intros Hq. unfold analyze_project.
  assert (Ha : calculate_activity_score now db (pr_id project)
               = 1.0 / (1.0 + exp (- 0.4 * (INR mentions - 5)))).
  { unfold calculate_activity_score, calculate_activity_score_days. now rewrite Hq. }
  destruct (update_project_opportunity now db (pr_id project)) as [o acts].
  destruct (Nat.lt_ge_cases mentions 3) as [Hlt|Hge].
  - assert (Hlow : calculate_activity_score now db (pr_id project) < 0.3).
    { rewrite Ha. apply sigmoid_below; [lra|].
      assert (Hm : INR mentions <= 2).
      { assert (mentions <= 2)%nat by lia. apply le_INR in H. simpl in H. lra. }
      replace ((1 - 0.3) / 0.3) with (7 / 3) by lra.
      eapply Rlt_le_trans; [apply exp_1_2_lower|].
      destruct (Req_dec (- 0.4 * (INR mentions - 5)) 1.2) as [->|Hne]; [lra|].
      left. apply exp_increasing. lra. }
    unfold Rltb. destruct (Rlt_dec _ 0.3); [|lra].
    split; split; try lia.
    + intros _. eexists. reflexivity.
    + intros (o' & a' & H). discriminate.
  - assert (Hhigh : 0.3 <= calculate_activity_score now db (pr_id project)).
    { rewrite Ha. apply sigmoid_above; [lra|].
      apply le_INR in Hge. simpl in Hge.
      replace ((1 - 0.3) / 0.3) with (7 / 3) by lra.
      left. eapply Rle_lt_trans; [|apply exp_0_8_upper].
      destruct (Req_dec (- 0.4 * (INR mentions - 5)) 0.8) as [->|Hne]; [lra|].
      left. apply exp_increasing. lra. }
    unfold Rltb. destruct (Rlt_dec _ 0.3); [lra|].
    split; split; try lia.
    + intros (a & H). discriminate.
    + intros _. eexists. eexists. reflexivity.
Qed.

Lemma default_threshold_skips_below_three_mentions_witness :
  exists outcome actions,
    analyze_project 0 Examples.busy_store 0.3 Samples.alpha_row
    = (analysed outcome, actions).
Proof.
  apply (@default_threshold_skips_below_three_mentions 0 Examples.busy_store
           Samples.alpha_row 10).
  - reflexivity.
  - lia.
Defined.

Lemma insert_report_perm (x : report) (l : list report) :
  Permutation (x :: l) (insert_report x l).
Proof.
  induction l as [|h t IH]; simpl; [reflexivity|].
  destruct (Rleb (report_score h) (report_score x)); [reflexivity|].
  rewrite perm_swap. now constructor.
Qed.

Lemma insert_report_descending (x : report) (l : list report) :
  reports_descending l -> reports_descending (insert_report x l).
Proof.
  unfold reports_descending. induction l as [|h t IH]; simpl; intros Hs.
  - constructor; constructor.
  - inversion Hs as [|? ? Ht Hh]; subst.
    destruct (Rleb (report_score h) (report_score x)) eqn:E.
    + apply Rleb_true in E. constructor; [exact Hs|]. constructor; [exact E|].
      eapply Forall_impl; [|exact Hh]. simpl. intros; lra.
    + apply Rleb_false in E. constructor; [now apply IH|].
      apply (Permutation_Forall (insert_report_perm x t)).
      constructor; [lra|exact Hh].
Qed.

(** X10.  [analyze_all_projects] reports every project once: the reports
    are a permutation of the per-project reports, ordered by decreasing
    opportunity score, and the writes made are those of the per-project
    analyses, in the order of the projects. *)
Theorem analyze_all_projects_ranks_every_project (now : Z) (db : database)
    (min_activity : R) (projects : list project_row) :
  let reports := fst (analyze_all_projects now db min_activity projects) in
  reports_descending reports /\
  Permutation (map (fun p => fst (analyze_project now db min_activity p)) projects)
    reports /\
  length reports = length projects /\
  snd (analyze_all_projects now db min_activity projects)
  = flat_map (fun p => snd (analyze_project now db min_activity p)) projects.
Proof.
  cbv zeta. unfold analyze_all_projects. cbn [fst snd].
  rewrite map_map, flat_map_concat_map, map_map, <- flat_map_concat_map.
  set (l := map (fun p => fst (analyze_project now db min_activity p)) projects).
  assert (Hperm : Permutation l (sort_reports l)).
  { induction l as [|x l IH]; simpl; [reflexivity|].
    rewrite <- insert_report_perm. now constructor. }
  repeat split.
  - induction l as [|x l IH]; simpl; [constructor|].
    apply insert_report_descending, IH. clear. induction l as [|y l IH]; simpl;
      [reflexivity|]. rewrite <- insert_report_perm. now constructor.
  - exact Hperm.
  - rewrite <- (Permutation_length Hperm). unfold l. apply length_map.
Qed.

End AnalyzerExtras.

(* ================================================================== *)
(** * Properties of the project registry *)
(* ================================================================== *)

Section RegistryFacts.

Import Config Registry.

Lemma text_eqb_eq (a b : text) : text_eqb a b = true <-> a = b.
Proof. unfold text_eqb. destruct (list_eq_dec ascii_dec a b); split; easy. Qed.

Lemma text_eqb_refl (a : text) : text_eqb a a = true.
Proof. now apply text_eqb_eq. Qed.

Lemma text_eqb_neq (a b : text) : text_eqb a b = false <-> a <> b.
Proof. unfold text_eqb. destruct (list_eq_dec ascii_dec a b); split; easy. Qed.

Lemma priority_of_key_valid (key : string) :
  priority_of_key key <> None <->
  key = "high_priority"%string \/ key = "medium_priority"%string.
Proof.
  unfold priority_of_key.
  destruct (String.eqb_spec key "high_priority");
    [split; [now left|discriminate]|].
  destruct (String.eqb_spec key "medium_priority");
    [split; [now right|discriminate]|].
  split; [congruence|]. intros [H|H]; congruence.
Qed.

Lemma tier_set_tier (p q : priority) (l : list project) (cfg : ProjectConfig) :
  tier q (set_tier p l cfg) = if priority_eqb q p then l else tier q cfg.
Proof. destruct p, q; reflexivity. Qed.

Lemma names_unique_tiers (cfg : ProjectConfig) :
  names_unique cfg <->
  forall p, NoDup (map (fun q => lower (name q)) (tier p cfg)).
Proof.
  unfold names_unique. split.
  - intros [H1 H2] [|]; assumption.
  - intros H. split; [apply (H high_priority) | apply (H medium_priority)].
Qed.

Lemma NoDup_map_filter (A B : Type) (f : A -> B) (g : A -> bool) (l : list A) :
  NoDup (map f l) -> NoDup (map f (filter g l)).
Proof.
  induction l as [|a l IH]; simpl; [easy|]. intros H.
  inversion H as [|? ? Hn Hl]; subst.
  destruct (g a); simpl; [|now apply IH].
  constructor; [|now apply IH].
  intros Hin. apply Hn. apply in_map_iff in Hin. destruct Hin as (x & Hx & Hf).
  apply filter_In in Hf. apply in_map_iff. exists x. tauto.
Qed.

Lemma removed_name_absent (n : text) (l : list project) :
  ~ In (lower n)
      (map (fun q => lower (name q))
         (filter (fun q => negb (text_eqb (lower (name q)) (lower n))) l)).
Proof.
  intros H. apply in_map_iff in H. destruct H as (q & Hq & Hin).
  apply filter_In in Hin. destruct Hin as [_ Hin].
  apply negb_true_iff, text_eqb_neq in Hin. congruence.
Qed.

Lemma priority_eqb_eq (p q : priority) : priority_eqb p q = true <-> p = q.
Proof. destruct p, q; split; easy. Qed.

Lemma replaced_tier_unique (d : project_data) (l : list project) :
  NoDup (map (fun q => lower (name q)) l) ->
  NoDup (map (fun q => lower (name q))
           (filter (fun q => negb (text_eqb (lower (name q))
                                     (lower (get_or (pd_name d) [])))) l
            ++ [entry_of d])).
Proof.
  intros H. rewrite map_app. apply NoDup_app.
  - now apply NoDup_map_filter.
  - simpl. constructor; [easy|constructor].
  - intros a Ha [<-|[]]. simpl in Ha. now apply removed_name_absent in Ha.
Qed.

(** X11.  If no two projects of one priority share a name (letter case
    aside), this still holds after [add_project] and after
    [remove_project]. *)
Theorem registry_keeps_names_unique (key : string) (d : project_data)
    (project_name : text) (cfg : ProjectConfig) :
  names_unique cfg ->
  (forall cfg', add_project key d cfg = Some cfg' -> names_unique cfg') /\
  (forall cfg', remove_project key project_name cfg = Some cfg' -> names_unique cfg').
Proof.
  intros Hu. rewrite names_unique_tiers in Hu. split; intros cfg'.
  - unfold add_project, remove_project.
    destruct (priority_of_key key) as [p|]; [|discriminate].
    intros H. injection H as <-. apply names_unique_tiers. intros q.
    rewrite !tier_set_tier. destruct (priority_eqb q p) eqn:E.
    + assert (Hp : priority_eqb p p = true) by now apply priority_eqb_eq.
      rewrite Hp. apply replaced_tier_unique, Hu.
    + apply Hu.
  - unfold remove_project.
    destruct (priority_of_key key) as [p|]; [|discriminate].
    intros H. injection H as <-. apply names_unique_tiers. intros q.
    rewrite tier_set_tier. destruct (priority_eqb q p); [|apply Hu].
    apply NoDup_map_filter, Hu.
Qed.

Lemma registry_keeps_names_unique_witness :
  names_unique Examples.tracked /\
  exists cfg',
    add_project "high_priority" Samples.beta_data Examples.tracked = Some cfg' /\
    names_unique cfg'.
Proof.
  assert (H : names_unique Examples.tracked).
  { split; repeat constructor. simpl. tauto. }
  split; [exact H|]. eexists. split; [reflexivity|].
  apply (proj1 (@registry_keeps_names_unique "high_priority" Samples.beta_data []
                  Examples.tracked H)).
  reflexivity.
Defined.


Lemma find_app (A : Type) (f : A -> bool) (l1 l2 : list A) :
  find f (l1 ++ l2) = match find f l1 with Some x => Some x | None => find f l2 end.
Proof.
  induction l1 as [|a l1 IH]; simpl; [reflexivity|]. now destruct (f a).
Qed.

Lemma find_tier (p : priority) (same : project -> bool) (l : list project) :
  find (fun entry : priority * project => same (snd entry)) (map (pair p) l)
  = option_map (pair p) (find same l).
Proof.
  induction l as [|a l IH]; simpl; [reflexivity|]. now destruct (same a).
Qed.

Lemma find_removed (n : text) (l : list project) :
  find (fun q => text_eqb (lower (name q)) (lower n))
    (filter (fun q => negb (text_eqb (lower (name q)) (lower n))) l) = None.
Proof.
  induction l as [|a l IH]; simpl; [reflexivity|].
  destruct (text_eqb (lower (name a)) (lower n)) eqn:E; simpl; [exact IH|].
  now rewrite E.
Qed.

Lemma find_kept (n m : text) (l : list project) :
  lower m <> lower n ->
  find (fun q => text_eqb (lower (name q)) (lower m))
    (filter (fun q => negb (text_eqb (lower (name q)) (lower n))) l)
  = find (fun q => text_eqb (lower (name q)) (lower m)) l.
Proof.
  intros Hne. induction l as [|a l IH]; simpl; [reflexivity|].
  destruct (text_eqb (lower (name a)) (lower n)) eqn:E; simpl.
  - apply text_eqb_eq in E.
    assert (Hm : text_eqb (lower (name a)) (lower m) = false)
      by (apply text_eqb_neq; congruence).
    now rewrite Hm.
  - now rewrite IH.
Qed.

Lemma get_project_tiers (n : text) (cfg : ProjectConfig) :
  Registry.get_project n cfg =
  match find (fun q => text_eqb (lower (name q)) (lower n))
          (high_priority_projects cfg) with
  | Some q => Some (high_priority, q)
  | None =>
      option_map (pair medium_priority)
        (find (fun q => text_eqb (lower (name q)) (lower n))
           (medium_priority_projects cfg))
  end.
Proof.
  unfold Registry.get_project, by_priority. rewrite find_app.
  rewrite (find_tier high_priority
             (fun q => text_eqb (lower (name q)) (lower n))).
  rewrite (find_tier medium_priority
             (fun q => text_eqb (lower (name q)) (lower n))).
  now destruct (find _ (high_priority_projects cfg)).
Qed.

(** X12.  After [add_project], looking the project up by its name in any
    letter case finds the new entry when it was added as high priority; when
    it was added as medium priority, a high-priority project of the same
    name, if there is one, is found instead. *)
Theorem add_project_then_get_project (key : string) (d : project_data)
    (cfg cfg' : ProjectConfig) (asked : text) :
  add_project key d cfg = Some cfg' ->
  lower asked = lower (get_or (pd_name d) []) ->
  (key = "high_priority"%string ->
   Registry.get_project asked cfg' = Some (high_priority, entry_of d)) /\
  (key = "medium_priority"%string ->
   Registry.get_project asked cfg' =
   match Registry.get_project asked cfg with
   | Some (high_priority, q) => Some (high_priority, q)
   | _ => Some (medium_priority, entry_of d)
   end).
Proof.
  intros Hadd Hname. split; intros ->; revert Hadd;
    unfold add_project, remove_project; cbn [priority_of_key String.eqb];
    intros H; injection H as <-; rewrite !get_project_tiers;
    cbn [set_tier tier high_priority_projects medium_priority_projects];
    rewrite Hname.
  - rewrite find_app, find_removed. simpl. now rewrite text_eqb_refl.
  - destruct (find _ (high_priority_projects cfg)); [reflexivity|].
    rewrite find_app, find_removed. simpl. rewrite text_eqb_refl.
    now destruct (find _ (medium_priority_projects cfg)).
Qed.

Lemma add_project_then_get_project_witness :
  exists cfg',
    add_project "high_priority" Samples.beta_data Examples.tracked = Some cfg' /\
    Registry.get_project (txt "BETA") cfg'
    = Some (high_priority, entry_of Samples.beta_data).
Proof.
  eexists. split; [reflexivity|].
  apply (@add_project_then_get_project "high_priority" Samples.beta_data
           Examples.tracked _ (txt "BETA")); reflexivity.
Defined.

(** X13.  After [remove_project], a lookup of the removed name never
    answers a project of that priority, lookups of other names answer what
    they did before, and the other priority list is untouched. *)
Theorem remove_project_then_get_project (key : string) (removed : text)
    (cfg cfg' : ProjectConfig) (p : priority) :
  remove_project key removed cfg = Some cfg' ->
  priority_of_key key = Some p ->
  (forall asked found q,
     lower asked = lower removed ->
     Registry.get_project asked cfg' = Some (found, q) -> found <> p) /\
  (forall asked,
     lower asked <> lower removed ->
     Registry.get_project asked cfg' = Registry.get_project asked cfg) /\
  tier (match p with high_priority => medium_priority | _ => high_priority end) cfg'
  = tier (match p with high_priority => medium_priority | _ => high_priority end) cfg.
Proof.
  unfold remove_project. intros H Hp. rewrite Hp in H. injection H as <-.
  repeat split.
  - intros asked found q Hname. rewrite get_project_tiers, Hname.
    destruct p; cbn [set_tier tier high_priority_projects medium_priority_projects].
    + rewrite find_removed.
      destruct (find _ (medium_priority_projects cfg)); simpl; congruence.
    + destruct (find _ (high_priority_projects cfg)); [congruence|].
      rewrite find_removed. discriminate.
  - intros asked Hne. rewrite !get_project_tiers.
    destruct p; cbn [set_tier tier high_priority_projects medium_priority_projects];
      now rewrite (@find_kept removed asked _ Hne).
  - now destruct p.
Qed.

Lemma remove_project_then_get_project_witness :
  exists cfg',
    remove_project "high_priority" (txt "ALPHA") Examples.tracked = Some cfg' /\
    Registry.get_project (txt "alpha") cfg' = None /\
    Registry.get_project (txt "Alpha") Examples.tracked
    = Some (high_priority, Examples.alpha).
Proof.
  eexists. split; [reflexivity|]. split; [|reflexivity].
  destruct (@remove_project_then_get_project "high_priority" (txt "ALPHA")
              Examples.tracked _ high_priority eq_refl eq_refl) as (Hgone & _ & _).
  destruct (Registry.get_project (txt "alpha") _) as [[found q]|] eqn:E;
    [|reflexivity].
  exfalso. apply (Hgone (txt "alpha") found q); [reflexivity|exact E|].
  vm_compute in E. discriminate E.
Defined.

Lemma dict_get_set (V : Type) (k k' : text) (v : V) (d : dict V) :
  dict_get k (dict_set k' v d) = if text_eqb k k' then Some v else dict_get k d.
Proof.
  induction d as [|[k0 v0] d IH]; simpl.
  - destruct (text_eqb k k'); reflexivity.
  - destruct (text_eqb k' k0) eqn:E; simpl.
    + apply text_eqb_eq in E. subst k0. destruct (text_eqb k k'); reflexivity.
    + destruct (text_eqb k k0) eqn:E0.
      * apply text_eqb_eq in E0. subst k0.
        assert (H : text_eqb k k' = false).
        { apply text_eqb_neq. apply text_eqb_neq in E. congruence. }
        now rewrite H.
      * exact IH.
Qed.

(** After a run of assignments, a key holds what was assigned to it last. *)
Lemma dict_get_assignments (V : Type) (k : text) (l : list (text * V)) (d : dict V) :
  dict_get k (fold_left (fun acc kv => dict_set (fst kv) (snd kv) acc) l d)
  = match find (fun kv => text_eqb k (fst kv)) (rev l) with
    | Some kv => Some (snd kv)
    | None => dict_get k d
    end.
Proof.
  revert d. induction l as [|[k' v] l IH]; intros d; simpl; [reflexivity|].
  rewrite IH, find_app. destruct (find _ (rev l)); [reflexivity|].
  simpl. rewrite dict_get_set. now destruct (text_eqb k k').
Qed.

Lemma fold_left_flat_map (A B C : Type) (f : A -> C -> A) (g : B -> list C)
    (l : list B) (init : A) :
  fold_left (fun acc x => fold_left f (g x) acc) l init
  = fold_left f (flat_map g l) init.
Proof.
  revert init. induction l as [|x l IH]; intros init; simpl; [reflexivity|].
  now rewrite fold_left_app, IH.
Qed.

Lemma fold_left_map (A B C : Type) (f : A -> C -> A) (g : B -> C)
    (l : list B) (init : A) :
  fold_left (fun acc x => f acc (g x)) l init = fold_left f (map g l) init.
Proof.
  revert init. induction l as [|x l IH]; intros init; simpl; [reflexivity|].
  apply IH.
Qed.

Lemma fold_left_agree (A B : Type) (f g : A -> B -> A) (l : list B) (init : A) :
  (forall acc x, f acc x = g acc x) -> fold_left f l init = fold_left g l init.
Proof.
  intros H. revert init. induction l as [|x l IH]; intros init; simpl;
    [reflexivity|]. now rewrite H, IH.
Qed.

Lemma get_all_channels_assignments (cfg : ProjectConfig) :
  get_all_channels cfg
  = fold_left (fun acc kv => dict_set (fst kv) (snd kv) acc)
      (channel_assignments cfg) [].
Proof.
  unfold get_all_channels, channel_assignments.
  rewrite <- fold_left_flat_map. apply fold_left_agree. intros acc [p q].
  cbn [snd]. rewrite fold_left_app, <- !fold_left_map. reflexivity.
Qed.

(** X14.  In the channel index of [get_all_channels] a channel holds the
    record of the last listing that names it, in the order high priority
    before medium, project by project, official channels before partner
    channels; a channel no project lists is absent. *)
Theorem tracked_channel_belongs_to_last_listing (cfg : ProjectConfig)
    (channel : text) :
  dict_get channel (get_all_channels cfg)
  = option_map snd
      (find (fun kv => text_eqb channel (fst kv)) (rev (channel_assignments cfg))).
Proof.
  rewrite get_all_channels_assignments, dict_get_assignments.
  now destruct (find _ _).
Qed.

Lemma extend_extend (A : Type) (current : option (list A)) (a b : list A) :
  extend (extend current a) b = extend current (a ++ b).
Proof.
  destruct a as [|x a]; [reflexivity|].
  destruct b as [|y b]; simpl.
  - now rewrite app_nil_r.
  - now rewrite <- app_assoc.
Qed.

Lemma text_eqb_sym (a b : text) : text_eqb a b = text_eqb b a.
Proof.
  destruct (text_eqb a b) eqn:E.
  - apply text_eqb_eq in E. subst b. symmetry. apply text_eqb_refl.
  - symmetry. apply text_eqb_neq. apply text_eqb_neq in E. congruence.
Qed.

Lemma project_keywords_owners (k : text) (owner : keyword_owner)
    (ks : list text) (acc : dict (list keyword_owner)) :
  dict_get k
    (fold_left
       (fun keywords keyword =>
          let keyword := lower keyword in
          let owners :=
            match dict_get keyword keywords with
            | Some l => l
            | None => []
            end in
          dict_set keyword (owners ++ [owner]) keywords)
       ks acc)
  = extend (dict_get k acc)
      (map (fun _ => owner) (filter (fun kw => text_eqb (lower kw) k) ks)).
Proof.
  revert acc. induction ks as [|kw ks IH]; intros acc; [reflexivity|].
  cbn [fold_left]. rewrite IH. cbv zeta. rewrite dict_get_set.
  cbn [filter]. rewrite (text_eqb_sym (lower kw) k).
  destruct (text_eqb k (lower kw)) eqn:E.
  - apply text_eqb_eq in E. subst k. cbn [map].
    change (?o :: ?l) with ([o] ++ l) at 2.
    rewrite <- extend_extend. reflexivity.
  - reflexivity.
Qed.

Lemma keywords_owners (k : text) (entries : list (priority * project))
    (acc : dict (list keyword_owner)) :
  dict_get k
    (fold_left
       (fun keywords (entry : priority * project) =>
          let '(priority, project) := entry in
          fold_left
            (fun keywords keyword =>
               let keyword := lower keyword in
               let owners :=
                 match dict_get keyword keywords with
                 | Some l => l
                 | None => []
                 end in
               dict_set keyword
                 (owners ++ [{| owner_project := name project;
                                owner_priority := priority |}])
                 keywords)
            (Config.keywords project) keywords)
       entries acc)
  = extend (dict_get k acc)
      (flat_map
         (fun entry : priority * project =>
            map (fun _ => {| owner_project := name (snd entry);
                             owner_priority := fst entry |})
              (filter (fun kw => text_eqb (lower kw) k) (keywords (snd entry))))
         entries).
Proof.
  revert acc. induction entries as [|[p q] entries IH]; intros acc;
    [reflexivity|].
  cbn [fold_left flat_map fst snd]. rewrite IH, project_keywords_owners.
  apply extend_extend.
Qed.

(** X15.  In the keyword index of [get_all_keywords] a lower-cased keyword
    holds one owner record per listing of a keyword that lower-cases to it,
    in registry order; a key with no such listing is absent. *)
Theorem tracked_keyword_lists_every_owner (cfg : ProjectConfig) (k : text) :
  dict_get k (get_all_keywords cfg)
  = match owners_of k cfg with
    | [] => None
    | owners => Some owners
    end.
Proof.
  unfold get_all_keywords, owners_of. rewrite keywords_owners. simpl.
  now destruct (flat_map _ _).
Qed.

End RegistryFacts.

(* ================================================================== *)
(** * Further properties of the classifier *)
Section ClassifierExtras.

Import Config Classifier Re Scan Registry Categorizer.
Local Open Scope Q_scope.

Lemma preprocess_text_normal (x : text) : normal (preprocess_text x).
Proof.
  set (n := replace_char "@" " " (replace_char "#" " "
              (replace_char "$" " " (lower x)))).
  assert (Ht : preprocess_text x = strip (squeeze false (drop_urls false n)))
    by apply preprocess_text_scan.
  set (t := preprocess_text x) in *.
  destruct (strip_split (squeeze false (drop_urls false n))) as (lead & tail & Hsplit).
  rewrite <- Ht in Hsplit.
  repeat split.
  - apply Forall_forall. intros c Hc.
    assert (Hin : In c (squeeze false (drop_urls false n)))
      by (rewrite Hsplit; apply in_or_app; right; apply in_or_app; now left).
    apply squeeze_chars in Hin. destruct Hin as [->|Hin]; [apply settled_space|].
    apply drop_urls_chars in Hin.
    pose proof (normalised_settled x) as Hn. rewrite Forall_forall in Hn.
    now apply Hn.
  - pose proof (squeeze_no_url _ false (drop_urls_no_url n false)) as H.
    rewrite Hsplit in H. now apply no_url_suffix, no_url_prefix in H.
  - pose proof (proj1 (squeeze_squeezed (drop_urls false n))) as H.
    rewrite Hsplit in H. now apply squeezed_suffix, squeezed_prefix in H.
  - rewrite Ht. apply strip_head.
  - rewrite Ht. apply strip_last.
Qed.

Lemma normal_fixed (t : text) : normal t -> preprocess_text t = t.
Proof.
  intros (Hset & Hurl & Hsq & Hhead & Hlast).
  rewrite (preprocess_text_scan t).
  rewrite (settled_fixed Hset), (no_url_fixed _ Hurl).
  rewrite (proj1 (squeezed_fixed _ Hsq)).
  now apply strip_fixed.
Qed.

(** X16.  [preprocess_text] always returns a normal text (lower-case, free
    of [$], [#], [@] and URLs, single blanks, no blank at either end), and
    the texts it leaves unchanged are exactly the normal ones. *)
Theorem preprocess_text_fixed_points (x t : text) :
  normal (preprocess_text x) /\ (normal t <-> preprocess_text t = t).
Proof.
  split; [apply preprocess_text_normal|]. split; [apply normal_fixed|].
  intros <-. apply preprocess_text_normal.
Qed.


Lemma dict_set_keys (V : Type) (k : text) (v : V) (d : dict V) :
  map fst (dict_set k v d)
  = if existsb (text_eqb k) (map fst d) then map fst d else map fst d ++ [k].
Proof.
  induction d as [|[k' v'] d IH]; simpl; [reflexivity|].
  destruct (text_eqb k k'); simpl; [reflexivity|].
  rewrite IH. now destruct (existsb _ _).
Qed.

Lemma dict_set_NoDup (V : Type) (k : text) (v : V) (d : dict V) :
  NoDup (map fst d) -> NoDup (map fst (dict_set k v d)).
Proof.
  intros H. rewrite dict_set_keys.
  destruct (existsb (text_eqb k) (map fst d)) eqn:E; [exact H|].
  apply NoDup_app; [exact H|repeat constructor; easy|].
  intros x Hx [Heq|[]]. subst x.
  assert (Hex : existsb (text_eqb k) (map fst d) = true).
  { apply existsb_exists. exists k. split; [exact Hx|apply text_eqb_refl]. }
  congruence.
Qed.

Lemma dict_get_In (V : Type) (k : text) (v : V) (d : dict V) :
  NoDup (map fst d) -> In (k, v) d -> dict_get k d = Some v.
Proof.
  induction d as [|[k' v'] d IH]; simpl; [easy|].
  intros Hnd [Heq|Hin].
  - injection Heq as -> ->. now rewrite text_eqb_refl.
  - inversion Hnd as [|? ? Hnot Hnd']. subst.
    destruct (text_eqb k k') eqn:E.
    + apply text_eqb_eq in E. subst k'. exfalso. apply Hnot.
      apply in_map_iff. now exists (k, v).
    + now apply IH.
Qed.

Lemma get_all_channels_NoDup (cfg : ProjectConfig) :
  NoDup (map fst (get_all_channels cfg)).
Proof.
  rewrite get_all_channels_assignments.
  apply fold_left_invariant; [|constructor].
  intros acc kv. apply dict_set_NoDup.
Qed.

Lemma get_all_keywords_NoDup (cfg : ProjectConfig) :
  NoDup (map fst (get_all_keywords cfg)).
Proof.
  unfold get_all_keywords.
  apply fold_left_invariant; [|constructor].
  intros acc [p q] Hacc. apply fold_left_invariant; [|exact Hacc].
  intros acc' kw. apply dict_set_NoDup.
Qed.

(** What a tracked channel records: a project of the registry that lists
    the channel, as official (weight 1.0) or as partner (weight 0.8). *)
Lemma tracked_channel_listed (cfg : ProjectConfig) (ch : text)
    (info : channel_info) :
  dict_get ch (get_all_channels cfg) = Some info ->
  exists entry, In entry (by_priority cfg) /\
    channel_project info = name (snd entry) /\
    ((In ch (official_channels (snd entry)) /\ weight info = 1.0
      /\ channel_type info = "official"%string) \/
     (In ch (partner_channels (snd entry)) /\ weight info = 0.8
      /\ channel_type info = "partner"%string)).
Proof.
  rewrite get_all_channels_assignments, dict_get_assignments.
  destruct (find _ _) as [[k v]|] eqn:E; [|discriminate].
  intros H. injection H as <-.
  apply find_some in E. destruct E as [Hin Hk].
  apply text_eqb_eq in Hk. simpl in Hk. subst k.
  apply in_rev in Hin. unfold channel_assignments in Hin.
  apply in_flat_map in Hin. destruct Hin as (entry & Hentry & Hin).
  exists entry. split; [exact Hentry|].
  apply in_app_or in Hin. destruct Hin as [Hin|Hin];
    apply in_map_iff in Hin; destruct Hin as (c & Heq & Hc);
    injection Heq as -> <-; simpl; auto 6.
Qed.

(** The owners listed under a key are projects of the registry holding a
    keyword that lower-cases to the key. *)
Lemma owners_of_In (cfg : ProjectConfig) (k : text) (o : keyword_owner) :
  In o (owners_of k cfg) ->
  exists entry, In entry (by_priority cfg) /\
    owner_project o = name (snd entry) /\ owner_priority o = fst entry /\
    exists kw, In kw (keywords (snd entry)) /\ lower kw = k.
Proof.
  unfold owners_of. intros H.
  apply in_flat_map in H. destruct H as (entry & Hentry & H).
  apply in_map_iff in H. destruct H as (kw & <- & Hkw).
  apply filter_In in Hkw. destruct Hkw as [Hkw Heq].
  apply text_eqb_eq in Heq.
  exists entry. repeat split; try assumption. now exists kw.
Qed.

Lemma tracked_keyword_entry (cfg : ProjectConfig) (k : text)
    (owners : list keyword_owner) :
  In (k, owners) (get_all_keywords cfg) -> owners = owners_of k cfg.
Proof.
  intros H. apply dict_get_In in H; [|apply get_all_keywords_NoDup].
  unfold get_all_keywords in H. rewrite keywords_owners in H.
  fold (owners_of k cfg) in H. simpl in H.
  destruct (owners_of k cfg); [discriminate|]. now injection H.
Qed.

Lemma unique_by_NoDup (key : text -> text) (todo seen : list candidate) :
  NoDup (map (fun c => key (cand_name c)) seen) ->
  NoDup (map (fun c => key (cand_name c))
           (unique_by (fun a b => text_eqb (key a) (key b)) seen todo)).
Proof.
  revert seen. induction todo as [|x todo IH]; simpl; intros seen H; [exact H|].
  destruct (existsb _ seen) eqn:E; [now apply IH|].
  apply IH. rewrite map_app. apply NoDup_app; [exact H|repeat constructor; easy|].
  intros y Hy [Heq|[]]. subst y.
  apply in_map_iff in Hy. destruct Hy as (c & Hc & Hin).
  assert (Hex : existsb (fun p => text_eqb (key (cand_name p)) (key (cand_name x)))
                  seen = true).
  { apply existsb_exists. exists c. split; [exact Hin|]. now apply text_eqb_eq. }
  congruence.
Qed.

(** X17.  [identify_projects] returns pairwise distinct names, each the
    name of a project of the registry: a channel match carries no priority
    and the weight of the listing (1.0 official, 0.8 partner); a keyword
    match carries the project's priority, confidence 0.8 or 0.6, and one of
    the project's keywords occurs in the normalised text; a contract match
    carries confidence 0.9; no other kind of match occurs. *)
Theorem identified_projects_are_registered (config : ProjectConfig)
    (text : Text.text) (channel : option Text.text) :
  let found := identify_projects config text channel in
  NoDup (map cand_name found) /\
  Forall
    (fun c =>
       exists entry, In entry (get_all_projects config) /\
         cand_name c = name (snd entry) /\
         match cand_source c with
         | from_channel =>
             cand_priority c = None /\
             exists ch, channel = Some ch /\
               ((In ch (official_channels (snd entry)) /\ cand_confidence c = 1.0) \/
                (In ch (partner_channels (snd entry)) /\ cand_confidence c = 0.8))
         | from_keyword =>
             cand_priority c = Some (fst entry) /\
             cand_confidence c
             = (if priority_eqb (fst entry) high_priority then 0.8 else 0.6) /\
             exists kw, In kw (keywords (snd entry)) /\
               contains (lower kw) (preprocess_text text) = true
         | from_contract =>
             cand_priority c = Some (fst entry) /\ cand_confidence c = 0.9 /\
             exists contract,
               In contract (findall contract_pattern (preprocess_text text)) /\
               In (lower contract) (map lower (contracts (snd entry)))
         | from_symbol | from_discovery => False
         end)
    found.
Proof.
  cbv zeta. split.
  - unfold identify_projects.
    apply (@unique_by_NoDup (fun a => a)). constructor.
  - apply Forall_forall. intros c H. unfold identify_projects in H.
    rewrite (symbol_needs_dollar _ (preprocess_text_no_dollar text)) in H.
    simpl flat_map in H.
    apply unique_by_subset in H. destruct H as [[]|H].
    repeat (apply in_app_or in H; destruct H as [H|H]).
    + unfold tracked_channel in H.
      destruct channel as [[|a ch]|]; try destruct H.
      destruct (dict_get (a :: ch) (tracked_channels config)) as [info|] eqn:E;
        [|destruct H].
      destruct H as [<-|[]]. simpl.
      apply tracked_channel_listed in E.
      destruct E as (entry & Hentry & Hname & Hlist).
      exists entry. repeat split; try assumption.
      exists (a :: ch). split; [reflexivity|]. tauto.
    + apply in_flat_map in H. destruct H as ([k owners] & Hk & H).
      destruct (contains k _) eqn:Hc; [|destruct H].
      apply in_map_iff in H. destruct H as (o & <- & Ho). simpl.
      apply tracked_keyword_entry in Hk. subst owners.
      apply owners_of_In in Ho.
      destruct Ho as (entry & Hentry & Hname & Hprio & kw & Hkw & <-).
      exists entry. rewrite Hprio. repeat split; try assumption. now exists kw.
    + destruct H.
    + apply in_flat_map in H. destruct H as (ct & Hct & H).
      apply in_flat_map in H. destruct H as ([pr pj] & Hentry & H).
      destruct (existsb _ _) eqn:E; [|destruct H]. destruct H as [<-|[]].
      exists (pr, pj). simpl. repeat split; try assumption.
      exists ct. split; [exact Hct|].
      apply existsb_exists in E. destruct E as (x & Hx & Heq).
      apply text_eqb_eq in Heq. now subst x.
Qed.


Lemma when_between (l : string) (L : list string) (f lo hi s : Q) :
  1 <= f -> 0 < lo -> lo <= s <= hi ->
  lo <= when l L f s <= f * hi.
Proof.
  intros Hf Hlo [H1 H2]. unfold when. destruct (mem l L); split; nra.
Qed.

(** The score is the source weight times a product of multipliers between
    1 and [highest_multiplier]. *)
Lemma priority_score_multiple (a : analysis) :
  exists multiplier,
    1 <= multiplier <= highest_multiplier /\
    calculate_priority_score a == multiplier * source_weight a.
Proof.
  unfold calculate_priority_score.
  set (s0 := match projects a with
             | [] => 1.0
             | p :: ps => 1.0 * max_project_score p ps
             end).
  assert (H0 : 1 <= s0 <= 1.5).
  { unfold s0. destruct (projects a) as [|p ps]; [split; discriminate|].
    rewrite max_project_score_cases.
    destruct (existsb is_high _); [split; discriminate|].
    destruct (existsb has_priority _); split; discriminate. }
  assert (Hone : 0 < 1) by reflexivity.
  pose proof (@when_between "high_impact" (context a) 1.3 _ _ _
                ltac:(discriminate) Hone H0) as H1.
  pose proof (@when_between "time_sensitive" (context a) 1.4 _ _ _
                ltac:(discriminate) Hone H1) as H2.
  pose proof (@when_between "alpha" (context a) 1.2 _ _ _
                ltac:(discriminate) Hone H2) as H3.
  pose proof (@when_between "risk" (context a) 1.5 _ _ _
                ltac:(discriminate) Hone H3) as H4.
  pose proof (@when_between "opportunity" (context a) 1.25 _ _ _
                ltac:(discriminate) Hone H4) as H5.
  pose proof (@when_between "urgent_action" (categories a) 1.5 _ _ _
                ltac:(discriminate) Hone H5) as H6.
  pose proof (@when_between "active_investment" (categories a) 1.3 _ _ _
                ltac:(discriminate) Hone H6) as H7.
  pose proof (@when_between "project_launch" (categories a) 1.25 _ _ _
                ltac:(discriminate) Hone H7) as H8.
  pose proof (@when_between "upcoming_opportunity" (categories a) 1.35 _ _ _
                ltac:(discriminate) Hone H8) as H9.
  eexists. split; [|reflexivity].
  split; [apply H9|]. eapply Qle_trans; [apply H9|].
  unfold highest_multiplier. apply Qle_bool_imp_le. reflexivity.
Qed.

(** X18.  The priority score is the source weight times a multiplier
    between 1 and 20.2126640625; both ends are reached: with no label and no
    project the score is the weight, and with every label and a
    high-priority project it is 20.2126640625 times the weight. *)
Theorem priority_score_is_a_bounded_multiple_of_the_weight :
  (forall a : analysis,
     exists multiplier,
       1 <= multiplier <= highest_multiplier /\
       calculate_priority_score a == multiplier * source_weight a) /\
  (forall w : Q,
     calculate_priority_score
       {| categories := []; context := []; projects := []; source_weight := w |}
     == w) /\
  (forall (w confidence : Q) (name : text) (source : origin),
     calculate_priority_score
       {| categories := ["urgent_action"; "active_investment"; "project_launch";
                         "upcoming_opportunity"]%string;
          context := ["high_impact"; "time_sensitive"; "alpha"; "risk";
                      "opportunity"]%string;
          projects := [ {| cand_name := name;
                           cand_priority := Some high_priority;
                           cand_confidence := confidence;
                           cand_source := source |} ];
          source_weight := w |}
     == highest_multiplier * w).
Proof.
  split; [exact priority_score_multiple|split].
  - intros w. unfold calculate_priority_score, when. simpl. ring.
  - intros w confidence name source. unfold calculate_priority_score, when. cbn [projects mem existsb
      context categories source_weight String.eqb Ascii.eqb Bool.eqb orb].
    unfold max_project_score, has_priority, project_score, max_of.
    cbn [existsb map fold_left cand_priority orb].
    unfold highest_multiplier. ring.
Qed.


Lemma firstn_run (cls : ascii -> bool) (s : text) (j : nat) :
  (j <= run cls s)%nat -> forallb cls (firstn j s) = true.
Proof.
  revert s. induction j as [|j IH]; intros s H; [reflexivity|].
  destruct s as [|c s]; simpl in *; [lia|].
  destruct (cls c); [|lia]. simpl. apply IH. lia.
Qed.

Lemma capped_le (hi : option nat) (n : nat) : (capped hi n <= n)%nat.
Proof. destruct hi; simpl; lia. Qed.

(** The text a capturing repetition of at least one character grabs. *)
Lemma captured_run (cls : ascii -> bool) (lo : nat) (hi : option nat)
    (p : pattern) (prev : option ascii) (s : text) (n : nat) (g : option text) :
  (1 <= lo)%nat ->
  match_here (Rep true cls lo hi :: p) prev s = Some (n, g) ->
  exists name, g = Some name /\ name <> [] /\ forallb cls name = true.
Proof.
  intros Hlo H. apply match_rep_inv in H.
  destruct H as (j & n' & g' & Hj & _ & _ & ->).
  pose proof (capped_le hi (run cls s)) as Hcap.
  exists (firstn j s). split; [reflexivity|]. split.
  - destruct j as [|j]; [lia|]. destruct s as [|c s]; simpl in *; [lia|discriminate].
  - apply firstn_run. lia.
Qed.

Lemma fold_case_name_char (c : ascii) :
  fold_case name_char c = true -> name_char c = true.
Proof.
  destruct c as [[] [] [] [] [] [] [] []]; vm_compute; intros H;
    solve [reflexivity | discriminate H].
Qed.

Lemma fold_case_upper_name_char (c : ascii) :
  fold_case is_upper c = true -> name_char c = true.
Proof.
  destruct c as [[] [] [] [] [] [] [] []]; vm_compute; intros H;
    solve [reflexivity | discriminate H].
Qed.

Lemma forallb_weaken (A : Type) (f g : A -> bool) (l : list A) :
  (forall x, f x = true -> g x = true) ->
  forallb f l = true -> forallb g l = true.
Proof.
  intros Hfg H. rewrite forallb_forall in *. auto.
Qed.

(** Whatever a discovery pattern captures is a non-empty run of letters,
    digits and underscores. *)
Lemma discovery_match_name (p : pattern) (prev : option ascii)
    (s : Text.text) (n : nat) (g : option Text.text) :
  In p discovery_patterns ->
  match_here p prev s = Some (n, g) ->
  exists name, g = Some name /\ name <> [] /\ forallb name_char name = true.
Proof.
  intros Hp H. unfold discovery_patterns in Hp. cbn [map] in Hp.
  destruct Hp as [<-|[<-|[<-|[<-|[<-|[<-|[]]]]]]]; rewrite ignorecase_app in H.
  - apply match_literal_ci in H; [|now apply (not_upper_literal "new project")].
    destruct H as (_ & prev' & n' & H & _).
    apply match_rep_inv in H. destruct H as (j & n'' & g' & _ & H & _ & ->).
    apply captured_run in H; [|lia].
    destruct H as (name & -> & Hne & Hall). exists name. repeat split; auto.
    eapply forallb_weaken; [apply fold_case_name_char|exact Hall].
  - apply match_literal_ci in H; [|now apply (not_upper_literal "upcoming project")].
    destruct H as (_ & prev' & n' & H & _).
    apply match_rep_inv in H. destruct H as (j & n'' & g' & _ & H & _ & ->).
    apply captured_run in H; [|lia].
    destruct H as (name & -> & Hne & Hall). exists name. repeat split; auto.
    eapply forallb_weaken; [apply fold_case_name_char|exact Hall].
  - apply captured_run in H; [|lia].
    destruct H as (name & -> & Hne & Hall). exists name. repeat split; auto.
    eapply forallb_weaken; [apply fold_case_name_char|exact Hall].
  - apply captured_run in H; [|lia].
    destruct H as (name & -> & Hne & Hall). exists name. repeat split; auto.
    eapply forallb_weaken; [apply fold_case_name_char|exact Hall].
  - apply captured_run in H; [|lia].
    destruct H as (name & -> & Hne & Hall). exists name. repeat split; auto.
    eapply forallb_weaken; [apply fold_case_name_char|exact Hall].
  - rewrite ignorecase_app in H.
    apply match_literal_ci in H; [|now apply (not_upper_literal "$")].
    destruct H as (_ & prev' & n' & H & _).
    apply captured_run in H; [|lia].
    destruct H as (name & -> & Hne & Hall). exists name. repeat split; auto.
    eapply forallb_weaken; [apply fold_case_upper_name_char|exact Hall].
Qed.

(** X19.  [detect_new_projects] returns names that are pairwise distinct
    even when letter case is ignored; each is non-empty, carries no
    priority, has source "discovery" and a confidence between 0.6 and 1.0.
    In ASCII text each name is a run of letters, digits and underscores and
    its confidence is at least 0.64.  (Outside ASCII, [re.IGNORECASE]
    matches further characters, and the confidence can be exactly 0.6.) *)
Theorem discovered_candidates_are_distinct_names_with_bounded_confidence
    (config : ProjectConfig) (text : Text.text) :
  let found := detect_new_projects config text in
  NoDup (map (fun c => lower (cand_name c)) found) /\
  Forall
    (fun c =>
       cand_priority c = None /\ cand_source c = from_discovery /\
       0.6 <= cand_confidence c <= 1.0 /\
       cand_name c <> [] /\
       (ascii_text text ->
        0.64 <= cand_confidence c /\ forallb name_char (cand_name c) = true))
    found.
Proof.
  cbv zeta. split.
  - unfold detect_new_projects. apply (@unique_by_NoDup lower). constructor.
  - apply Forall_forall. intros c Hin.
    pose proof (@candidate_has_signal _ _ _ Hin) as Hlo.
    pose proof (nearby_count_le text) as Hhi.
    pose proof (@detect_new_projects_candidate _ _ _ Hin) as (Hc & _ & p & Hp & Hg).
    assert (Hshape : cand_priority c = None /\ cand_source c = from_discovery).
    { unfold detect_new_projects in Hin.
      apply unique_by_subset in Hin. destruct Hin as [[]|Hin].
      apply in_flat_map in Hin. destruct Hin as (p' & _ & Hin).
      apply in_flat_map in Hin. destruct Hin as (m & _ & Hin).
      destruct (negb _); [|destruct Hin]. destruct Hin as [<-|[]]. now split. }
    destruct Hshape as [Hprio Hsrc].
    apply findall_from_match in Hg.
    destruct Hg as (pre & s' & prev' & n & grp & _ & Hm & Hname).
    destruct (@discovery_match_name _ _ _ _ _ Hp Hm) as (name & -> & Hne & Hall).
    assert (Hk : 0 <= inject_Z (Z.of_nat (nearby_count text)) <= 5).
    { split.
      - change 0 with (inject_Z 0). rewrite <- Zle_Qle. lia.
      - change 5 with (inject_Z 5). rewrite <- Zle_Qle. lia. }
    assert (Hk1 : 1 <= inject_Z (Z.of_nat (nearby_count text))).
    { change 1 with (inject_Z 1). rewrite <- Zle_Qle. lia. }
    assert (Hmin : 0 <= Qmin 0.2 (inject_Z (Z.of_nat (nearby_count text)) * 0.04)
                   <= 0.2).
    { split; [apply Q.min_glb; lra|apply Q.le_min_l]. }
    assert (Hmin1 : 0.04 <= Qmin 0.2 (inject_Z (Z.of_nat (nearby_count text)) * 0.04)).
    { apply Q.min_glb; lra. }
    assert (Hmore :
      0 <= (if (1 <? count (lower (cand_name c)) (lower text))%nat
            then Qmin 0.2 (inject_Z (Z.of_nat (count (lower (cand_name c))
                                                 (lower text))) * 0.05)
            else 0) <= 0.2).
    { destruct (1 <? _)%nat eqn:E; [|split; lra].
      apply Nat.ltb_lt in E.
      set (m := count (lower (cand_name c)) (lower text)) in *.
      assert (Hm2 : 2 <= inject_Z (Z.of_nat m)).
      { change 2 with (inject_Z 2). rewrite <- Zle_Qle. lia. }
      split; [apply Q.min_glb; lra|apply Q.le_min_l]. }
    assert (Hconf : cand_confidence c ==
              0.6
              + (if (1 <? count (lower (cand_name c)) (lower text))%nat
                 then Qmin 0.2 (inject_Z (Z.of_nat (count (lower (cand_name c))
                                                      (lower text))) * 0.05)
                 else 0)
              + Qmin 0.2 (inject_Z (Z.of_nat (nearby_count text)) * 0.04)).
    { rewrite Hc. unfold discovery_confidence.
      destruct (1 <? _)%nat; ring. }
    split; [exact Hprio|]. split; [exact Hsrc|]. split; [|split].
    + rewrite Hconf. split; lra.
    + rewrite Hname. exact Hne.
    + intros _. split; [rewrite Hconf; lra|]. rewrite Hname. exact Hall.
Qed.

Lemma discovered_candidates_in_ascii_text_witness :
  exists c, In c (detect_new_projects Examples.tracked (txt "foo airdrop")) /\
            0.64 <= cand_confidence c /\
            forallb name_char (cand_name c) = true.
Proof.
  pose proof (proj2 (discovered_candidates_are_distinct_names_with_bounded_confidence
                       Examples.tracked (txt "foo airdrop"))) as H.
  rewrite Forall_forall in H.
  eexists. split.
  - vm_compute. left. reflexivity.
  - match goal with |- _ <= cand_confidence ?c /\ _ =>
      destruct (H c) as (_ & _ & _ & _ & Hascii)
    end.
    + vm_compute. left. reflexivity.
    + apply Hascii. reflexivity.
Defined.


Lemma labels_found_NoDup (table : list (string * list text)) (t : text) :
  NoDup (map fst table) -> NoDup (labels_found table t).
Proof.
  unfold labels_found. induction table as [|[l ks] table IH]; simpl; intros H;
    [constructor|].
  inversion H as [|? ? Hnot Hnd]. subst.
  destruct (existsb _ ks); simpl; [|now apply IH].
  constructor; [|now apply IH].
  intros Hin. apply Hnot. apply in_map_iff in Hin.
  destruct Hin as ([l' ks'] & Heq & Hin). apply filter_In in Hin.
  apply in_map_iff. exists (l', ks'). split; [exact Heq|apply Hin].
Qed.

Lemma labels_found_In (table : list (string * list text)) (t : text)
    (label : string) :
  In label (labels_found table t) <->
  exists keywords, In (label, keywords) table /\
                   existsb (fun keyword => contains keyword t) keywords = true.
Proof.
  unfold labels_found. rewrite in_map_iff. split.
  - intros ([l ks] & <- & Hin). apply filter_In in Hin. now exists ks.
  - intros (ks & Hin & Hex). exists (label, ks). split; [reflexivity|].
    apply filter_In. now split.
Qed.

Lemma labels_found_none (table : list (string * list text)) (t : text)
    (label : string) (keywords : list text) (keyword : text) :
  labels_found table t = [] ->
  In (label, keywords) table -> In keyword keywords ->
  contains keyword t = false.
Proof.
  intros Hnone Hin Hk. apply not_true_is_false. intros Hc.
  assert (H : In label (labels_found table t)).
  { apply labels_found_In. exists keywords. split; [exact Hin|].
    apply existsb_exists. now exists keyword. }
  rewrite Hnone in H. destruct H.
Qed.

(** With no category keyword in the text, the words [update], [holder]
    and [supply] are absent too, each being a category keyword: of the
    inference rules only two can fire. *)
Lemma inferred_categories_live (t : text) :
  labels_found categories_table t = [] ->
  inferred_categories t
  = ((if contains (txt "new") t || contains (txt "release") t
         || contains (txt "version") t
      then ["monitoring_needed"%string] else [])
     ++ (if existsb is_digit t
            && (contains (txt "x") t || contains (txt "%") t
                || contains (txt "apy") t)
         then ["defi"%string] else []))%list.
Proof.
  intros Hnone.
  assert (Hupdate : contains (txt "update") t = false).
  { apply (@labels_found_none categories_table t "monitoring_needed"
             (map txt ["proposal"; "update"; "change"; "обновление";
                       "announcement"]%string) (txt "update") Hnone);
      simpl; tauto. }
  assert (Hholder : contains (txt "holder") t = false).
  { apply (@labels_found_none categories_table t "community"
             (map txt ["community"; "holder"; "ambassador"; "сообщество";
                       "амбассадор"]%string) (txt "holder") Hnone);
      simpl; tauto. }
  assert (Hsupply : contains (txt "supply") t = false).
  { apply (@labels_found_none categories_table t "tokenomics"
             (map txt ["token"; "supply"; "allocation"; "vesting"; "токен";
                       "эмиссия"]%string) (txt "supply") Hnone);
      simpl; tauto. }
  unfold inferred_categories. cbn [map existsb].
  rewrite Hupdate, Hholder, Hsupply. cbn [orb].
  rewrite orb_false_r, orb_assoc.
  destruct (existsb is_digit t); cbn [andb]; [|reflexivity].
  now destruct (contains (txt "x") t || contains (txt "%") t
                || contains (txt "apy") t).
Qed.

(** X20.  [categorize_text] lists no category and no context indicator
    twice.  An indicator is listed exactly when one of its keywords occurs
    in the normalised text.  A category is listed exactly when one of its
    keywords occurs or, no category keyword occurring at all, it is
    "monitoring_needed" inferred from [new], [release] or [version], or
    "defi" inferred from a digit together with [x], [%] or [apy]: the
    inference from [update] and the inference of "tokenomics" never fire. *)
Theorem categorize_text_labels (config : ProjectConfig) (text : Text.text)
    (channel : option Text.text) :
  let r := result (categorize_text config text channel) in
  let t := preprocess_text text in
  NoDup (categories r) /\ NoDup (context r) /\
  (forall label,
     In label (context r) <->
     exists keywords, In (label, keywords) priority_indicators /\
                      existsb (fun keyword => contains keyword t) keywords = true) /\
  (forall label,
     In label (categories r) <->
     (exists keywords, In (label, keywords) categories_table /\
                       existsb (fun keyword => contains keyword t) keywords = true)
     \/ (labels_found categories_table t = [] /\
         ((label = "monitoring_needed"%string /\
           (contains (txt "new") t || contains (txt "release") t
            || contains (txt "version") t) = true)
          \/ (label = "defi"%string /\
              existsb is_digit t = true /\
              (contains (txt "x") t || contains (txt "%") t
               || contains (txt "apy") t) = true)))).
Proof.
  cbv zeta. unfold categorize_text. cbn [result categories context].
  set (t := preprocess_text text).
  split; [|split; [|split]].
  - destruct (labels_found categories_table t) as [|l ls] eqn:E.
    + rewrite (inferred_categories_live _ E).
      destruct (contains (txt "new") t || _ || _);
        destruct (existsb is_digit t && _); simpl;
        repeat constructor; simpl; intuition discriminate.
    + rewrite <- E. apply labels_found_NoDup.
      repeat constructor; simpl; intuition discriminate.
  - apply labels_found_NoDup.
    repeat constructor; simpl; intuition discriminate.
  - intros label. apply labels_found_In.
  - intros label.
    destruct (labels_found categories_table t) as [|l ls] eqn:E.
    + rewrite (inferred_categories_live _ E). split.
      * intros H. right. split; [reflexivity|].
        apply in_app_or in H. destruct H as [H|H].
        -- destruct (contains (txt "new") t || _ || _); [|destruct H].
           destruct H as [<-|[]]. left. now split.
        -- destruct (existsb is_digit t); cbn [andb] in H; [|destruct H].
           destruct (contains (txt "x") t || _ || _); [|destruct H].
           destruct H as [<-|[]]. right. now split.
      * intros [H|[_ [[-> H]|[-> [Hd H]]]]].
        -- apply labels_found_In in H. rewrite E in H. destruct H.
        -- rewrite H. apply in_or_app. left. now left.
        -- rewrite Hd, H. apply in_or_app. right. now left.
    + rewrite <- E. rewrite labels_found_In. split; [tauto|].
      intros [H|[H _]]; [exact H|]. rewrite E in H. discriminate.
Qed.


Lemma skipn_subset (A : Type) (n : nat) (l : list A) (x : A) :
  In x (skipn n l) -> In x l.
Proof.
  revert l. induction n as [|n IH]; intros l; [easy|].
  destruct l as [|a l]; [easy|]. simpl. auto.
Qed.

(** A captured group is made of characters of the text matched. *)
Lemma match_group_chars (p : pattern) (prev : option ascii) (s : text)
    (n : nat) (g : text) (x : ascii) :
  match_here p prev s = Some (n, Some g) -> In x g -> In x s.
Proof.
  revert prev s n. induction p as [|i p IH]; intros prev s n H Hx.
  - discriminate.
  - destruct i as [capture cls lo hi|].
    + apply match_rep_inv in H.
      destruct H as (j & n' & g' & _ & Hm & _ & Hg).
      destruct capture.
      * injection Hg as ->. now apply firstn_subset in Hx.
      * subst g'. eapply skipn_subset, IH; eassumption.
    + cbn [match_here] in H. destruct (at_boundary prev s); [|discriminate].
      eapply IH; eassumption.
Qed.

Lemma to_lower_dollar (c : ascii) : to_lower c = "$"%char -> c = "$"%char.
Proof.
  destruct c as [[] [] [] [] [] [] [] []]; vm_compute; intros H;
    solve [reflexivity | discriminate H].
Qed.

(** The pattern [\$([A-Z]{2,10}) launch] needs a dollar sign. *)
Lemma dollar_pattern_needs_dollar (s : text) :
  ~ In "$"%char s ->
  findall (ignorecase dollar_launch_pattern) s = [].
Proof.
  intros Hno.
  destruct (findall _ s) as [|g l] eqn:E; [reflexivity|].
  exfalso.
  assert (Hin : In g (findall (ignorecase dollar_launch_pattern) s))
    by (rewrite E; now left).
  apply findall_from_match in Hin.
  destruct Hin as (pre & s' & prev' & n & grp & -> & Hm & _).
  unfold dollar_launch_pattern in Hm. rewrite ignorecase_app in Hm.
  apply match_literal_ci in Hm; [|now apply (not_upper_literal "$")].
  destruct Hm as [Hs _].
  destruct s' as [|c s']; [discriminate|].
  change (lower (c :: s')) with (to_lower c :: lower s') in Hs.
  change (txt "$") with ["$"%char] in Hs. cbn [starts_with] in Hs.
  apply andb_true_iff in Hs. destruct Hs as [Hc _].
  apply Ascii.eqb_eq in Hc. symmetry in Hc. apply to_lower_dollar in Hc. subst c.
  apply Hno. apply in_or_app. right. now left.
Qed.

(** X21.  [categorize_text] hands the normalised text on: the projects it
    reports are those [identify_projects] finds in the original text; the
    discovery pattern [\$([A-Z]{2,10}) launch] never matches, the dollar
    signs being gone; and every discovered name is lower-case and is not the
    name of a registered project. *)
Theorem categorize_text_searches_the_normalised_text (config : ProjectConfig)
    (text : Text.text) (channel : option Text.text) :
  let c := categorize_text config text channel in
  projects (result c) = identify_projects config text channel /\
  In (ignorecase dollar_launch_pattern) discovery_patterns /\
  findall (ignorecase dollar_launch_pattern) (preprocess_text text) = [] /\
  Forall (fun found => lower (cand_name found) = cand_name found
                       /\ is_known_project config (cand_name found) = false)
    (new_projects c).
Proof.
  cbv zeta. unfold categorize_text. cbn [result projects new_projects].
  split; [|split; [|split]].
  - unfold identify_projects.
    now rewrite (normal_fixed (preprocess_text_normal text)).
  - unfold discovery_patterns. cbn [map In]. tauto.
  - apply dollar_pattern_needs_dollar, preprocess_text_no_dollar.
  - apply Forall_forall. intros found Hin.
    pose proof (@detect_new_projects_candidate _ _ _ Hin) as (_ & Hk & p & _ & Hg).
    split; [|exact Hk].
    apply findall_from_match in Hg.
    destruct Hg as (pre & s' & prev' & n & grp & Hsplit & Hm & Hname).
    destruct (preprocess_text_normal text) as (Hset & _).
    rewrite Forall_forall in Hset.
    assert (Hchars : forall x, In x (cand_name found) -> to_lower x = x).
    { intros x Hx. apply Hset. rewrite Hsplit. apply in_or_app. right.
      rewrite Hname in Hx. destruct grp as [g|].
      - eapply match_group_chars; eassumption.
      - now apply firstn_subset in Hx. }
    unfold lower. rewrite <- (map_id (cand_name found)) at 2.
    apply map_ext_in. exact Hchars.
Qed.

(** What a source weight can be: a tracked channel decides it, whatever
    the source type. *)
Lemma get_source_weight_values (config : ProjectConfig) (source_type : string)
    (channel : option text) :
  match tracked_channel config channel with
  | Some info =>
      get_source_weight config source_type channel = weight info /\
      (weight info = 1.0 \/ weight info = 0.8)
  | None =>
      get_source_weight config source_type channel
      = if String.eqb source_type "official" then 1.0
        else if String.eqb source_type "partner" then 0.8
        else if String.eqb source_type "community" then 0.6
        else 0.4
  end.
Proof.
  unfold get_source_weight.
  destruct (tracked_channel config channel) as [info|] eqn:E.
  2:{ unfold source_weights. cbn [weights_get].
      repeat match goal with
             | |- context [String.eqb ?a ?b] => destruct (String.eqb a b)
             end; reflexivity. }
  split; [reflexivity|].
  unfold tracked_channel in E. destruct channel as [[|c ch]|]; try discriminate.
  apply tracked_channel_listed in E.
  destruct E as (entry & _ & _ & [(_ & H & _)|(_ & H & _)]); auto.
Qed.

(** X22.  For a categorised message the source weight is 1.0, 0.8 or 0.4
    (0.4 whenever the channel is not tracked, the source type playing no
    part), and the stored priority score lies between that weight and
    20.2126640625 times it, hence between 0.4 and 20.2126640625. *)
Theorem message_priority_range (config : ProjectConfig) (text : Text.text)
    (channel : option Text.text) :
  let weight := source_weight (result (categorize_text config text channel)) in
  (weight = 1.0 \/ weight = 0.8 \/ weight = 0.4) /\
  (tracked_channel config channel = None -> weight = 0.4) /\
  weight <= message_priority config text channel <= highest_multiplier * weight /\
  0.4 <= message_priority config text channel <= highest_multiplier.
Proof.
  cbv zeta. unfold message_priority.
  destruct (priority_score_multiple (result (categorize_text config text channel)))
    as (m & [Hm1 Hm2] & Hscore).
  set (r := result (categorize_text config text channel)) in *.
  assert (Hw : source_weight r = get_source_weight config "general" channel)
    by reflexivity.
  pose proof (get_source_weight_values config "general" channel) as Hv.
  assert (Hcases : (source_weight r = 1.0 \/ source_weight r = 0.8
                    \/ source_weight r = 0.4)
                   /\ (tracked_channel config channel = None ->
                       source_weight r = 0.4)).
  { rewrite Hw. destruct (tracked_channel config channel) as [info|].
    - destruct Hv as [-> [->| ->]]; split; auto; discriminate.
    - rewrite Hv. split; auto. }
  destruct Hcases as [Hcases Hnone].
  assert (Hcap : 1 <= highest_multiplier) by (apply Qle_bool_imp_le; reflexivity).
  split; [exact Hcases|]. split; [exact Hnone|].
  rewrite Hscore.
  destruct Hcases as [->|[->| ->]]; repeat split; nra.
Qed.

End ClassifierExtras.

(* ================================================================== *)
(** * Properties of the settings store *)
Section SettingsFacts.

Import Config Settings.

Lemma write_length (atom : Type) (h : heap atom) (l : nat) (o : object atom) :
  length (write h l o) = length h.
Proof.
  revert l. induction h as [|x h IH]; intros l; [reflexivity|].
  destruct l; simpl; [reflexivity|]. now rewrite IH.
Qed.

Lemma nth_error_write_same (atom : Type) (h : heap atom) (l : nat) (o : object atom) :
  l < length h -> nth_error (write h l o) l = Some o.
Proof.
  revert l. induction h as [|x h IH]; intros l H; simpl in H; [lia|].
  destruct l; simpl; [reflexivity|]. apply IH. lia.
Qed.

Lemma nth_error_write_other (atom : Type) (h : heap atom) (l l' : nat) (o : object atom) :
  l' <> l -> nth_error (write h l o) l' = nth_error h l'.
Proof.
  revert l l'. induction h as [|x h IH]; intros l l' H; [reflexivity|].
  destruct l, l'; simpl; try reflexivity; [lia|]. apply IH. lia.
Qed.

Lemma nth_error_valid (A : Type) (h : list A) (l : nat) (x : A) :
  nth_error h l = Some x -> l < length h.
Proof. intros H. apply nth_error_Some. congruence. Qed.

(** X23.  When [set] returns normally and the section is not the
    configuration dictionary itself, [get] of that section and key answers
    the value just set; the other keys of the section and the other
    sections read as before. *)
Theorem set_then_get (atom : Type) (s s' : settings atom) (section key : text)
    (v : value atom) :
  set s section key v = (s', Returned tt) ->
  get s section None <> Returned (Value (Ref (config s))) ->
  get s' section (Some key) = Returned (Value v) /\
  (forall other, other <> key -> get s section None <> Returned EmptyDict ->
                 get s' section (Some other) = get s section (Some other)) /\
  (forall other, other <> section ->
                 get s' other None = get s other None) /\
  defaults s' = defaults s /\ config s' = config s.
Proof.
  unfold set, get.
  destruct (nth_error (store s) (config s)) as [top|] eqn:Etop; [|discriminate].
  pose proof (nth_error_valid _ _ Etop) as Hc.
  destruct (dict_get section top) as [[a|l]|] eqn:Esec; [discriminate| |].
  - destruct (nth_error (store s) l) as [o|] eqn:Eo; [|discriminate].
    pose proof (nth_error_valid _ _ Eo) as Hl.
    intros H Hself. injection H as <-. cbn [store config defaults].
    assert (Hne : config s <> l) by (intros <-; now apply Hself).
    rewrite (nth_error_write_other _ _ Hne), Etop, Esec.
    rewrite (nth_error_write_same _ _ Hl), dict_get_set, text_eqb_refl.
    repeat split.
    + intros other Hother _. rewrite dict_get_set.
      apply text_eqb_neq in Hother. now rewrite Hother.
  - intros H _. injection H as <-. cbn [store config defaults].
    set (l := length (store s)).
    assert (Hne : config s <> l) by (unfold l; lia).
    rewrite (nth_error_write_other _ _ Hne).
    rewrite nth_error_write_same by (rewrite length_app; simpl; lia).
    rewrite dict_get_set, text_eqb_refl.
    rewrite nth_error_write_same
      by (rewrite write_length, length_app; simpl; unfold l; lia).
    cbn [dict_set dict_get]. rewrite text_eqb_refl.
    repeat split.
    + intros other _ Hempty. now contradiction Hempty.
    + intros other Hother. rewrite dict_get_set.
      apply text_eqb_neq in Hother. now rewrite Hother.
Qed.

Lemma set_then_get_witness :
  get (fst (set (init None) (txt "api") (txt "port") (Atom (Num 9000%Q))))
    (txt "api") (Some (txt "port"))
  = Returned (Value (Atom (Num 9000%Q))).
Proof.
  apply (@set_then_get scalar (init None) _ (txt "api") (txt "port")
           (Atom (Num 9000%Q))).
  - reflexivity.
  - discriminate.
Defined.

Lemma copy_defaults_top (atom : Type) (h : heap atom) (d : nat)
    (top : object atom) :
  nth_error h d = Some top ->
  nth_error (store (copy_defaults h d)) (config (copy_defaults h d)) = Some top /\
  nth_error (store (copy_defaults h d)) d = Some top /\
  d < length h.
Proof.
  intros H. pose proof (nth_error_valid _ _ H) as Hd.
  unfold copy_defaults.
  rewrite (@nth_error_nth (object atom) h d top [] H). cbn [store config].
  rewrite nth_error_app2, Nat.sub_diag by lia. cbn [nth_error].
  rewrite nth_error_app1 by lia. auto.
Qed.

(** X24.  The configuration is a shallow copy of the defaults.  Setting a
    key in a section that the defaults hold as a dictionary changes that
    dictionary in place: the defaults read the new value too.  Setting a key
    in a section the defaults lack creates the section in the configuration
    only. *)
Theorem set_writes_through_to_defaults (atom : Type) (h : heap atom)
    (d : nat) (top : object atom) (section key : text) (v : value atom) :
  nth_error h d = Some top ->
  let s := copy_defaults h d in
  let s' := fst (set s section key v) in
  (forall l, dict_get section top = Some (Ref l) -> l <> d -> l < length h ->
     snd (set s section key v) = Returned tt /\
     get s' section (Some key) = Returned (Value v) /\
     get_default s' section key = Returned (Value v)) /\
  (dict_get section top = None ->
     snd (set s section key v) = Returned tt /\
     get s' section (Some key) = Returned (Value v) /\
     get_default s' section key = Returned NoneValue).
Proof.
  intros Htop. cbv zeta.
  destruct (@copy_defaults_top atom h d top Htop) as (Hc & Hd & Hlt).
  assert (Hcfg : config (copy_defaults h d) = length h) by reflexivity.
  assert (Hlen : length (store (copy_defaults h d)) = S (length h))
    by (unfold copy_defaults; cbn [store]; rewrite length_app; simpl; lia).
  assert (Hdef : defaults (copy_defaults h d) = d) by reflexivity.
  set (s := copy_defaults h d) in *.
  split.
  - intros l Hsec Hne Hl.
    assert (Ho : exists o, nth_error (store s) l = Some o).
    { destruct (nth_error (store s) l) eqn:E; [eauto|].
      apply nth_error_None in E. lia. }
    destruct Ho as (o & Ho).
    unfold get_default, get, set. rewrite Hc, Hsec, Ho.
    cbn [fst snd store config defaults].
    rewrite (@nth_error_write_other _ (store s) l (config s)) by lia.
    rewrite Hc, Hsec.
    rewrite nth_error_write_same by lia.
    rewrite dict_get_set, text_eqb_refl.
    rewrite Hdef, (@nth_error_write_other _ (store s) l d) by lia.
    rewrite Hd, Hsec.
    rewrite nth_error_write_same by lia.
    now rewrite dict_get_set, text_eqb_refl.
  - intros Hsec.
    unfold get_default, get, set. rewrite Hc, Hsec.
    cbn [fst snd store config defaults].
    rewrite Hlen, Hcfg, Hdef.
    assert (Hlen' : length (store s ++ [[]]) = S (S (length h)))
      by (rewrite length_app, Hlen; simpl; lia).
    rewrite (@nth_error_write_other _ _ (S (length h)) (length h)) by lia.
    rewrite nth_error_write_same by lia.
    rewrite dict_get_set, text_eqb_refl.
    rewrite nth_error_write_same by (rewrite write_length; lia).
    cbn [dict_set dict_get]. rewrite text_eqb_refl.
    rewrite (@nth_error_write_other _ _ (S (length h)) d) by lia.
    rewrite (@nth_error_write_other _ _ (length h) d) by lia.
    rewrite nth_error_app1 by lia.
    rewrite Hd, Hsec. auto.
Qed.

Lemma set_writes_through_to_defaults_witness :
  get_default (fst (set (init None) (txt "api") (txt "port") (Atom (Num 9000%Q))))
    (txt "api") (txt "port")
  = Returned (Value (Atom (Num 9000%Q))).
Proof.
  destruct (@set_writes_through_to_defaults scalar default_store 0 _
              (txt "api") (txt "port") (Atom (Num 9000%Q)) eq_refl) as [H _].
  apply (H 2).
  - reflexivity.
  - discriminate.
  - simpl. lia.
Defined.

Lemma json_induction (atom : Type) (P : json atom -> Prop) :
  (forall a, P (JLeaf a)) ->
  (forall fields, Forall (fun kv => P (snd kv)) fields -> P (JDict fields)) ->
  forall u, P u.
Proof.
  intros Hleaf Hdict. fix IH 1. intros [a|fields]; [apply Hleaf|].
  apply Hdict. induction fields as [|[k v] rest IHrest]; constructor.
  - apply IH.
  - exact IHrest.
Qed.

Lemma keeps_refl (atom : Type) (h : heap atom) : keeps h h.
Proof. split; [lia|]. intros l o H. exists o. auto. Qed.

Lemma keeps_trans (atom : Type) (h1 h2 h3 : heap atom) :
  keeps h1 h2 -> keeps h2 h3 -> keeps h1 h3.
Proof.
  intros [L1 K1] [L2 K2]. split; [lia|]. intros l o H.
  destruct (K1 _ _ H) as (o2 & H2 & Hk2).
  destruct (K2 _ _ H2) as (o3 & H3 & Hk3).
  exists o3. split; [exact H3|]. auto.
Qed.

Lemma keeps_alloc (atom : Type) (h : heap atom) (o : object atom) :
  keeps h (h ++ [o]).
Proof.
  split; [rewrite length_app; lia|]. intros l x H. exists x.
  split; [|auto]. rewrite nth_error_app1; [exact H|].
  eapply nth_error_valid; eassumption.
Qed.

Lemma keeps_write (atom : Type) (h : heap atom) (l : nat) (o : object atom)
    (k : text) (v : value atom) :
  nth_error h l = Some o -> keeps h (write h l (dict_set k v o)).
Proof.
  intros H. split; [rewrite write_length; lia|]. intros l' o' H'.
  destruct (Nat.eq_dec l' l) as [->|Hne].
  - rewrite H in H'. injection H' as <-. exists (dict_set k v o).
    split; [apply nth_error_write_same; eapply nth_error_valid; eassumption|].
    intros k' Hk'. rewrite dict_get_set. now destruct (text_eqb k' k).
  - exists o'. split; [|auto]. now rewrite nth_error_write_other.
Qed.

Lemma update_nested_dict_keeps (atom : Type) (u : json atom) :
  forall (h : heap atom) (d : value atom),
    keeps h (fst (update_nested_dict h d u)) /\
    forall x, snd (update_nested_dict h d u) = Returned x -> x = d.
Proof.
  induction u as [a|fields IH] using json_induction; intros h d.
  - split; [apply keeps_refl|discriminate].
  - cbn [update_nested_dict]. revert h.
    induction IH as [|[k v] rest Hv _ IHrest]; intros h.
    + split; [apply keeps_refl|]. intros x H. now injection H.
    + destruct d as [a|l]; [split; [apply keeps_refl|discriminate]|].
      destruct (nth_error h l) as [o|] eqn:Eo;
        [|split; [apply keeps_refl|discriminate]].
      destruct v as [a|sub_fields].
      * destruct (IHrest (write h l (dict_set k (Atom a) o))) as [Hk Hr].
        split; [|exact Hr].
        eapply keeps_trans; [apply keeps_write; exact Eo|exact Hk].
      * cbn [snd] in Hv.
        set (start := match dict_get k o with
                      | Some x => (h, x)
                      | None => (h ++ [[]], Ref (length h))
                      end).
        assert (Hstart : keeps h (fst start)).
        { unfold start. destruct (dict_get k o);
            [apply keeps_refl|apply keeps_alloc]. }
        destruct start as [h1 sub]. cbn [fst] in Hstart.
        destruct (Hv h1 sub) as [Hk1 Hr1].
        destruct (update_nested_dict h1 sub (JDict sub_fields)) as [h2 [r|]].
        -- cbn [fst] in Hk1.
           destruct (nth_error h2 l) as [o2|] eqn:Eo2.
           ++ destruct (IHrest (write h2 l (dict_set k r o2))) as [Hk Hr].
              split; [|exact Hr].
              eapply keeps_trans; [exact Hstart|].
              eapply keeps_trans; [exact Hk1|].
              eapply keeps_trans; [apply keeps_write; exact Eo2|exact Hk].
           ++ split; [|discriminate].
              eapply keeps_trans; [exact Hstart|exact Hk1].
        -- split; [|discriminate].
           eapply keeps_trans; [exact Hstart|exact Hk1].
Qed.

(** X25.  Whether it returns or raises, [_update_nested_dict] loses
    nothing: every dictionary of the store is still there with every key it
    had.  When it returns, it returns the dictionary it was given.  Given an
    atom instead of a dictionary it returns only for an empty update. *)
Theorem update_nested_dict_never_forgets (atom : Type) (h : heap atom)
    (d : value atom) (u : json atom) :
  let '(h', result) := update_nested_dict h d u in
  keeps h h' /\
  (forall x, result = Returned x -> x = d) /\
  (forall a, d = Atom a -> result = Returned d <-> u = JDict []).
Proof.
  pose proof (update_nested_dict_keeps u h d) as [Hk Hr].
  destruct (update_nested_dict h d u) as [h' result] eqn:E.
  cbn [fst snd] in *. split; [exact Hk|]. split; [exact Hr|].
  intros a ->. destruct u as [b|[|[k v] rest]]; cbn in E.
  - injection E as <- <-. split; discriminate.
  - injection E as <- <-. split; reflexivity.
  - injection E as <- <-. split; discriminate.
Qed.

Lemma dict_set_same (V : Type) (k : text) (v : V) (d : dict V) :
  dict_get k d = Some v -> dict_set k v d = d.
Proof.
  induction d as [|[k' v'] d IH]; simpl; [discriminate|].
  destruct (text_eqb k k'); intros H.
  - now injection H as ->.
  - now rewrite IH.
Qed.

Lemma nth_error_write (atom : Type) (h : heap atom) (l l' : nat)
    (o : object atom) :
  nth_error (write h l o) l'
  = if Nat.eqb l' l then (if l <? length h then Some o else None)
    else nth_error h l'.
Proof.
  destruct (Nat.eqb_spec l' l) as [->|Hne].
  - destruct (Nat.ltb_spec l (length h)) as [Hlt|Hge].
    + now apply nth_error_write_same.
    + apply nth_error_None. rewrite write_length. lia.
  - now apply nth_error_write_other.
Qed.

(** Two states that [get] cannot tell apart, whether it reads the
    configuration or the defaults. *)
Lemma same_store_same_answers (atom : Type) (s1 s2 : settings atom) :
  (forall l, nth_error (store s1) l = nth_error (store s2) l) ->
  config s1 = config s2 -> defaults s1 = defaults s2 ->
  forall section key,
    get s1 section key = get s2 section key /\
    forall k, get_default s1 section k = get_default s2 section k.
Proof.
  intros Hs Hc Hd section key. unfold get_default, get. cbn [store config].
  rewrite Hc, Hd. split.
  - rewrite Hs. destruct (nth_error (store s2) (config s2)); [|reflexivity].
    destruct key; [|reflexivity].
    destruct (dict_get section o) as [[b|l]|]; try reflexivity. now rewrite Hs.
  - intros k. rewrite Hs.
    destruct (nth_error (store s2) (defaults s2)); [|reflexivity].
    destruct (dict_get section o) as [[b|l]|]; try reflexivity. now rewrite Hs.
Qed.

(** X26.  Loading a user configuration that holds one key under one
    section has the effect of [set] with that section, key and value: every
    later [get], and every reading of the defaults, answers the same. *)
Theorem load_config_of_one_key_is_set (atom : Type) (s : settings atom)
    (section key : text) (a : atom) :
  snd (set s section key (Atom a)) = Returned tt ->
  get s section None <> Returned (Value (Ref (config s))) ->
  let loaded :=
    load_config (Some (JDict [(section, JDict [(key, JLeaf a)])])) s in
  let assigned := fst (set s section key (Atom a)) in
  forall section' key',
    get loaded section' key' = get assigned section' key' /\
    forall k, get_default loaded section' k = get_default assigned section' k.
Proof.
  intros Hset Hself. cbv zeta.
  apply same_store_same_answers.
  2:{ unfold set. destruct (nth_error (store s) (config s)); [|reflexivity].
      destruct (dict_get section o) as [[b|l]|]; try reflexivity.
      now destruct (nth_error (store s) l). }
  2:{ unfold set. destruct (nth_error (store s) (config s)); [|reflexivity].
      destruct (dict_get section o) as [[b|l]|]; try reflexivity.
      now destruct (nth_error (store s) l). }
  revert Hset Hself. unfold load_config, set, get.
  cbn [store update_nested_dict].
  destruct (nth_error (store s) (config s)) as [top|] eqn:Etop; [|discriminate].
  pose proof (nth_error_valid _ _ Etop) as Hc.
  destruct (dict_get section top) as [[b|l]|] eqn:Esec; [discriminate| |].
  - destruct (nth_error (store s) l) as [o|] eqn:Eo; [|discriminate].
    pose proof (nth_error_valid _ _ Eo) as Hl.
    intros _ Hself. assert (Hne : config s <> l) by (intros <-; now apply Hself).
    rewrite (@nth_error_write_other _ (store s) l (config s)) by exact Hne.
    rewrite Etop. cbn [fst store].
    rewrite (dict_set_same _ _ Esec).
    intros c. rewrite !nth_error_write, write_length.
    destruct (Nat.eqb_spec c (config s)) as [->|Hcc]; [|reflexivity].
    apply Nat.ltb_lt in Hc. rewrite Hc.
    apply Nat.eqb_neq in Hne. rewrite Hne. now rewrite Etop.
  - intros _ _.
    rewrite nth_error_app2, Nat.sub_diag by lia. cbn [nth_error].
    assert (Hne : config s <> length (store s)) by lia.
    rewrite (@nth_error_write_other _ _ (length (store s)) (config s)) by exact Hne.
    rewrite nth_error_app1 by lia. rewrite Etop. cbn [fst store].
    intros c. repeat (rewrite nth_error_write || rewrite write_length).
    destruct (Nat.eqb_spec c (config s)) as [Hcc|Hcc];
      destruct (Nat.eqb_spec c (length (store s))) as [Hcl|Hcl];
      solve [reflexivity | lia].
Qed.

Lemma load_config_of_one_key_is_set_witness :
  get_default
    (init (Some (JDict [(txt "api", JDict [(txt "port", JLeaf (Num 9000%Q))])])))
    (txt "api") (txt "port")
  = get_default
      (fst (set (init None) (txt "api") (txt "port") (Atom (Num 9000%Q))))
      (txt "api") (txt "port").
Proof.
  apply (@load_config_of_one_key_is_set scalar (init None) (txt "api")
           (txt "port") (Num 9000%Q) eq_refl).
  - discriminate.
  - exact None.
Defined.

(** *** [_update_nested_dict] on a tree of dictionaries *)

Lemma shape_valid (atom : Type) (h : heap atom) :
  (forall t v cells, shape h t v cells ->
     forall c, In c cells -> c < length h) /\
  (forall fields o cells, entries h fields o cells ->
     forall c, In c cells -> c < length h).
Proof.
  apply shape_mutual_ind.
  - intros a c [].
  - intros l o fields cells Hl _ IH c [<-|Hc]; [|now apply IH].
    eapply nth_error_valid; eassumption.
  - intros c [].
  - intros k t v part fields o cells _ IH1 _ IH2 c Hc.
    apply in_app_or in Hc. destruct Hc; auto.
Qed.

Lemma shape_frame (atom : Type) (h : heap atom) :
  (forall t v cells, shape h t v cells ->
     forall h', (forall c, In c cells -> nth_error h' c = nth_error h c) ->
                shape h' t v cells) /\
  (forall fields o cells, entries h fields o cells ->
     forall h', (forall c, In c cells -> nth_error h' c = nth_error h c) ->
                entries h' fields o cells).
Proof.
  apply shape_mutual_ind.
  - intros a h' _. constructor.
  - intros l o fields cells Hl _ IH h' Hsame. apply shape_dict with (o := o).
    + rewrite Hsame; [exact Hl|now left].
    + apply IH. intros c Hc. apply Hsame. now right.
  - intros h' _. constructor.
  - intros k t v part fields o cells _ IH1 _ IH2 h' Hsame. constructor.
    + apply IH1. intros c Hc. apply Hsame, in_or_app. now left.
    + apply IH2. intros c Hc. apply Hsame, in_or_app. now right.
Qed.

Lemma entries_app (atom : Type) (h : heap atom)
    (f1 f2 : list (text * json atom)) (o1 o2 : object atom) (c1 c2 : list nat) :
  entries h f1 o1 c1 -> entries h f2 o2 c2 ->
  entries h (f1 ++ f2) (o1 ++ o2) (c1 ++ c2).
Proof.
  intros H1 H2. induction H1 as [|k t v part fields o cells Ht _ IH];
    [exact H2|].
  cbn [app]. rewrite <- app_assoc. now constructor.
Qed.

(** An object and the tree it stands for, cut at the entry of a key: where
    [d[k] = v] writes. *)
Lemma entries_split (atom : Type) (h : heap atom) (k : text)
    (fields : list (text * json atom)) (o : object atom) (cells : list nat) :
  entries h fields o cells ->
  exists f1 f2 o1 o2 c1 c2 part,
    cells = c1 ++ part ++ c2 /\
    entries h f1 o1 c1 /\ entries h f2 o2 c2 /\
    (forall x, dict_set k x o = o1 ++ (k, x) :: o2) /\
    (forall t, dict_set k t fields = f1 ++ (k, t) :: f2) /\
    match dict_get k o with
    | Some x => exists tx, dict_get k fields = Some tx /\ shape h tx x part
    | None => dict_get k fields = None /\ part = []
    end.
Proof.
  induction 1 as [|k0 t0 v0 part0 fields o cells Ht Hrest IH].
  - exists [], [], [], [], [], [], []. repeat split; constructor.
  - cbn [dict_get dict_set]. destruct (text_eqb k k0) eqn:E.
    + apply text_eqb_eq in E. subst k0.
      exists [], fields, [], o, [], cells, part0.
      repeat split; try constructor; try exact Hrest.
      exists t0. split; [reflexivity|exact Ht].
    + destruct IH as (f1 & f2 & o1 & o2 & c1 & c2 & part & -> & H1 & H2 & Ho & Hf & Hget).
      exists ((k0, t0) :: f1), f2, ((k0, v0) :: o1), o2, (part0 ++ c1), c2, part.
      repeat split.
      * now rewrite <- app_assoc.
      * now constructor.
      * exact H2.
      * intros x. now rewrite Ho.
      * intros t. now rewrite Hf.
      * exact Hget.
Qed.

Lemma NoDup_insert (A : Type) (c1 p c2 : list A) :
  NoDup (c1 ++ c2) -> NoDup p ->
  (forall c, In c p -> ~ In c (c1 ++ c2)) ->
  NoDup (c1 ++ p ++ c2).
Proof.
  induction c1 as [|a c1 IH]; cbn [app]; intros H Hp Hd.
  - apply NoDup_app; [exact Hp|exact H|]. exact Hd.
  - inversion H as [|? ? Ha H']. subst. constructor.
    + intros Hin. apply in_app_or in Hin. destruct Hin as [Hin|Hin].
      * apply Ha, in_or_app. now left.
      * apply in_app_or in Hin. destruct Hin as [Hin|Hin].
        -- apply (Hd a Hin). now left.
        -- apply Ha, in_or_app. now right.
    + apply IH; [exact H'|exact Hp|]. intros c Hc Hin. apply (Hd c Hc). now right.
Qed.

Lemma NoDup_middle (A : Type) (c1 p c2 : list A) :
  NoDup (c1 ++ p ++ c2) ->
  NoDup (c1 ++ c2) /\ NoDup p /\ forall c, In c p -> ~ In c (c1 ++ c2).
Proof.
  induction c1 as [|a c1 IH]; cbn [app]; intros H.
  - split; [eapply NoDup_app_remove_l; exact H|].
    split; [eapply NoDup_app_remove_r; exact H|].
    intros c Hc Hin. revert H Hc Hin. clear. induction p as [|b p IH]; [easy|].
    cbn [app]. intros H [->|Hc] Hin.
    + inversion H as [|? ? Hb _]. apply Hb, in_or_app. now right.
    + inversion H. subst. eauto.
  - inversion H as [|? ? Ha H']. subst.
    destruct (IH H') as (H1 & H2 & H3). split; [|split; [exact H2|]].
    + constructor; [|exact H1]. intros Hin. apply Ha.
      apply in_app_or in Hin. apply in_or_app.
      destruct Hin; [now left|right; apply in_or_app; now right].
    + intros c Hc [<-|Hin]; [|now apply (H3 c Hc)].
      apply Ha, in_or_app. right. apply in_or_app. now left.
Qed.

(** One step of the loop on a tree: the entry of [k] has been brought up
    to date (store [h2], new part [part']), then [d[k] = x] rewrites the
    root. *)
Lemma root_rewritten (atom : Type) (h h2 : heap atom) (l : nat)
    (o1 o2 : object atom) (f1 f2 : list (text * json atom))
    (c1 part c2 part' : list nat) (k : text) (tx' : json atom)
    (x : value atom) :
  entries h f1 o1 c1 -> entries h f2 o2 c2 ->
  NoDup (l :: c1 ++ part ++ c2) -> l < length h ->
  length h <= length h2 ->
  (forall c, c < length h -> ~ In c part -> nth_error h2 c = nth_error h c) ->
  shape h2 tx' x part' -> NoDup part' ->
  (forall c, In c part' -> In c part \/ length h <= c) ->
  let h3 := write h2 l (o1 ++ (k, x) :: o2) in
  let cells3 := l :: c1 ++ part' ++ c2 in
  shape h3 (JDict (f1 ++ (k, tx') :: f2)) (Ref l) cells3 /\
  NoDup cells3 /\
  length h <= length h3 /\
  (forall c, c < length h -> ~ In c (l :: c1 ++ part ++ c2) ->
             nth_error h3 c = nth_error h c /\ ~ In c cells3) /\
  (forall c, In c cells3 -> In c (l :: c1 ++ part ++ c2) \/ length h <= c).
Proof.
  intros H1 H2 Hnd Hl Hlen Hframe Hsub Hnd' Hpart'. cbv zeta.
  inversion Hnd as [|? ? Hroot Hcells]. subst.
  destruct (NoDup_middle _ _ _ Hcells) as (Hnd12 & _ & Hdisj).
  pose proof (proj2 (shape_valid h) _ _ _ H1) as Hv1.
  pose proof (proj2 (shape_valid h) _ _ _ H2) as Hv2.
  assert (Hold : forall c, In c (c1 ++ c2) ->
                           c < length h /\ c <> l /\ ~ In c part).
  { intros c Hc. split; [|split].
    - apply in_app_or in Hc. destruct Hc; auto.
    - intros ->. apply Hroot. apply in_app_or in Hc. apply in_or_app.
      destruct Hc; [now left|right; apply in_or_app; now right].
    - intros Hp. now apply (Hdisj c Hp). }
  assert (Hnew : forall c, In c part' -> c <> l /\ ~ In c (c1 ++ c2)).
  { intros c Hc. destruct (Hpart' c Hc) as [Hp|Hge].
    - split; [|now apply Hdisj].
      intros ->. apply Hroot, in_or_app. right. apply in_or_app. now left.
    - split; [lia|]. intros Hin. destruct (Hold c Hin). lia. }
  assert (Hkeep : forall c, In c (c1 ++ c2) ->
            nth_error (write h2 l (o1 ++ (k, x) :: o2)) c = nth_error h c).
  { intros c Hc. destruct (Hold c Hc) as (Hlt & Hne & Hnp).
    rewrite nth_error_write_other by exact Hne. now apply Hframe. }
  split; [|split; [|split; [|split]]].
  - apply shape_dict with (o := o1 ++ (k, x) :: o2).
    + apply nth_error_write_same. lia.
    + apply entries_app.
      * apply (proj2 (shape_frame h) _ _ _ H1). intros c Hc.
        apply Hkeep, in_or_app. now left.
      * constructor.
        -- apply (proj1 (shape_frame h2) _ _ _ Hsub). intros c Hc.
           apply nth_error_write_other. now apply Hnew.
        -- apply (proj2 (shape_frame h) _ _ _ H2). intros c Hc.
           apply Hkeep, in_or_app. now right.
  - constructor.
    + intros Hin. apply in_app_or in Hin. destruct Hin as [Hin|Hin].
      * apply Hroot, in_or_app. now left.
      * apply in_app_or in Hin. destruct Hin as [Hin|Hin].
        -- now destruct (Hnew l Hin).
        -- apply Hroot, in_or_app. right. apply in_or_app. now right.
    + apply NoDup_insert; [exact Hnd12|exact Hnd'|]. intros c Hc. now apply Hnew.
  - rewrite write_length. exact Hlen.
  - intros c Hc Hout.
    assert (Hcl : c <> l) by (intros ->; apply Hout; now left).
    assert (Hcp : ~ In c part).
    { intros Hp. apply Hout. right. apply in_or_app. right. apply in_or_app.
      now left. }
    split.
    + rewrite nth_error_write_other by exact Hcl. now apply Hframe.
    + intros [Heq|Hin]; [now apply Hcl|].
      apply Hout. right. apply in_app_or in Hin. apply in_or_app.
      destruct Hin as [Hin|Hin]; [now left|right].
      apply in_app_or in Hin. apply in_or_app.
      destruct Hin as [Hin|Hin]; [|now right].
      destruct (Hpart' c Hin); [now left|lia].
  - intros c [<-|Hin]; [left; now left|].
    apply in_app_or in Hin. destruct Hin as [Hin|Hin].
    + left. right. apply in_or_app. now left.
    + apply in_app_or in Hin. destruct Hin as [Hin|Hin].
      * destruct (Hpart' c Hin) as [Hp|Hge]; [|now right].
        left. right. apply in_or_app. right. apply in_or_app. now left.
      * left. right. apply in_or_app. right. apply in_or_app. now right.
Qed.

Lemma updated_after_step (atom : Type) (h h3 : heap atom) (d : value atom)
    (cells cells3 : list nat) (expected : option (json atom))
    (res : heap atom * outcome (value atom)) :
  length h <= length h3 ->
  (forall c, c < length h -> ~ In c cells ->
             nth_error h3 c = nth_error h c /\ ~ In c cells3) ->
  (forall c, In c cells3 -> In c cells \/ length h <= c) ->
  updated h3 d cells3 expected res ->
  updated h d cells expected res.
Proof.
  intros Hlen Hframe Hcells (Hlen3 & Hframe3 & Hres).
  split; [lia|]. split.
  - intros c Hc Hout. destruct (Hframe c Hc Hout) as [Hsame Hout3].
    rewrite <- Hsame. apply Hframe3; [lia|exact Hout3].
  - destruct (snd res) as [x|]; [|exact Hres].
    destruct Hres as (-> & t' & cells' & He & Hshape & Hnd & Hin).
    split; [reflexivity|]. exists t', cells'. repeat split; try assumption.
    intros c Hc. destruct (Hin c Hc) as [H3|Hge]; [|right; lia].
    destruct (Hcells c H3); auto.
Qed.

Lemma update_nested_dict_merge (atom : Type) (u : json atom) :
  forall (h : heap atom) (d : value atom) (t : json atom) (cells : list nat),
    shape h t d cells -> NoDup cells ->
    updated h d cells (merge t u) (update_nested_dict h d u).
Proof.
  induction u as [a|ufields IH] using json_induction; intros h d t cells Hshape Hnd.
  - split; [cbn; lia|]. split; [reflexivity|reflexivity].
  - cbn [update_nested_dict merge]. revert h t cells Hshape Hnd.
    induction IH as [|[k v] rest Hv _ IHrest]; intros h t cells Hshape Hnd.
    + split; [cbn; lia|]. split; [reflexivity|]. cbn [snd fst].
      split; [reflexivity|]. exists t, cells. repeat split; auto.
    + destruct Hshape as [a|l o fields cells Hl Hentries].
      * split; [cbn; lia|]. split; [reflexivity|reflexivity].
      * rewrite Hl.
        pose proof (nth_error_valid _ _ Hl) as Hlt.
        pose proof (@entries_split _ h k _ _ _ Hentries)
          as (f1 & f2 & o1 & o2 & c1 & c2 & part & -> & H1 & H2 & Ho & Hf & Hget).
        inversion Hnd as [|? ? Hroot Hcells]. subst.
        destruct (NoDup_middle _ _ _ Hcells) as (_ & Hndpart & _).
        destruct v as [a|vfields].
        -- rewrite Ho, Hf.
           pose proof (@root_rewritten _ h h l o1 o2 f1 f2 c1 part c2 [] k
                         (JLeaf a) (Atom a) H1 H2 Hnd Hlt (le_n _)
                         (fun c _ _ => eq_refl) (shape_leaf h a) (NoDup_nil _)
                         (fun c Hc => match Hc with end))
             as (Hshape3 & Hnd3 & Hlen3 & Hframe3 & Hcells3).
           eapply updated_after_step; [exact Hlen3|exact Hframe3|exact Hcells3|].
           apply IHrest; assumption.
        -- cbn [snd] in Hv. destruct (dict_get k o) as [x|] eqn:Ex.
           ++ destruct Hget as (tx & Hfx & Hsub). rewrite Hfx.
              pose proof (Hv h x tx part Hsub Hndpart) as (Hlen2 & Hframe2 & Hres2).
              destruct (update_nested_dict h x (JDict vfields)) as [h2 [r|]].
              ** cbn [fst snd] in *.
                 destruct Hres2 as (-> & tx' & part' & -> & Hsub' & Hnd' & Hpart').
                 assert (Hl2 : nth_error h2 l = Some o).
                 { rewrite Hframe2; [exact Hl|exact Hlt|].
                   intros Hin. apply Hroot, in_or_app. right.
                   apply in_or_app. now left. }
                 rewrite Hl2, Ho, Hf.
                 pose proof (@root_rewritten _ h h2 l o1 o2 f1 f2 c1 part c2 part' k
                               tx' x H1 H2 Hnd Hlt Hlen2 Hframe2 Hsub' Hnd' Hpart')
                   as (Hshape3 & Hnd3 & Hlen3 & Hframe3 & Hcells3).
                 eapply updated_after_step;
                   [exact Hlen3|exact Hframe3|exact Hcells3|].
                 apply IHrest; assumption.
              ** cbn [fst snd] in *. rewrite Hres2.
                 split; [exact Hlen2|]. split; [|reflexivity].
                 intros c Hc Hout. apply Hframe2; [exact Hc|].
                 intros Hin. apply Hout. right. apply in_or_app. right.
                 apply in_or_app. now left.
           ++ destruct Hget as (Hfx & ->). rewrite Hfx.
              assert (Hfresh : shape (h ++ [[]]) (JDict []) (Ref (length h))
                                 [length h]).
              { apply shape_dict with (o := []); [|constructor].
                now rewrite nth_error_app2, Nat.sub_diag by lia. }
              pose proof (Hv (h ++ [[]]) (Ref (length h)) (JDict []) [length h]
                            Hfresh ltac:(repeat constructor; easy))
                as (Hlen2 & Hframe2 & Hres2).
              rewrite length_app in Hlen2, Hframe2. cbn [length] in Hlen2, Hframe2.
              assert (Hframe : forall c, c < length h -> ~ In c [] ->
                        nth_error
                          (fst (update_nested_dict (h ++ [[]]) (Ref (length h))
                                  (JDict vfields))) c
                        = nth_error h c).
              { intros c Hc _. rewrite Hframe2; [|lia|intros [Heq|[]]; lia].
                now apply nth_error_app1. }
              destruct (update_nested_dict (h ++ [[]]) (Ref (length h))
                          (JDict vfields)) as [h2 [r|]].
              ** cbn [fst snd] in *.
                 destruct Hres2 as (-> & tx' & part' & -> & Hsub' & Hnd' & Hpart').
                 assert (Hl2 : nth_error h2 l = Some o)
                   by (rewrite Hframe; [exact Hl|exact Hlt|easy]).
                 rewrite Hl2, Ho, Hf.
                 assert (Hpart'' : forall c, In c part' -> In c [] \/ length h <= c).
                 { intros c Hc. right. destruct (Hpart' c Hc) as [[<-|[]]|Hge]; [lia|].
                   rewrite length_app in Hge. cbn [length] in Hge. lia. }
                 pose proof (@root_rewritten _ h h2 l o1 o2 f1 f2 c1 [] c2 part' k
                               tx' (Ref (length h)) H1 H2 Hnd Hlt ltac:(lia) Hframe
                               Hsub' Hnd' Hpart'')
                   as (Hshape3 & Hnd3 & Hlen3 & Hframe3 & Hcells3).
                 eapply updated_after_step;
                   [exact Hlen3|exact Hframe3|exact Hcells3|].
                 apply IHrest; assumption.
              ** cbn [fst snd] in *. rewrite Hres2.
                 split; [cbn [fst]; lia|]. split; [|reflexivity].
                 intros c Hc _. now apply Hframe.
Qed.

(** X27.  On a value whose dictionaries form a tree,
    [_update_nested_dict] returns exactly when the pure update is defined
    and raises otherwise; when it returns, the value stands for the merged
    tree, still without sharing; and whether it returns or raises, no
    dictionary outside the tree is touched. *)
Theorem update_nested_dict_on_a_tree (atom : Type) (h : heap atom)
    (d : value atom) (t u : json atom) (cells : list nat) :
  shape h t d cells -> NoDup cells ->
  let '(h', result) := update_nested_dict h d u in
  (forall c, c < length h -> ~ In c cells -> nth_error h' c = nth_error h c) /\
  match merge t u with
  | Some t' =>
      result = Returned d /\
      exists cells',
        shape h' t' d cells' /\ NoDup cells' /\
        forall c, In c cells' -> In c cells \/ length h <= c
  | None => result = Raised
  end.
Proof.
  intros Hshape Hnd.
  pose proof (@update_nested_dict_merge _ u h d t cells Hshape Hnd)
    as (_ & Hframe & Hres).
  destruct (update_nested_dict h d u) as [h' [x|]]; cbn [fst snd] in *.
  - split; [exact Hframe|].
    destruct Hres as (-> & t' & cells' & -> & Hs & Hn & Hc).
    split; [reflexivity|]. now exists cells'.
  - split; [exact Hframe|]. now rewrite Hres.
Qed.

Lemma update_nested_dict_on_a_tree_witness :
  let '(h', result) :=
    update_nested_dict [[(txt "port", Atom 8000%Z)]] (Ref 0)
      (JDict [(txt "port", JLeaf 9000%Z)]) in
  result = Returned (Ref 0) /\
  exists cells',
    shape h' (JDict [(txt "port", JLeaf 9000%Z)]) (Ref 0) cells' /\ NoDup cells' /\
    forall c, In c cells' -> In c [0] \/ 1 <= c.
Proof.
  assert (Hshape : shape [[(txt "port", Atom 8000%Z)]]
                     (JDict [(txt "port", JLeaf 8000%Z)]) (Ref 0) [0]).
  { apply shape_dict with (o := [(txt "port", Atom 8000%Z)]); [reflexivity|].
    apply (@entries_cons Z _ (txt "port") (JLeaf 8000%Z) (Atom 8000%Z) [] [] [] []);
      constructor. }
  assert (Hnd : NoDup [0]) by (repeat constructor; easy).
  pose proof (@update_nested_dict_on_a_tree Z _ _ _
                (JDict [(txt "port", JLeaf 9000%Z)]) _ Hshape Hnd) as H.
  cbv beta iota zeta delta [update_nested_dict nth_error dict_get dict_set write
    text_eqb merge] in H |- *.
  exact (proj2 H).
Defined.

(** After [self.config = self.defaults.copy()] the configuration stands
    for the default tree; no dictionary is shared within it, and the
    top-level dictionary of the defaults is not part of it. *)
Lemma initial_shape :
  exists cells,
    shape (store (init None)) default_tree (Ref (config (init None))) cells /\
    NoDup cells /\ ~ In 0 cells.
Proof.
  assert (Hleaf : forall h k (a : scalar) fields o cells,
            entries h fields o cells ->
            entries h ((k, JLeaf a) :: fields) ((k, Atom a) :: o) ([] ++ cells)).
  { intros h k a fields o cells H. apply entries_cons; [constructor|exact H]. }
  assert (Hdict : forall h k l o' fs part fields o cells,
            nth_error h l = Some o' -> entries h fs o' part ->
            entries h fields o cells ->
            entries h ((k, JDict fs) :: fields) ((k, @Ref scalar l) :: o)
              ((l :: part) ++ cells)).
  { intros h k l o' fs part fields o cells Hl Hfs H.
    apply entries_cons; [|exact H]. now apply shape_dict with (o := o'). }
  eexists. split; [|split].
  - apply shape_dict with (o := nth 0 default_store []); [reflexivity|].
    unfold default_tree.
    repeat first
      [ apply entries_nil
      | apply Hleaf
      | eapply Hdict; [reflexivity| |] ].
  - cbn [app]. repeat constructor; cbn [In]; intuition discriminate.
  - cbn [app In config init load_config copy_defaults length default_store].
    intuition discriminate.
Qed.

(** X28.  After [__init__] has read a user configuration, the top-level
    dictionary of the defaults is as it was and no dictionary or key of the
    defaults has been lost; when the pure update of the default tree by the
    user configuration is defined, the configuration stands for that merged
    tree, without sharing. *)
Theorem init_merges_user_config (user_config : json scalar) :
  let s := init (Some user_config) in
  defaults s = 0 /\ config s = 9 /\
  nth_error (store s) (defaults s) = nth_error default_store 0 /\
  keeps default_store (store s) /\
  match merge default_tree user_config with
  | Some merged =>
      exists cells,
        shape (store s) merged (Ref (config s)) cells /\ NoDup cells /\ ~ In 0 cells
  | None => True
  end.
Proof.
  cbv zeta. destruct initial_shape as (cells & Hshape & Hnd & H0).
  pose proof (@update_nested_dict_merge _ user_config _ _ _ _ Hshape Hnd)
    as (Hlen & Hframe & Hres).
  pose proof (update_nested_dict_keeps user_config (store (init None))
                (Ref (config (init None)))) as [Hkeeps _].
  change (store (init (Some user_config)))
    with (fst (update_nested_dict (store (init None)) (Ref (config (init None)))
                 user_config)).
  split; [reflexivity|]. split; [reflexivity|]. split; [|split].
  - change (defaults (init (Some user_config))) with 0.
    rewrite Hframe; [reflexivity|cbn; lia|exact H0].
  - eapply keeps_trans; [|exact Hkeeps]. apply (keeps_alloc default_store).
  - destruct (merge default_tree user_config) as [merged|]; [|exact I].
    destruct (snd (update_nested_dict (store (init None))
                     (Ref (config (init None))) user_config)) as [x|];
      [|discriminate].
    destruct Hres as (_ & t' & cells' & Ht' & Hs' & Hn' & Hin').
    injection Ht' as <-. exists cells'. split; [exact Hs'|]. split; [exact Hn'|].
    intros Hc. destruct (Hin' 0 Hc) as [Hc0|Hge]; [now apply H0|].
    cbn in Hge. lia.
Qed.

Lemma dict_get_None (V : Type) (k : text) (d : dict V) :
  ~ In k (map fst d) -> dict_get k d = None.
Proof.
  induction d as [|[k' v] d IH]; cbn; [reflexivity|]. intros H.
  destruct (text_eqb k k') eqn:E.
  - apply text_eqb_eq in E. exfalso. apply H. now left.
  - apply IH. intros Hin. apply H. now right.
Qed.

Lemma distinct_keys_dict (atom : Type) (fields : list (text * json atom)) :
  distinct_keys (JDict fields) <->
  NoDup (map fst fields) /\ Forall (fun kv => distinct_keys (snd kv)) fields.
Proof.
  cbn [distinct_keys]. split; intros [Hnd H]; (split; [exact Hnd|]); clear Hnd.
  - induction fields as [|[k v] rest IH]; constructor; [apply H|apply IH, H].
  - induction H as [|[k v] rest Hv _ IH]; [exact I|]. split; assumption.
Qed.

(** X29.  The pure update puts every leaf of the update where the update
    has it, and leaves alone whatever lies under a top-level key the update
    does not mention (the update having no key twice in a dictionary, as
    in Python). *)
Theorem merge_sets_the_leaves_and_keeps_the_rest (atom : Type) (u : json atom) :
  forall t t', merge t u = Some t' -> distinct_keys u ->
    (forall path a, lookup u path = Some (JLeaf a) ->
                    lookup t' path = Some (JLeaf a)) /\
    (forall k path, lookup u [k] = None ->
                    lookup t' (k :: path) = lookup t (k :: path)).
Proof.
  induction u as [a|ufields IH] using json_induction; intros t t' Hm Hd;
    [discriminate|].
  apply distinct_keys_dict in Hd. destruct Hd as [Hnd Hd].
  assert (Hloop :
    (forall k path, dict_get k ufields = None ->
                    lookup t' (k :: path) = lookup t (k :: path)) /\
    (forall k v path a, dict_get k ufields = Some v ->
                        lookup v path = Some (JLeaf a) ->
                        lookup t' (k :: path) = Some (JLeaf a))).
  { cbn [merge] in Hm. revert t Hm Hnd Hd.
    induction IH as [|[k0 v0] rest Hv _ IHrest]; intros t Hm Hnd Hd.
    - injection Hm as <-. split; [reflexivity|discriminate].
    - destruct t as [b|entries]; [discriminate|].
      cbn [map fst] in Hnd. inversion Hnd as [|? ? Hk0 Hnd']. subst.
      inversion Hd as [|? ? Hd0 Hd']. subst. cbn [snd] in Hd0, Hv.
      apply dict_get_None in Hk0.
      assert (Hstep : forall r,
                (fix each (fields : list (text * json atom)) (t : json atom)
                   : option (json atom) :=
                   match fields with
                   | [] => Some t
                   | (k, v) :: rest =>
                       match t with
                       | JLeaf _ => None
                       | JDict entries =>
                           match v with
                           | JDict _ =>
                               match merge (match dict_get k entries with
                                            | Some x => x
                                            | None => JDict []
                                            end) v with
                               | None => None
                               | Some r => each rest (JDict (dict_set k r entries))
                               end
                           | JLeaf a => each rest (JDict (dict_set k (JLeaf a) entries))
                           end
                       end
                   end) rest (JDict (dict_set k0 r entries)) = Some t' ->
                (forall path, lookup t' (k0 :: path) = lookup r path) /\
                (forall k path, text_eqb k k0 = false -> dict_get k rest = None ->
                   lookup t' (k :: path) = lookup (JDict entries) (k :: path)) /\
                (forall k v path a, dict_get k rest = Some v ->
                   lookup v path = Some (JLeaf a) ->
                   lookup t' (k :: path) = Some (JLeaf a))).
      { intros r Hr. destruct (IHrest _ Hr Hnd' Hd') as [Hkeep Hset].
        split; [|split].
        - intros path. rewrite (Hkeep k0 path Hk0). cbn [lookup].
          now rewrite dict_get_set, text_eqb_refl.
        - intros k path Hne Hk. rewrite (Hkeep k path Hk). cbn [lookup].
          now rewrite dict_get_set, Hne.
        - exact Hset. }
      destruct v0 as [a0|vfields].
      + destruct (Hstep _ Hm) as (Hk & Hother & Hset). split.
        * intros k path Hget. cbn [dict_get] in Hget.
          destruct (text_eqb k k0) eqn:E; [discriminate|]. now apply Hother.
        * intros k v path a Hget Hl. cbn [dict_get] in Hget.
          destruct (text_eqb k k0) eqn:E; [|now apply (Hset k v)].
          apply text_eqb_eq in E. subst k0. injection Hget as <-.
          rewrite Hk. exact Hl.
      + destruct (merge _ (JDict vfields)) as [r|] eqn:Er; [|discriminate].
        destruct (Hv _ _ Er Hd0) as [Hleaves _].
        destruct (Hstep _ Hm) as (Hk & Hother & Hset). split.
        * intros k path Hget. cbn [dict_get] in Hget.
          destruct (text_eqb k k0) eqn:E; [discriminate|]. now apply Hother.
        * intros k v path a Hget Hl. cbn [dict_get] in Hget.
          destruct (text_eqb k k0) eqn:E; [|now apply (Hset k v)].
          apply text_eqb_eq in E. subst k0. injection Hget as <-.
          rewrite Hk. now apply Hleaves. }
  destruct Hloop as [Hkeep Hset]. split.
  - intros [|k path] a Hl; [discriminate|]. cbn [lookup] in Hl.
    destruct (dict_get k ufields) as [v|] eqn:E; [|discriminate].
    now apply (Hset k v).
  - intros k path Hl. apply Hkeep. cbn [lookup] in Hl.
    now destruct (dict_get k ufields).
Qed.

Lemma merge_sets_the_leaves_and_keeps_the_rest_witness :
  lookup (JDict [(txt "host", JLeaf 1%Z); (txt "port", JLeaf 9000%Z)]) [txt "port"]
  = Some (JLeaf 9000%Z) /\
  lookup (JDict [(txt "host", JLeaf 1%Z); (txt "port", JLeaf 9000%Z)]) [txt "host"]
  = lookup (JDict [(txt "host", JLeaf 1%Z); (txt "port", JLeaf 8000%Z)]) [txt "host"].
Proof.
  assert (Hd : distinct_keys (JDict [(txt "port", JLeaf 9000%Z)])).
  { cbn. repeat split. repeat constructor. easy. }
  destruct (@merge_sets_the_leaves_and_keeps_the_rest Z
              (JDict [(txt "port", JLeaf 9000%Z)])
              (JDict [(txt "host", JLeaf 1%Z); (txt "port", JLeaf 8000%Z)])
              (JDict [(txt "host", JLeaf 1%Z); (txt "port", JLeaf 9000%Z)])
              eq_refl Hd) as [H1 H2].
  split.
  - apply H1. reflexivity.
  - apply (H2 (txt "host") []). reflexivity.
Defined.

End SettingsFacts.
